(** * A shallow embedding of the spreadsheet recalculation engine (src/App.jsx)

    The development follows the source function by function:
    - [displayValue], [textColor] of the cell component (App.jsx, lines 7-13)
    - [calculateFormula]          (App.jsx, lines 42-57)
    - [hasCircularDependency]     (App.jsx, lines 59-66)
    - [updateCellAndDependents]   (App.jsx, lines 68-111)
    - [saveToHistory], [handleUndo], [handleRedo]   (App.jsx, lines 114-134)
    - [handleInputChange], [handleBlur]             (App.jsx, lines 139-156)
    - [addColumn], [addRow] and the cell ids of the grid (App.jsx, lines
      163-170 and 195)
    - [undoDisabled], [redoDisabled] of the toolbar (App.jsx, lines 177-178)

    Modelling decisions.
    - The cell table (a JS object used as a map from cell id to cell record)
      is a [gmap string Cell].  A cell record has the three fields the engine
      writes: [value], [formula], [dependencies].  The source reads the
      dependencies of a possibly missing cell as
      [allCells[id]?.dependencies || []]; [depsOf] is that expression.
    - JS values held by a cell are either strings or results of the external
      evaluator that are not strings (numbers, mostly).  The latter are kept
      abstract: the type [Num], the number [zero], JS truthiness [falsy] and
      JS [String(n)] as [numToString] are parameters, and so is the
      evaluator [evaluate] of the mathjs library, which either returns a value
      or throws ([None]).
    - A string is a sequence of characters with codes below 256.  On a
      text of ASCII characters (codes below 128, [asciiText]) the function
      [toUpperCase] is [String.prototype.toUpperCase]: it maps a-z to A-Z.
      On other text the source maps further letters (the long s to S, the
      sharp s to SS), which [toUpperCase] does not follow: a statement
      about the references that a typed text has, or about the text that the
      evaluator is given, carries the hypothesis [asciiText]; a statement
      about the dependency graph takes the references of a formula as the
      list that [parentsOf] gives.  The column headers that
      [addColumn] makes are ASCII up to the 63rd column; the statements
      about the grid are made for such grids.
    - JS recursion is modelled with a fuel argument that bounds the depth of
      the call stack; [None] means that the fuel ran out.
    - The engine is embedded twice.  In section [Engine] a cell table holds
      the dependents of a cell as a list, and the store is threaded through
      the calls.  In section [Memory] a cell object holds the address of a
      JS array, [push] updates the array in place, and the snapshots kept for
      undo and redo share the arrays with the table shown, as in the source.
      The second embedding is proved to compute, for one call, what the
      first computes on the table read through the memory; the two differ
      for the snapshots, which is where undo and redo are modelled.
    - React applies the state updates in the order of the events, and each
      handler sees the state that the one before it left.
    - The results of the evaluator are not functions: a cell value handed
      to [replace] as the replacement is first turned into a string
      ([numToString] for a result of the evaluator). *)

From stdpp Require Import base gmap strings list relations pretty.
From Stdlib Require Import Ascii.

(** ** Strings *)

Definition isUpper (c : ascii) : bool :=
  (65 <=? nat_of_ascii c) && (nat_of_ascii c <=? 90).

Definition isLower (c : ascii) : bool :=
  (97 <=? nat_of_ascii c) && (nat_of_ascii c <=? 122).

Definition isDigit (c : ascii) : bool :=
  (48 <=? nat_of_ascii c) && (nat_of_ascii c <=? 57).

Definition upperChar (c : ascii) : ascii :=
  if isLower c then ascii_of_nat (nat_of_ascii c - 32) else c.

(** Every character of [s] satisfies [p]. *)
Fixpoint allChars (p : ascii → bool) (s : string) : bool :=
  match s with
  | EmptyString => true
  | String c r => p c && allChars p r
  end.

(** A character of the ASCII range, and a text of such characters. *)
Definition isAscii (c : ascii) : bool := nat_of_ascii c <? 128.

Definition asciiText (s : string) : Prop := allChars isAscii s = true.

(** [s.toUpperCase()] for an ASCII text [s]. *)
Fixpoint toUpperCase (s : string) : string :=
  match s with
  | EmptyString => EmptyString
  | String c r => String (upperChar c) (toUpperCase r)
  end.

(** [s.startsWith("=")] *)
Definition startsWithEq (s : string) : bool :=
  match s with
  | String c _ => Ascii.eqb c "="%char
  | EmptyString => false
  end.

(** [s.substring(1)] *)
Definition substring1 (s : string) : string :=
  match s with
  | String _ r => r
  | EmptyString => EmptyString
  end.

(** The longest prefix of [s] whose characters satisfy [p], and the rest. *)
Fixpoint span (p : ascii -> bool) (s : string) : string * string :=
  match s with
  | String c r =>
      if p c then let '(a, b) := span p r in (String c a, b)
      else (EmptyString, s)
  | EmptyString => (EmptyString, EmptyString)
  end.

(** One attempt of the pattern [A-Z]+[0-9]+ at the start of [s]: the match and
    what follows it.  Both quantifiers are greedy; giving letters back cannot
    help, because the character after a shorter run of letters is a letter. *)
Definition matchRefAt (s : string) : option (string * string) :=
  let '(letters, rest) := span isUpper s in
  let '(digits, rest') := span isDigit rest in
  match letters, digits with
  | String _ _, String _ _ => Some (letters +:+ digits, rest')
  | _, _ => None
  end.

(** [s.match(/[A-Z]+[0-9]+/g) || []]: all matches, leftmost first, the search
    resuming after each match.  The fuel is the length of the string. *)
Fixpoint matchRefsFrom (fuel : nat) (s : string) : list string :=
  match fuel with
  | 0 => []
  | S fuel' =>
      match s with
      | EmptyString => []
      | String _ r =>
          match matchRefAt s with
          | Some (m, rest) => m :: matchRefsFrom fuel' rest
          | None => matchRefsFrom fuel' r
          end
      end
  end.

Definition matchRefs (s : string) : list string :=
  matchRefsFrom (String.length s) s.

(** The position of the first occurrence of [pat] in [s], as the text before
    it and the text after it. *)
Fixpoint findFirst (pat s before : string) : option (string * string) :=
  if String.prefix pat s
  then Some (before, String.substring (String.length pat)
                       (String.length s - String.length pat) s)
  else match s with
       | EmptyString => None
       | String c r => findFirst pat r (before +:+ String c EmptyString)
       end.

(** The replacement text of [String.prototype.replace] for a string pattern
    (no capture groups): [$$], [$&], [$`] and [$'] are expanded, every other
    character stands for itself. *)
Fixpoint getSubstitution (matched before after rep : string) : string :=
  match rep with
  | EmptyString => EmptyString
  | String c r =>
      if Ascii.eqb c "$"%char then
        match r with
        | String d r' =>
            if Ascii.eqb d "$"%char then String "$"%char (getSubstitution matched before after r')
            else if Ascii.eqb d "&"%char then matched +:+ getSubstitution matched before after r'
            else if Ascii.eqb d "`"%char then before +:+ getSubstitution matched before after r'
            else if Ascii.eqb d "'"%char then after +:+ getSubstitution matched before after r'
            else String c (getSubstitution matched before after r)
        | EmptyString => String c EmptyString
        end
      else String c (getSubstitution matched before after r)
  end.

(** [s.replace(pat, rep)] for strings [pat] and [rep]: the first occurrence
    only. *)
Definition jsReplace (s pat rep : string) : string :=
  match findFirst pat s EmptyString with
  | Some (before, after) =>
      before +:+ getSubstitution pat before after rep +:+ after
  | None => s
  end.

(** The text of [s] in which every match of the pattern [A-Z]+[0-9]+ is
    replaced, where it stands, by [rep] of the match.  The scan is that of
    [matchRefsFrom]. *)
Fixpoint replaceRefsFrom (fuel : nat) (rep : string → string) (s : string) : string :=
  match fuel with
  | 0 => s
  | S fuel' =>
      match s with
      | EmptyString => EmptyString
      | String c r =>
          match matchRefAt s with
          | Some (m, rest) => rep m +:+ replaceRefsFrom fuel' rep rest
          | None => String c (replaceRefsFrom fuel' rep r)
          end
      end
  end.

Definition replaceRefs (rep : string → string) (s : string) : string :=
  replaceRefsFrom (String.length s) rep s.

(** A character that is neither an upper-case letter nor the dollar sign. *)
Definition plainChar (c : ascii) : bool :=
  negb (isUpper c) && negb (Ascii.eqb c "$"%char).

(** ** Loops *)

(** A [for ... of] loop that returns true at the first element for which the
    body does, and false when the list is exhausted. *)
Fixpoint anyM {A} (f : A -> option bool) (l : list A) : option bool :=
  match l with
  | [] => Some false
  | a :: l' =>
      match f a with
      | Some true => Some true
      | Some false => anyM f l'
      | None => None
      end
  end.

(** [forEach] with a body that updates a local variable and may not return. *)
Fixpoint forEachM {A S} (f : A -> S -> option S) (l : list A) (s : S) : option S :=
  match l with
  | [] => Some s
  | a :: l' =>
      match f a s with
      | Some s' => forEachM f l' s'
      | None => None
      end
  end.

(** ** Relations *)

(** The edges of [E] and an edge from every node of [P] to [x]. *)
Definition addedEdges {A : Type} (E : relation A) (P : A → Prop) (x : A) : relation A :=
  λ a b, E a b ∨ (P a ∧ b = x).

(** ** The engine *)

Section Engine.

Context {Num : Type}.
(** The JS number 0. *)
Variable zero : Num.
(** JS truthiness of an evaluator result that is not a string. *)
Variable falsy : Num -> bool.
(** JS [String(n)]. *)
Variable numToString : Num -> string.

Inductive Value : Type :=
  | VStr (s : string)
  | VNum (n : Num).

(** mathjs [evaluate]: [None] when it throws. *)
Variable evaluate : string -> option Value.

Record Cell : Type := mkCell {
  value : Value;
  formula : string;
  dependencies : list string
}.

(** The object [{ value: "", formula: "", dependencies: [] }] (line 95). *)
Definition emptyCell : Cell := mkCell (VStr "") "" [].

Definition isFalsy (v : Value) : bool :=
  match v with
  | VStr s => if decide (s = "") then true else false
  | VNum n => falsy n
  end.

Definition valueToString (v : Value) : string :=
  match v with
  | VStr s => s
  | VNum n => numToString n
  end.

(** [v === "#ERROR" || v === "#CIRCULAR"] *)
Definition isErrorTag (v : Value) : bool :=
  match v with
  | VStr s => if decide (s = "#ERROR") then true
              else if decide (s = "#CIRCULAR") then true else false
  | VNum _ => false
  end.

(** [currentCells[cellRef]?.value || 0] *)
Definition valueOrZero (currentCells : gmap string Cell) (cellRef : string) : Value :=
  match currentCells !! cellRef with
  | Some c => if isFalsy (value c) then VNum zero else value c
  | None => VNum zero
  end.

(** The loop of [calculateFormula] (lines 47-51): [None] when it returns
    "#ERROR" from inside the loop, the substituted expression otherwise. *)
Fixpoint substituteRefs (cellRefs : list string) (expression : string)
    (currentCells : gmap string Cell) : option string :=
  match cellRefs with
  | [] => Some expression
  | cellRef :: rest =>
      let cellValue := valueOrZero currentCells cellRef in
      if isErrorTag cellValue then None
      else substituteRefs rest
             (jsReplace expression cellRef (valueToString cellValue)) currentCells
  end.

(** What [calculateFormula] does before it reaches line 53: it has returned a
    value, or it is about to call the evaluator on an expression. *)
Inductive Plan : Type :=
  | Return (v : Value)
  | Evaluate (expression : string).

Definition formulaPlan (formula : string) (currentCells : gmap string Cell) : Plan :=
  if negb (startsWithEq formula) then Return (VStr formula)
  else
    let expression := toUpperCase (substring1 formula) in
    let cellRefs := matchRefs expression in
    match substituteRefs cellRefs expression currentCells with
    | None => Return (VStr "#ERROR")
    | Some expression' => Evaluate expression'
    end.

Definition calculateFormula (formula : string) (currentCells : gmap string Cell) : Value :=
  match formulaPlan formula currentCells with
  | Return v => v
  | Evaluate expression =>
      match evaluate expression with
      | Some v => v
      | None => VStr "#ERROR"
      end
  end.

(** [allCells[id]?.dependencies || []] *)
Definition depsOf (allCells : gmap string Cell) (id : string) : list string :=
  match allCells !! id with
  | Some c => dependencies c
  | None => []
  end.

Fixpoint hasCircularDependency (fuel : nat) (startCell targetCell : string)
    (allCells : gmap string Cell) : option bool :=
  match fuel with
  | 0 => None
  | S fuel' =>
      if decide (startCell = targetCell) then Some true
      else anyM (fun dependent => hasCircularDependency fuel' dependent targetCell allCells)
             (depsOf allCells startCell)
  end.

(** The references of a formula as [updateCellAndDependents] extracts them
    (lines 69-71). *)
Definition parentsOf (newFormula : string) : list string :=
  if startsWithEq newFormula then matchRefs (toUpperCase newFormula) else [].

(** The snapshot returned from inside the cycle check (lines 76-79). *)
Definition circularSnapshot (startCellId newFormula : string)
    (allCells : gmap string Cell) : gmap string Cell :=
  <[startCellId := mkCell (VStr "#CIRCULAR") newFormula (depsOf allCells startCellId)]> allCells.

(** The body of [parents.forEach] (lines 95-98). *)
Definition addDependent (startCellId : string) (updatedCells : gmap string Cell)
    (parent : string) : gmap string Cell :=
  let updatedCells1 :=
    match updatedCells !! parent with
    | Some _ => updatedCells
    | None => <[parent := emptyCell]> updatedCells
    end in
  match updatedCells1 !! parent with
  | Some c =>
      if decide (startCellId ∈ dependencies c) then updatedCells1
      else <[parent := mkCell (value c) (formula c) (dependencies c ++ [startCellId])]> updatedCells1
  | None => updatedCells1
  end.

(** [{ ...updatedCells, ...childResult }]: the keys of [childResult] win. *)
Definition spread (updatedCells childResult : gmap string Cell) : gmap string Cell :=
  childResult ∪ updatedCells.

(** Lines 83-99: the edited cell is written with its computed value, then
    every parent gets the edited cell as a dependent. *)
Definition linkParents (startCellId newFormula : string)
    (allCells : gmap string Cell) : gmap string Cell :=
  let computedValue := calculateFormula newFormula allCells in
  let updatedCells :=
    <[startCellId := mkCell computedValue newFormula (depsOf allCells startCellId)]> allCells in
  foldl (addDependent startCellId) updatedCells (parentsOf newFormula).

(** The body of [children.forEach] (lines 103-107), for a given meaning of the
    recursive call. *)
Definition refreshChild
    (recur : string -> string -> gmap string Cell -> option (gmap string Cell))
    (childId : string) (updatedCells : gmap string Cell) : option (gmap string Cell) :=
  match updatedCells !! childId with
  | Some childData =>
      match recur childId (formula childData) updatedCells with
      | Some childResult => Some (spread updatedCells childResult)
      | None => None
      end
  | None => Some updatedCells
  end.

Fixpoint updateCellAndDependents (fuel : nat) (startCellId newFormula : string)
    (allCells : gmap string Cell) : option (gmap string Cell) :=
  match fuel with
  | 0 => None
  | S fuel' =>
      let parents := parentsOf newFormula in
      match anyM (fun parent => hasCircularDependency fuel' startCellId parent allCells) parents with
      | None => None
      | Some true => Some (circularSnapshot startCellId newFormula allCells)
      | Some false =>
          let updatedCells := linkParents startCellId newFormula allCells in
          let children := depsOf updatedCells startCellId in
          forEachM (refreshChild (updateCellAndDependents fuel')) children updatedCells
      end
  end.

(** ** The interaction handlers that reach the engine (lines 139-156) *)

(** [handleInputChange]: the cell keeps its other fields; formula and value
    become the typed text. *)
Definition handleInputChange (cellId text : string)
    (prev : gmap string Cell) : gmap string Cell :=
  <[cellId := mkCell (VStr text) text (depsOf prev cellId)]> prev.

(** [currentCells[cellId]?.formula || ""] *)
Definition formulaOf (currentCells : gmap string Cell) (cellId : string) : string :=
  match currentCells !! cellId with
  | Some c => formula c
  | None => ""
  end.

(** The new cell table computed by [handleBlur]. *)
Definition handleBlur (fuel : nat) (cellId : string)
    (currentCells : gmap string Cell) : option (gmap string Cell) :=
  updateCellAndDependents fuel cellId (formulaOf currentCells cellId) currentCells.

(** A committed edit: the user types a text into a cell and leaves it, or
    enters a cell and leaves it without typing. *)
Inductive Edit : Type :=
  | TypeAndBlur (cellId text : string)
  | FocusAndBlur (cellId : string).


Definition applyEdit (fuel : nat) (e : Edit)
    (cells : gmap string Cell) : option (gmap string Cell) :=
  match e with
  | TypeAndBlur cellId text => handleBlur fuel cellId (handleInputChange cellId text cells)
  | FocusAndBlur cellId => handleBlur fuel cellId cells
  end.

(** The cell an edit hands to the engine, and the table it hands over. *)
Definition editedCell (e : Edit) : string :=
  match e with
  | TypeAndBlur cellId _ => cellId
  | FocusAndBlur cellId => cellId
  end.

Definition tableBefore (e : Edit) (cells : gmap string Cell) : gmap string Cell :=
  match e with
  | TypeAndBlur cellId text => handleInputChange cellId text cells
  | FocusAndBlur _ => cells
  end.

Definition runEdits (fuel : nat) (edits : list Edit)
    (cells : gmap string Cell) : option (gmap string Cell) :=
  forEachM (applyEdit fuel) edits cells.

(** ** The dependency graph of a cell table *)

(** [b] is a dependent of [a]. *)
Definition edge (s : gmap string Cell) (a b : string) : Prop := b ∈ depsOf s a.

(** [b] is [a] or can be reached from [a] along dependents edges. *)
Definition reach (s : gmap string Cell) : relation string := rtc (edge s).

Definition acyclic (s : gmap string Cell) : Prop := ∀ a, ¬ tc (edge s) a a.

(** The cell stored under an id, the implicit empty cell when there is none. *)
Definition cellOr (s : gmap string Cell) (c : string) : Cell :=
  default emptyCell (s !! c).

Definition valueAt (s : gmap string Cell) (c : string) : Value := value (cellOr s c).
Definition formulaAt (s : gmap string Cell) (c : string) : string := formula (cellOr s c).

(** Every reference of the stored formula of [c] has [c] among its
    dependents. *)
Definition registered (s : gmap string Cell) (c : string) : Prop :=
  ∀ p, p ∈ parentsOf (formulaAt s c) → c ∈ depsOf s p.

(** [s'] has every cell of [s], and every dependents list of [s] with
    possibly more entries pushed at its end. *)
Definition extends (s s' : gmap string Cell) : Prop :=
  (∀ c, depsOf s c `prefix_of` depsOf s' c) ∧
  (∀ c, is_Some (s !! c) → is_Some (s' !! c)).

(** The invariant of the dependents lists: a cell whose value is not the
    tag of a rejected edit is registered. *)
Definition edgesRecorded (s : gmap string Cell) : Prop :=
  ∀ c, valueAt s c ≠ VStr "#CIRCULAR" → registered s c.

(** A registered cell that references a cell with value "#ERROR" has the
    value "#ERROR" itself. *)
Definition poisoned (s : gmap string Cell) : Prop :=
  ∀ d c, registered s c → d ∈ parentsOf (formulaAt s c) →
    valueAt s d = VStr "#ERROR" → valueAt s c = VStr "#ERROR".

(** Every cell id that occurs in [s] (as a key, in a dependents list or in a
    stored formula) is in [U]. *)
Definition closedIn (U : list string) (s : gmap string Cell) : Prop :=
  (∀ c, is_Some (s !! c) → c ∈ U) ∧
  (∀ a b, edge s a b → b ∈ U) ∧
  (∀ c p, p ∈ parentsOf (formulaAt s c) → p ∈ U).

(** The cell ids that a call with cell [x] and formula [f] can meet. *)
Definition universe (x f : string) (s : gmap string Cell) : list string :=
  x :: parentsOf f ++
  (map_to_list s ≫= λ kc, kc.1 :: dependencies kc.2 ++ parentsOf (formula kc.2)).

(** The callers of the call on [y], innermost first: they are distinct cell
    ids of [U], and each of them reaches [y]. *)
Definition stackOK (U : list string) (s : gmap string Cell)
    (σ : list string) (y : string) : Prop :=
  NoDup σ ∧ ∀ a, a ∈ σ → a ∈ U ∧ tc (edge s) a y.

(** A cell whose formula is a literal has that text as its value. *)
Definition literalOK (s : gmap string Cell) (c : string) : Prop :=
  startsWithEq (formulaAt s c) = false → valueAt s c = VStr (formulaAt s c).

(** The pair of a referenced cell [d] and a referencing cell [c] is
    consistent when the error of [d] shows in [c]. *)
Definition okPair (s : gmap string Cell) (d c : string) : Prop :=
  valueAt s d = VStr "#ERROR" → valueAt s c = VStr "#ERROR".

(** What every committed table satisfies. *)
Definition wellFormed (s : gmap string Cell) : Prop :=
  acyclic s ∧ edgesRecorded s ∧ poisoned s.

(** The value of [c] is what its stored formula evaluates to on the table,
    unless the formula references a cell whose value is "#CIRCULAR". *)
Definition upToDate (s : gmap string Cell) (c : string) : Prop :=
  (∀ p, p ∈ parentsOf (formulaAt s c) → valueAt s p ≠ VStr "#CIRCULAR") →
  valueAt s c = calculateFormula (formulaAt s c) s.

(** Every registered cell is up to date. *)
Definition consistent (s : gmap string Cell) : Prop :=
  ∀ c, registered s c → upToDate s c.

(** The stored formula of [c] closes a cycle: one of its references is [c]
    or can be reached from [c]. *)
Definition closesCycle (s : gmap string Cell) (c : string) : Prop :=
  ∃ p, p ∈ parentsOf (formulaAt s c) ∧ reach s c p.

(** What every committed table satisfies besides [wellFormed]: every cell
    is registered or its formula closes a cycle, and the registered cells are
    up to date. *)
Definition settled (s : gmap string Cell) : Prop :=
  edgesRecorded s ∧ consistent s ∧ ∀ c, registered s c ∨ closesCycle s c.


(** No stored formula references a cell whose value is "#CIRCULAR". *)
Definition noCircularParent (s : gmap string Cell) : Prop :=
  ∀ c p, p ∈ parentsOf (formulaAt s c) → valueAt s p ≠ VStr "#CIRCULAR".

(** The text that a sequence of edits has typed into [c] last, [start] when
    it has typed none. *)
Definition lastTyped (c : string) (edits : list Edit) (start : string) : string :=
  foldl (λ t e, match e with
                | TypeAndBlur cellId text => if decide (cellId = c) then text else t
                | FocusAndBlur _ => t
                end) start edits.

(** ** The cell component (lines 7-13)

    [cellData] is [cells[cellId] || {}]: [None] stands for the object without
    fields. *)

(** [isFocused ? (cellData.formula || "") : (cellData.value || "")] *)
Definition displayValue (isFocused : bool) (cellData : option Cell) : Value :=
  if isFocused then
    match cellData with
    | Some c => if decide (formula c = "") then VStr "" else VStr (formula c)
    | None => VStr ""
    end
  else
    match cellData with
    | Some c => if isFalsy (value c) then VStr "" else value c
    | None => VStr ""
    end.

Inductive Color : Type := red | black.

(** [(cellData.value === "#CIRCULAR" || cellData.value === "#ERROR") ? "red" : "black"] *)
Definition textColor (cellData : option Cell) : Color :=
  match cellData with
  | Some c =>
      match value c with
      | VStr v => if decide (v = "#CIRCULAR") then red
                  else if decide (v = "#ERROR") then red else black
      | VNum _ => black
      end
  | None => black
  end.

(** ** The runs of [updateCellAndDependents] as a relation

    [Update x f s s'] holds when the call with cell [x], formula [f] and
    table [s] returns [s'], the cycle check being described by what it
    computes (reachability); [Refresh l s s'] is the loop over the children
    (lines 102-108), whose merge keeps the child result. *)
Inductive Update : string → string → gmap string Cell → gmap string Cell → Prop :=
  | Update_circular x f s :
      (∃ p, p ∈ parentsOf f ∧ reach s x p) →
      Update x f s (circularSnapshot x f s)
  | Update_ok x f s s' :
      (∀ p, p ∈ parentsOf f → ¬ reach s x p) →
      Refresh (depsOf (linkParents x f s) x) (linkParents x f s) s' →
      Update x f s s'
with Refresh : list string → gmap string Cell → gmap string Cell → Prop :=
  | Refresh_nil s : Refresh [] s s
  | Refresh_skip c l s s' :
      s !! c = None →
      Refresh l s s' →
      Refresh (c :: l) s s'
  | Refresh_step c cd l s s1 s' :
      s !! c = Some cd →
      Update c (formula cd) s s1 →
      Refresh l s1 s' →
      Refresh (c :: l) s s'.

Scheme Update_mut := Minimality for Update Sort Prop
  with Refresh_mut := Minimality for Refresh Sort Prop.
Combined Scheme Update_Refresh_ind from Update_mut, Refresh_mut.

End Engine.

(** ** The engine with the dependents arrays in memory

    The source keeps the dependents of a cell in a JS array and pushes into
    it in place (line 97); the array is shared by every version of the cell
    table that holds the cell, since a rewritten cell object takes over the
    array of the old one (lines 78 and 90) and a spread copies references.
    Here a cell object holds the address of its array, [None] when the
    object has no dependencies field (an object made by [handleInputChange]
    for a cell that did not exist), and the arrays live in a memory.  The
    functions below follow the source statement by statement; the table
    functions above are what they compute when the memory is read through
    (see [updateCellAndDependentsH_sim]). *)
Section Memory.

Context {Num : Type}.
Variable zero : Num.
Variable falsy : Num -> bool.
Variable numToString : Num -> string.
Variable evaluate : string -> option (@Value Num).

Record Obj : Type := mkObj {
  val : @Value Num;
  frm : string;
  arr : option positive
}.

Record Mem : Type := mkMem {
  arrays : gmap positive (list string);
  fresh : positive
}.

(** The elements of the array at an address. *)
Definition readArr (m : Mem) (l : positive) : list string :=
  default [] (arrays m !! l).

(** A new empty array: its address and the memory that holds it. *)
Definition allocMem (m : Mem) : Mem :=
  mkMem (<[fresh m := []]> (arrays m)) (Pos.succ (fresh m)).

Definition alloc (m : Mem) : positive * Mem := (fresh m, allocMem m).

(** [array.push(x)] *)
Definition push (m : Mem) (l : positive) (x : string) : Mem :=
  mkMem (<[l := readArr m l ++ [x]]> (arrays m)) (fresh m).

(** A cell object read through the memory, and a table of objects read
    through the memory. *)
Definition view (m : Mem) (o : Obj) : @Cell Num :=
  mkCell (val o) (frm o)
    (match arr o with Some l => readArr m l | None => [] end).

Definition tableOf (cells : gmap string Obj) (m : Mem) : gmap string (@Cell Num) :=
  view m <$> cells.

(** [allCells[id]?.dependencies || []] as a reference: the array of the
    cell, a new empty array when there is none. *)
Definition depsOrNew (allCells : gmap string Obj) (m : Mem) (id : string) : positive * Mem :=
  match allCells !! id with
  | Some o =>
      match arr o with
      | Some l => (l, m)
      | None => alloc m
      end
  | None => alloc m
  end.

(** The body of [parents.forEach] (lines 95-98); [None] when line 96 throws
    because the parent object has no dependencies field. *)
Definition addDependentH (startCellId : string) (parent : string)
    (st : gmap string Obj * Mem) : option (gmap string Obj * Mem) :=
  let '(updatedCells, m) := st in
  let '(updatedCells1, m1) :=
    match updatedCells !! parent with
    | Some _ => (updatedCells, m)
    | None =>
        let '(l, m') := alloc m in
        (<[parent := mkObj (VStr "") "" (Some l)]> updatedCells, m')
    end in
  match updatedCells1 !! parent with
  | Some o =>
      match arr o with
      | Some l =>
          if decide (startCellId ∈ readArr m1 l) then Some (updatedCells1, m1)
          else Some (updatedCells1, push m1 l startCellId)
      | None => None
      end
  | None => None
  end.

(** The body of [children.forEach] (lines 103-107). *)
Definition refreshChildH
    (recur : string -> string -> gmap string Obj -> Mem -> option (gmap string Obj * Mem))
    (childId : string) (st : gmap string Obj * Mem) : option (gmap string Obj * Mem) :=
  let '(updatedCells, m) := st in
  match updatedCells !! childId with
  | Some childData =>
      match recur childId (frm childData) updatedCells m with
      | Some (childResult, m') => Some (childResult ∪ updatedCells, m')
      | None => None
      end
  | None => Some (updatedCells, m)
  end.

(** [updateCellAndDependents] on objects and memory.  [forEach] visits the
    elements that the children array has when the loop starts, also if
    the array grows meanwhile. *)
Fixpoint updateCellAndDependentsH (fuel : nat) (startCellId newFormula : string)
    (allCells : gmap string Obj) (m : Mem) : option (gmap string Obj * Mem) :=
  match fuel with
  | 0 => None
  | S fuel' =>
      let parents := parentsOf newFormula in
      match anyM (fun parent =>
                    hasCircularDependency fuel' startCellId parent (tableOf allCells m))
                 parents with
      | None => None
      | Some true =>
          let '(l, m1) := depsOrNew allCells m startCellId in
          Some (<[startCellId := mkObj (VStr "#CIRCULAR") newFormula (Some l)]> allCells, m1)
      | Some false =>
          let computedValue :=
            calculateFormula zero falsy numToString evaluate newFormula (tableOf allCells m) in
          let '(l, m1) := depsOrNew allCells m startCellId in
          let updatedCells := <[startCellId := mkObj computedValue newFormula (Some l)]> allCells in
          match forEachM (addDependentH startCellId) parents (updatedCells, m1) with
          | None => None
          | Some (updatedCells, m2) =>
              let children := readArr m2 l in
              forEachM (refreshChildH (updateCellAndDependentsH fuel')) children
                (updatedCells, m2)
          end
      end
  end.

(** [handleInputChange] on objects: the spread keeps the array of the old
    object, if there is one. *)
Definition handleInputChangeH (cellId text : string)
    (prev : gmap string Obj) : gmap string Obj :=
  <[cellId := mkObj (VStr text) text (prev !! cellId ≫= arr)]> prev.

(** The state of the component: the table shown ([None] for [undefined]),
    the stack of snapshots, the cursor, and the memory that all of them
    share. *)
Record App : Type := mkApp {
  shown : option (gmap string Obj);
  snapshots : list (gmap string Obj);
  cursor : nat;
  memory : Mem
}.

(** [useState({})], [useState([{}])], [useState(0)] (lines 34-39). *)
Definition initialApp : App := mkApp (Some ∅) [∅] 0 (mkMem ∅ 1%positive).

(** What the user does: a committed edit (leaving a cell, after typing into
    it or not), a click on Undo, a click on Redo. *)
Inductive Event : Type :=
  | Committed (e : Edit)
  | UndoClicked
  | RedoClicked.

(** The table that [handleBlur] hands to the engine. *)
Definition tableBeforeH (e : Edit) (cells : gmap string Obj) : gmap string Obj :=
  match e with
  | TypeAndBlur cellId text => handleInputChangeH cellId text cells
  | FocusAndBlur _ => cells
  end.

(** [currentCells[cellId]?.formula || ""] *)
Definition formulaOfH (currentCells : gmap string Obj) (cellId : string) : string :=
  match currentCells !! cellId with
  | Some o => frm o
  | None => ""
  end.

(** The handlers as transitions of the component ([handleInputChange] and
    [handleBlur] at lines 139-156, [saveToHistory], [handleUndo] and
    [handleRedo] at lines 114-134); [None] when a handler does not return. *)
Definition stepApp (fuel : nat) (ev : Event) (a : App) : option App :=
  match ev with
  | Committed e =>
      match shown a with
      | Some cells =>
          let currentCells := tableBeforeH e cells in
          let cellId := editedCell e in
          match updateCellAndDependentsH fuel cellId (formulaOfH currentCells cellId)
                  currentCells (memory a) with
          | Some (finalState, m) =>
              let newHistory := take (cursor a + 1) (snapshots a) ++ [finalState] in
              Some (mkApp (Some finalState) newHistory (length newHistory - 1) m)
          | None => None
          end
      | None => None
      end
  | UndoClicked =>
      if decide (0 < cursor a)
      then Some (mkApp (snapshots a !! (cursor a - 1)) (snapshots a) (cursor a - 1) (memory a))
      else Some a
  | RedoClicked =>
      if decide (cursor a < length (snapshots a) - 1)
      then Some (mkApp (snapshots a !! (cursor a + 1)) (snapshots a) (cursor a + 1) (memory a))
      else Some a
  end.

Definition runApp (fuel : nat) (events : list Event) (a : App) : option App :=
  forEachM (stepApp fuel) events a.

(** Arrays are addressed below the allocation pointer, and no array
    belongs to two cells. *)
Definition wfMem (cells : gmap string Obj) (m : Mem) : Prop :=
  (∀ c o l, cells !! c = Some o → arr o = Some l → (l < fresh m)%positive) ∧
  (∀ c1 c2 o1 o2 l, cells !! c1 = Some o1 → cells !! c2 = Some o2 →
     arr o1 = Some l → arr o2 = Some l → c1 = c2).

(** Every cell object other than that of [x] has a dependencies field. *)
Definition haveArrays (x : option string) (cells : gmap string Obj) : Prop :=
  ∀ c o, Some c ≠ x → cells !! c = Some o → is_Some (arr o).

(** Every cell of [e] is a cell of [e'] with the same array. *)
Definition sameArrays (e e' : gmap string Obj) : Prop :=
  ∀ c o, e !! c = Some o → ∃ o', e' !! c = Some o' ∧ arr o' = arr o.

(** What a call on objects and memory returns: its table is what the call
    on tables returns, the memory stays well formed, every cell has its array
    and the cells that had one kept it. *)
Definition simulates (n : nat) (x f : string) (cells : gmap string Obj) (m : Mem) : Prop :=
  match updateCellAndDependentsH n x f cells m with
  | Some (cells', m') =>
      updateCellAndDependents zero falsy numToString evaluate n x f (tableOf cells m)
        = Some (tableOf cells' m') ∧
      wfMem cells' m' ∧ haveArrays None cells' ∧
      (∀ c o l, cells !! c = Some o → arr o = Some l →
         ∃ o', cells' !! c = Some o' ∧ arr o' = Some l) ∧
      (∀ c, is_Some (cells !! c) → is_Some (cells' !! c))
  | None =>
      updateCellAndDependents zero falsy numToString evaluate n x f (tableOf cells m) = None
  end.

(** What every state of the component satisfies: the cursor points at the
    table shown; each snapshot hands its arrays on to the next; the last
    snapshot is well formed and acyclic in the current memory. *)
Definition appOK (a : App) : Prop :=
  snapshots a !! cursor a = shown a ∧ is_Some (shown a) ∧
  (∀ i e e', snapshots a !! i = Some e → snapshots a !! S i = Some e' → sameArrays e e') ∧
  (∀ e, e ∈ snapshots a → haveArrays None e) ∧
  (∃ e, last (snapshots a) = Some e ∧ wfMem e (memory a) ∧
        acyclic (tableOf e (memory a))).

(** The arrays of [m] are arrays of [m'], with possibly more entries pushed
    at their end. *)
Definition memExtends (m m' : Mem) : Prop :=
  (fresh m ≤ fresh m')%positive ∧
  ∀ l, (l < fresh m)%positive → readArr m l `prefix_of` readArr m' l.

(** The state of the component is well formed, and every snapshot, read
    through the memory, is settled. *)
Definition appSettled (a : App) : Prop :=
  appOK a ∧
  ∀ e, e ∈ snapshots a → settled zero falsy numToString evaluate (tableOf e (memory a)).

End Memory.

(** ** The history manager (lines 114-134)

    The React state of the component: the table shown ([cells], [None] for
    [undefined]), the stack of snapshots and the cursor.  The manager never
    looks inside a snapshot, so the type of snapshots is a parameter. *)
Section History.

Context {A : Type}.

Record HistoryState : Type := mkHistory {
  cells : option A;
  history : list A;
  historyIndex : nat
}.

Definition saveToHistory (newCells : A) (st : HistoryState) : HistoryState :=
  let newHistory := take (historyIndex st + 1) (history st) ++ [newCells] in
  mkHistory (cells st) newHistory (length newHistory - 1).

Definition handleUndo (st : HistoryState) : HistoryState :=
  if decide (0 < historyIndex st)
  then mkHistory (history st !! (historyIndex st - 1)) (history st) (historyIndex st - 1)
  else st.

Definition handleRedo (st : HistoryState) : HistoryState :=
  if decide (historyIndex st < length (history st) - 1)
  then mkHistory (history st !! (historyIndex st + 1)) (history st) (historyIndex st + 1)
  else st.

(** What [handleBlur] does to the state once the engine has returned
    [finalState] (lines 148-155): the snapshot is pushed and shown. *)
Definition commitSnapshot (finalState : A) (st : HistoryState) : HistoryState :=
  let st' := saveToHistory finalState st in
  mkHistory (Some finalState) (history st') (historyIndex st').

(** [useState([{}])] and [useState(0)] (lines 34-39), for an initial table. *)
Definition initialHistory (empty : A) : HistoryState := mkHistory (Some empty) [empty] 0.

End History.

(** ** The toolbar (lines 177-178) *)

(** [disabled={historyIndex === 0}] *)
Definition undoDisabled {A : Type} (st : @HistoryState A) : bool :=
  bool_decide (historyIndex st = 0).

(** [disabled={historyIndex === history.length - 1}]; the subtraction is that
    of JS numbers. *)
Definition redoDisabled {A : Type} (st : @HistoryState A) : bool :=
  bool_decide (Z.of_nat (historyIndex st) = (Z.of_nat (length (history st)) - 1)%Z).

(** The cursor points into the history, and the table shown is the entry
    under the cursor. *)
Definition validHistory {A : Type} (st : @HistoryState A) : Prop :=
  historyIndex st < length (history st) ∧
  cells st = history st !! historyIndex st.

(** What the user does to the history: a commit of a snapshot, a click on
    Undo, a click on Redo. *)
Inductive HistoryEvent (A : Type) : Type :=
  | DoCommit (finalState : A)
  | DoUndo
  | DoRedo.
Arguments DoCommit {A} finalState.
Arguments DoUndo {A}.
Arguments DoRedo {A}.

Definition stepHistory {A : Type} (st : @HistoryState A) (ev : HistoryEvent A) : HistoryState :=
  match ev with
  | DoCommit finalState => commitSnapshot finalState st
  | DoUndo => handleUndo st
  | DoRedo => handleRedo st
  end.

Definition runHistory {A : Type} (evs : list (HistoryEvent A)) (st : @HistoryState A) : HistoryState :=
  foldl stepHistory st evs.

(** ** The grid (lines 30-31, 163-170 and 195) *)

(** [String.fromCharCode(n)] for a code below 128. *)
Definition fromCharCode (n : nat) : string := String (ascii_of_nat n) EmptyString.

(** The initial column headers and row numbers (lines 30-31). *)
Definition initialCols : list string := ["A"; "B"; "C"; "D"; "E"; "F"; "G"; "H"; "I"; "J"].
Definition initialRows : list nat := [1; 2; 3; 4; 5; 6; 7; 8; 9; 10].

(** [[...cols, String.fromCharCode(65 + cols.length)]] *)
Definition addColumn (cols : list string) : list string :=
  cols ++ [fromCharCode (65 + length cols)].

(** [[...rows, rows.length + 1]] *)
Definition addRow (rows : list nat) : list nat :=
  rows ++ [length rows + 1].

(** The template literal of line 195: the header followed by the row number
    in decimal. *)
Definition cellIdOf (col : string) (row : nat) : string := col +:+ pretty row.

Record Grid : Type := mkGrid {
  cols : list string;
  rows : list nat
}.

Definition initialGrid : Grid := mkGrid initialCols initialRows.

Inductive GridEvent : Type :=
  | AddColumn
  | AddRow.

Definition stepGrid (g : Grid) (ev : GridEvent) : Grid :=
  match ev with
  | AddColumn => mkGrid (addColumn (cols g)) (rows g)
  | AddRow => mkGrid (cols g) (addRow (rows g))
  end.

Definition runGrid (evs : list GridEvent) (g : Grid) : Grid := foldl stepGrid g evs.

(** The cell ids of the grid in the order in which they are rendered
    (lines 191-195): row by row, and column by column in a row. *)
Definition gridIds (g : Grid) : list string :=
  row ← rows g; col ← cols g; [cellIdOf col row].

(** The header of column [i] is the character with code [65 + i], and row
    [i] has the number [i + 1]. *)
Definition gridOK (g : Grid) : Prop :=
  (∀ i col, cols g !! i = Some col → col = fromCharCode (65 + i)) ∧
  (∀ i row, rows g !! i = Some row → row = i + 1).

(** The history state of the component. *)
Definition historyOf {Num : Type} (a : @App Num) : HistoryState :=
  mkHistory (shown a) (snapshots a) (cursor a).

(** ** A small evaluator for examples

    Numbers are integers; the evaluator accepts sums of decimal literals and
    throws on everything else. *)
Module Demo.

Definition digitOf (c : ascii) : Z := Z.of_nat (nat_of_ascii c - 48).

(** The sum read so far and the literal being read, if any. *)
Fixpoint sumLiterals (e : string) (total : Z) (cur : option Z) : option Z :=
  match e with
  | EmptyString => match cur with Some n => Some (total + n)%Z | None => None end
  | String c r =>
      if isDigit c then sumLiterals r total (Some (10 * default 0%Z cur + digitOf c)%Z)
      else if Ascii.eqb c "+"%char then
        match cur with
        | Some n => sumLiterals r (total + n)%Z None
        | None => None
        end
      else None
  end.

Definition evaluate (e : string) : option (@Value Z) :=
  VNum <$> sumLiterals e 0%Z None.

Definition falsy (n : Z) : bool := Z.eqb n 0.

Definition numToString (n : Z) : string := pretty n.

Definition update := updateCellAndDependents 0%Z falsy numToString evaluate.

Definition run := runEdits 0%Z falsy numToString evaluate.

Definition commit := applyEdit 0%Z falsy numToString evaluate.

Definition runApp := runApp 0%Z falsy numToString evaluate.

(** The table after A1 = 5 and B1 = "=A1+1". *)
Definition sheet1 : gmap string (@Cell Z) :=
  {[ "A1" := mkCell (VStr "5") "5" ["B1"];
     "B1" := mkCell (VNum 6%Z) "=A1+1" [] ]}.

(** The table after A1 = "=1+", which the evaluator rejects. *)
Definition sheet2 : gmap string (@Cell Z) :=
  {[ "A1" := mkCell (VStr "#ERROR") "=1+" [] ]}.


(** The table after A1 = "=B1" on the empty table. *)
Definition sheet5 : gmap string (@Cell Z) :=
  {[ "A1" := mkCell (VNum 0%Z) "=B1" [];
     "B1" := mkCell (VStr "") "" ["A1"] ]}.

(** The table after A1 = "=B1" and then A1 = 5: no formula references B1,
    and A1 is still a dependent of B1. *)
Definition sheet6 : gmap string (@Cell Z) :=
  {[ "A1" := mkCell (VStr "5") "5" [];
     "B1" := mkCell (VStr "") "" ["A1"] ]}.

(** The tables after A1 = 5, B1 = "=A1+1", C1 = "=A1+2", and after the same
    edits with the last two in the other order. *)
Definition sheet7 : gmap string (@Cell Z) :=
  {[ "A1" := mkCell (VStr "5") "5" ["B1"; "C1"];
     "B1" := mkCell (VNum 6%Z) "=A1+1" [];
     "C1" := mkCell (VNum 7%Z) "=A1+2" [] ]}.

Definition sheet8 : gmap string (@Cell Z) :=
  {[ "A1" := mkCell (VStr "5") "5" ["C1"; "B1"];
     "B1" := mkCell (VNum 6%Z) "=A1+1" [];
     "C1" := mkCell (VNum 7%Z) "=A1+2" [] ]}.

(** A table with a cycle: A1 is a dependent of itself. *)
Definition loop : gmap string (@Cell Z) :=
  {[ "A1" := mkCell (VStr "") "" ["A1"] ]}.

End Demo.

(** * Properties of the loops *)

Lemma anyM_true {A} (f : A → option bool) (l : list A) :
  anyM f l = Some true → ∃ a, a ∈ l ∧ f a = Some true.
Proof.
  induction l as [|a l IH]; simpl; [done|].
  destruct (f a) as [[]|] eqn:Hfa; [| |done].
  - intros _. exists a. split; [left|done].
  - intros (a' & Hin & Ha')%IH. exists a'. split; [by right|done].
Qed.

Lemma anyM_false {A} (f : A → option bool) (l : list A) :
  anyM f l = Some false → ∀ a, a ∈ l → f a = Some false.
Proof.
  induction l as [|a l IH]; simpl; intros Hl a' Hin.
  - by apply elem_of_nil in Hin.
  - destruct (f a) as [[]|] eqn:Hfa; try done.
    apply elem_of_cons in Hin as [->|Hin]; auto.
Qed.

Lemma anyM_is_Some {A} (f : A → option bool) (l : list A) :
  (∀ a, a ∈ l → is_Some (f a)) → is_Some (anyM f l).
Proof.
  induction l as [|a l IH]; simpl; intros Hl; [by eexists|].
  destruct (Hl a) as [[] ->]; [left| by eexists |].
  apply IH. intros a' Hin. apply Hl. by right.
Qed.

Lemma anyM_mono {A} (f g : A → option bool) (l : list A) (b : bool) :
  (∀ a b', a ∈ l → f a = Some b' → g a = Some b') →
  anyM f l = Some b → anyM g l = Some b.
Proof.
  induction l as [|a l IH]; simpl; intros Hfg; [done|].
  destruct (f a) as [[]|] eqn:Hfa; [| |done].
  - rewrite (Hfg a true); [done|left|done].
  - rewrite (Hfg a false); [|left|done].
    apply IH. intros a' b' Hin. apply Hfg. by right.
Qed.

Lemma anyM_all_false {A} (f : A → option bool) (l : list A) :
  (∀ a, a ∈ l → f a = Some false) → anyM f l = Some false.
Proof.
  induction l as [|a l IH]; simpl; intros Hl; [done|].
  rewrite Hl; [|left]. apply IH. intros a' Hin. apply Hl. by right.
Qed.

Lemma anyM_some_true {A} (f : A → option bool) (l : list A) (a : A) :
  (∀ a', a' ∈ l → is_Some (f a')) → a ∈ l → f a = Some true →
  anyM f l = Some true.
Proof.
  intros Hall Hin Hfa.
  destruct (anyM_is_Some f l Hall) as [[] Hb]; [done|].
  rewrite (anyM_false f l Hb a Hin) in Hfa. done.
Qed.

Lemma forEachM_mono {A S} (f g : A → S → option S) (l : list A) (s s' : S) :
  (∀ a t t', a ∈ l → f a t = Some t' → g a t = Some t') →
  forEachM f l s = Some s' → forEachM g l s = Some s'.
Proof.
  revert s. induction l as [|a l IH]; simpl; intros s Hfg; [done|].
  destruct (f a s) as [t|] eqn:Hfa; [|done].
  rewrite (Hfg a s t); [|left|done].
  apply IH. intros a' u u' Hin. apply Hfg. by right.
Qed.

(** * Adding edges into one node of an acyclic graph *)

Section AddedEdges.

Context {A : Type} (E : relation A) (P : A → Prop) (x : A).

Local Abbreviation E' := (addedEdges E P x).


Lemma rtc_addedEdges a b :
  rtc E' a b → rtc E a b ∨ ∃ q, P q ∧ rtc E a q.
Proof.
  induction 1 as [a|a c b [Hac|[Ha ->]] _ IH].
  - left. apply rtc_refl.
  - destruct IH as [IH|(q & Hq & IH)].
    + left. by eapply rtc_l.
    + right. exists q. split; [done|]. by eapply rtc_l.
  - right. exists a. split; [done|apply rtc_refl].
Qed.

Lemma tc_addedEdges a b :
  tc E' a b →
  tc E a b ∨ ∃ p, P p ∧ rtc E' a p ∧ rtc E' x b.
Proof.
  induction 1 as [a b [Hab|[Ha ->]]|a c b [Hac|[Ha ->]] Hcb IH].
  - left. by apply tc_once.
  - right. exists a. split; [done|]. split; apply rtc_refl.
  - destruct IH as [IH|(p & Hp & Hcp & Hxb)].
    + left. by eapply tc_l.
    + right. exists p. split; [done|]. split; [|done].
      eapply rtc_l; [|exact Hcp]. by left.
  - right. exists a. split; [done|]. split; [apply rtc_refl|by apply tc_rtc].
Qed.

Lemma acyclic_addedEdges :
  (∀ a, ¬ tc E a a) → (∀ p, P p → ¬ rtc E x p) → ∀ a, ¬ tc E' a a.
Proof.
  intros Hacyc Hno a [Hold|(p & Hp & Hap & Hxa)]%tc_addedEdges.
  - by eapply Hacyc.
  - assert (rtc E' x p) as Hxp by (by etrans).
    apply rtc_addedEdges in Hxp as [Hxp|(q & Hq & Hxq)]; by eapply Hno.
Qed.

End AddedEdges.

(** * Properties of the engine *)

Section EngineFacts.

Context {Num : Type} (zero : Num) (falsy : Num → bool) (numToString : Num → string).
Context (evaluate : string → option (@Value Num)).

Local Abbreviation calc := (calculateFormula zero falsy numToString evaluate).
Local Abbreviation plan := (formulaPlan zero falsy numToString).
Local Abbreviation link := (linkParents zero falsy numToString evaluate).
Local Abbreviation update := (updateCellAndDependents zero falsy numToString evaluate).
Local Abbreviation Upd := (Update zero falsy numToString evaluate).
Local Abbreviation Refr := (Refresh zero falsy numToString evaluate).

Implicit Types s u : gmap string (@Cell Num).
Implicit Types x c d p a : string.

(** ** The cycle detector *)

Lemma hasCircularDependency_true n a t s :
  hasCircularDependency n a t s = Some true → reach s a t.
Proof.
  revert a. induction n as [|n IH]; simpl; intros a; [done|].
  case_decide as Heq; [intros _; subst; apply rtc_refl|].
  intros (d & Hin & Hd)%anyM_true.
  eapply rtc_l; [exact Hin|]. by apply IH.
Qed.

Lemma hasCircularDependency_false n a t s :
  hasCircularDependency n a t s = Some false → ¬ reach s a t.
Proof.
  revert a. induction n as [|n IH]; simpl; intros a; [done|].
  case_decide as Heq; [done|].
  intros Hall [->|(d & Hin & Hd)]%rtc_inv; [done|].
  eapply IH; [|exact Hd]. eapply anyM_false in Hall; [exact Hall|exact Hin].
Qed.

Lemma hasCircularDependency_mono n m a t s b :
  n ≤ m → hasCircularDependency n a t s = Some b →
  hasCircularDependency m a t s = Some b.
Proof.
  revert m a b. induction n as [|n IH]; intros m a b Hle; simpl; [done|].
  destruct m as [|m]; [lia|]. simpl.
  case_decide; [done|].
  apply anyM_mono. intros d b' _. apply IH. lia.
Qed.

(** ** Reading the cell table *)

Lemma depsOf_insert s c cd a :
  depsOf (<[c := cd]> s) a = if decide (a = c) then dependencies cd else depsOf s a.
Proof.
  unfold depsOf. case_decide as Heq.
  - subst. by rewrite lookup_insert_eq.
  - by rewrite lookup_insert_ne.
Qed.

Lemma cellOr_insert s c cd a :
  cellOr (<[c := cd]> s) a = if decide (a = c) then cd else cellOr s a.
Proof.
  unfold cellOr. case_decide as Heq.
  - subst. by rewrite lookup_insert_eq.
  - by rewrite lookup_insert_ne.
Qed.

Lemma depsOf_cellOr s c : depsOf s c = dependencies (cellOr s c).
Proof. unfold depsOf, cellOr. by destruct (s !! c). Qed.

Lemma cellOr_Some s c cd : s !! c = Some cd → cellOr s c = cd.
Proof. unfold cellOr. by intros ->. Qed.

Lemma cellOr_None s c : s !! c = None → cellOr s c = emptyCell.
Proof. unfold cellOr. by intros ->. Qed.

Lemma edge_lookup s a b : edge s a b → is_Some (s !! a).
Proof.
  unfold edge, depsOf. destruct (s !! a); [by eexists|].
  by intros ?%elem_of_nil.
Qed.

Lemma parentsOf_empty : parentsOf "" = [].
Proof. reflexivity. Qed.

(** ** One parent gets its dependent (lines 95-98) *)

Lemma addDependent_lookup x u p c :
  addDependent x u p !! c =
    if decide (c = p) then
      Some (if decide (x ∈ depsOf u p) then cellOr u p
            else mkCell (value (cellOr u p)) (formula (cellOr u p)) (depsOf u p ++ [x]))
    else u !! c.
Proof.
  unfold addDependent, depsOf, cellOr.
  destruct (u !! p) as [cd|] eqn:Hp; simpl.
  - rewrite Hp. destruct (decide (x ∈ dependencies cd)) as [Hx|Hx].
    + case_decide; by subst.
    + rewrite lookup_insert. case_decide; subst.
      * by rewrite decide_True.
      * by rewrite decide_False.
  - rewrite lookup_insert_eq. simpl.
    rewrite lookup_insert. case_decide as Hc; subst.
    + by rewrite decide_True.
    + rewrite decide_False by done. by rewrite lookup_insert_ne.
Qed.

Lemma addDependent_cellOr x u p c :
  cellOr (addDependent x u p) c =
    if decide (c = p) then
      if decide (x ∈ depsOf u p) then cellOr u p
      else mkCell (value (cellOr u p)) (formula (cellOr u p)) (depsOf u p ++ [x])
    else cellOr u c.
Proof.
  unfold cellOr at 1. rewrite addDependent_lookup. by case_decide.
Qed.

Lemma addDependent_depsOf x u p c :
  depsOf (addDependent x u p) c =
    if decide (c = p) then
      if decide (x ∈ depsOf u p) then depsOf u p else depsOf u p ++ [x]
    else depsOf u c.
Proof.
  rewrite (depsOf_cellOr (addDependent x u p)), addDependent_cellOr.
  repeat case_decide; simpl; try done; by rewrite ?depsOf_cellOr.
Qed.

Lemma addDependent_value x u p c :
  value (cellOr (addDependent x u p) c) = value (cellOr u c).
Proof. rewrite addDependent_cellOr. repeat case_decide; by subst. Qed.

Lemma addDependent_formula x u p c :
  formula (cellOr (addDependent x u p) c) = formula (cellOr u c).
Proof. rewrite addDependent_cellOr. repeat case_decide; by subst. Qed.

Lemma addDependent_elem x u p c d :
  d ∈ depsOf (addDependent x u p) c ↔ d ∈ depsOf u c ∨ (c = p ∧ d = x).
Proof.
  rewrite addDependent_depsOf. repeat case_decide; subst.
  - split; [by left|]. intros [?|[_ ->]]; done.
  - rewrite elem_of_app, list_elem_of_singleton. naive_solver.
  - naive_solver.
Qed.

Lemma addDependent_prefix x u p c :
  depsOf u c `prefix_of` depsOf (addDependent x u p) c.
Proof.
  rewrite addDependent_depsOf. repeat case_decide; subst; try done.
  by apply prefix_app_r.
Qed.

Lemma addDependent_is_Some x u p c :
  is_Some (addDependent x u p !! c) ↔ is_Some (u !! c) ∨ c = p.
Proof.
  rewrite addDependent_lookup. case_decide; subst.
  - split; [by right|by eexists].
  - naive_solver.
Qed.

(** ** All parents get their dependent (lines 94-99) *)

Lemma addDependents_elem x ps u c d :
  d ∈ depsOf (foldl (addDependent x) u ps) c ↔ d ∈ depsOf u c ∨ (c ∈ ps ∧ d = x).
Proof.
  revert u. induction ps as [|p ps IH]; intros u; simpl.
  - split; [by left|]. intros [?|[?%elem_of_nil _]]; done.
  - rewrite IH, addDependent_elem, elem_of_cons. naive_solver.
Qed.

Lemma addDependents_prefix x ps u c :
  depsOf u c `prefix_of` depsOf (foldl (addDependent x) u ps) c.
Proof.
  revert u. induction ps as [|p ps IH]; intros u; simpl; [done|].
  etrans; [apply (addDependent_prefix x u p c)|apply IH].
Qed.

Lemma addDependents_value x ps u c :
  value (cellOr (foldl (addDependent x) u ps) c) = value (cellOr u c).
Proof.
  revert u. induction ps as [|p ps IH]; intros u; simpl; [done|].
  by rewrite IH, addDependent_value.
Qed.

Lemma addDependents_formula x ps u c :
  formula (cellOr (foldl (addDependent x) u ps) c) = formula (cellOr u c).
Proof.
  revert u. induction ps as [|p ps IH]; intros u; simpl; [done|].
  by rewrite IH, addDependent_formula.
Qed.

Lemma addDependents_lookup_other x ps u c :
  c ∉ ps → foldl (addDependent x) u ps !! c = u !! c.
Proof.
  revert u. induction ps as [|p ps IH]; intros u Hc; simpl; [done|].
  apply not_elem_of_cons in Hc as [Hne Hc].
  rewrite IH by done. rewrite addDependent_lookup. by rewrite decide_False.
Qed.

Lemma addDependents_is_Some x ps u c :
  is_Some (foldl (addDependent x) u ps !! c) ↔ is_Some (u !! c) ∨ c ∈ ps.
Proof.
  revert u. induction ps as [|p ps IH]; intros u; simpl.
  - split; [by left|]. intros [?|?%elem_of_nil]; done.
  - rewrite IH, addDependent_is_Some, elem_of_cons. naive_solver.
Qed.

(** ** The table after lines 83-99 *)

Lemma linkParents_elem x f s c d :
  d ∈ depsOf (link x f s) c ↔ d ∈ depsOf s c ∨ (c ∈ parentsOf f ∧ d = x).
Proof.
  unfold linkParents. rewrite addDependents_elem, depsOf_insert.
  case_decide; by subst.
Qed.

Lemma linkParents_edge x f s a b :
  edge (link x f s) a b ↔ edge s a b ∨ (a ∈ parentsOf f ∧ b = x).
Proof. apply linkParents_elem. Qed.

Lemma linkParents_prefix x f s c :
  depsOf s c `prefix_of` depsOf (link x f s) c.
Proof.
  unfold linkParents.
  etrans; [|apply addDependents_prefix].
  rewrite depsOf_insert. case_decide; by subst.
Qed.

Lemma linkParents_value_other x f s c :
  c ≠ x → valueAt (link x f s) c = valueAt s c.
Proof.
  intros Hne. unfold valueAt, linkParents.
  rewrite addDependents_value, cellOr_insert. by rewrite decide_False.
Qed.

Lemma linkParents_formula_other x f s c :
  c ≠ x → formulaAt (link x f s) c = formulaAt s c.
Proof.
  intros Hne. unfold formulaAt, linkParents.
  rewrite addDependents_formula, cellOr_insert. by rewrite decide_False.
Qed.

Lemma linkParents_value x f s : valueAt (link x f s) x = calc f s.
Proof.
  unfold valueAt, linkParents.
  rewrite addDependents_value, cellOr_insert. by rewrite decide_True.
Qed.

Lemma linkParents_formula x f s : formulaAt (link x f s) x = f.
Proof.
  unfold formulaAt, linkParents.
  rewrite addDependents_formula, cellOr_insert. by rewrite decide_True.
Qed.

Lemma linkParents_lookup_other x f s c :
  c ≠ x → c ∉ parentsOf f → link x f s !! c = s !! c.
Proof.
  intros Hne Hc. unfold linkParents.
  rewrite addDependents_lookup_other by done. by rewrite lookup_insert_ne.
Qed.

Lemma linkParents_is_Some x f s c :
  is_Some (link x f s !! c) ↔ is_Some (s !! c) ∨ c = x ∨ c ∈ parentsOf f.
Proof.
  unfold linkParents. rewrite addDependents_is_Some.
  destruct (decide (c = x)) as [->|Hne].
  - rewrite lookup_insert_eq. split; [by right; left|by left; eexists].
  - rewrite lookup_insert_ne by done. naive_solver.
Qed.

(** ** The table returned by the cycle check (lines 76-79) *)

Lemma circularSnapshot_depsOf x f s c :
  depsOf (circularSnapshot x f s) c = depsOf s c.
Proof.
  unfold circularSnapshot. rewrite depsOf_insert. case_decide; by subst.
Qed.

Lemma circularSnapshot_lookup x f s :
  circularSnapshot x f s !! x = Some (mkCell (VStr "#CIRCULAR") f (depsOf s x)).
Proof. unfold circularSnapshot. by rewrite lookup_insert_eq. Qed.

Lemma circularSnapshot_lookup_other x f s c :
  c ≠ x → circularSnapshot x f s !! c = s !! c.
Proof. intros Hne. unfold circularSnapshot. by rewrite lookup_insert_ne. Qed.

Lemma circularSnapshot_edge x f s a b :
  edge (circularSnapshot x f s) a b ↔ edge s a b.
Proof. unfold edge. by rewrite circularSnapshot_depsOf. Qed.

(** ** Graphs of cell tables *)

Lemma acyclic_subgraph s s' :
  (∀ a b, edge s' a b → edge s a b) → acyclic s → acyclic s'.
Proof.
  intros Hsub Hacyc a Ha. apply (Hacyc a).
  by apply (tc_congruence id (edge s)) in Ha.
Qed.

Lemma tc_subgraph s s' a b :
  (∀ a b, edge s a b → edge s' a b) → tc (edge s) a b → tc (edge s') a b.
Proof. intros Hsub. by apply (tc_congruence id (edge s')). Qed.

Lemma reach_subgraph s s' a b :
  (∀ a b, edge s a b → edge s' a b) → reach s a b → reach s' a b.
Proof. intros Hsub. by apply rtc_subrel. Qed.

Lemma acyclic_empty : acyclic (∅ : gmap string (@Cell Num)).
Proof.
  intros a Ha. apply tc_rtc_r with (z := a) in Ha; [|apply rtc_refl].
  inversion Ha as [? ? Hedge|? ? ? Hedge _]; subst;
    apply edge_lookup in Hedge as [? Hl]; by rewrite lookup_empty in Hl.
Qed.


Lemma acyclic_circularSnapshot x f s :
  acyclic s → acyclic (circularSnapshot x f s).
Proof. apply acyclic_subgraph. intros a b. by rewrite circularSnapshot_edge. Qed.

(** The cycle check is what keeps the graph acyclic when the parents of the
    edited cell get their new dependent. *)
Lemma acyclic_linkParents x f s :
  acyclic s → (∀ p, p ∈ parentsOf f → ¬ reach s x p) → acyclic (link x f s).
Proof.
  intros Hacyc Hno a Ha.
  apply (acyclic_addedEdges (edge s) (λ p, p ∈ parentsOf f) x Hacyc Hno a).
  eapply (tc_congruence id); [|exact Ha].
  intros a' b' Hedge. by apply linkParents_edge in Hedge.
Qed.

(** Conversely, a reachable parent closes a cycle. *)
Lemma cyclic_linkParents x f s p :
  p ∈ parentsOf f → reach s x p → ¬ acyclic (link x f s).
Proof.
  intros Hp Hxp Hacyc. apply (Hacyc x).
  eapply tc_rtc_l.
  - eapply reach_subgraph; [|exact Hxp].
    intros a b Hab. apply linkParents_edge. by left.
  - apply tc_once. apply linkParents_edge. by right.
Qed.

(** ** From the function to the relation *)

Lemma spread_id s s1 :
  (∀ c, is_Some (s !! c) → is_Some (s1 !! c)) → spread s s1 = s1.
Proof.
  intros Hdom. apply map_eq. intros c. unfold spread.
  destruct (s1 !! c) as [cd|] eqn:Hc.
  - by apply lookup_union_Some_l.
  - apply lookup_union_None. split; [done|].
    destruct (s !! c) eqn:Hs; [|done].
    destruct (Hdom c) as [? Hc']; [by eexists|congruence].
Qed.

Lemma updateCellAndDependents_dom n x f s s' c :
  update n x f s = Some s' → is_Some (s !! c) → is_Some (s' !! c).
Proof.
  revert x f s s'. induction n as [|n IH]; intros x f s s'; simpl; [done|].
  destruct (anyM _ _) as [[]|]; [| |done].
  - intros [= <-] Hc. unfold circularSnapshot.
    rewrite lookup_insert. case_decide; [by eexists|done].
  - intros Hloop Hc.
    assert (is_Some (link x f s !! c)) as Hc' by (apply linkParents_is_Some; by left).
    revert Hloop Hc'. generalize (depsOf (link x f s) x) as l.
    generalize (link x f s) as u. intros u l. revert u.
    induction l as [|d l IHl]; simpl; intros u; [by intros [= <-]|].
    unfold refreshChild at 1.
    destruct (u !! d) as [cd|] eqn:Hd; [|by apply IHl].
    destruct (update n d (formula cd) u) as [s1|] eqn:Hs1; [|done].
    intros Hloop Hc'. eapply IHl; [exact Hloop|].
    unfold spread. apply lookup_union_is_Some. by right.
Qed.

Lemma updateCellAndDependents_Update n x f s s' :
  update n x f s = Some s' → Upd x f s s'.
Proof.
  revert x f s s'. induction n as [|n IH]; intros x f s s'; simpl; [done|].
  destruct (anyM _ _) as [[]|] eqn:Hcheck; [| |done].
  - intros [= <-]. apply Update_circular.
    apply anyM_true in Hcheck as (p & Hp & Hcirc).
    exists p. split; [done|]. by eapply hasCircularDependency_true.
  - intros Hloop. apply Update_ok.
    + intros p Hp. eapply hasCircularDependency_false.
      by eapply anyM_false in Hcheck.
    + revert Hloop. generalize (depsOf (link x f s) x) as l.
      generalize (link x f s) as u. intros u l. revert u.
      induction l as [|d l IHl]; simpl; intros u.
      * intros [= <-]. apply Refresh_nil.
      * unfold refreshChild at 1.
        destruct (u !! d) as [cd|] eqn:Hd.
        -- destruct (update n d (formula cd) u) as [s1|] eqn:Hs1; [|done].
           rewrite spread_id by (intros c; by eapply updateCellAndDependents_dom).
           intros Hloop. eapply Refresh_step; eauto.
        -- intros Hloop. apply Refresh_skip; auto.
Qed.

Lemma updateCellAndDependents_mono n m x f s s' :
  n ≤ m → update n x f s = Some s' → update m x f s = Some s'.
Proof.
  revert m x f s s'. induction n as [|n IH]; intros m x f s s' Hle; simpl; [done|].
  destruct m as [|m]; [lia|]. simpl.
  destruct (anyM _ _) as [r|] eqn:Hcheck; [|done].
  assert (anyM (λ parent, hasCircularDependency m x parent s) (parentsOf f) = Some r)
    as ->.
  { eapply anyM_mono; [|exact Hcheck].
    intros p r' _. apply hasCircularDependency_mono. lia. }
  destruct r; [done|].
  apply forEachM_mono. intros d u u' _. unfold refreshChild.
  destruct (u !! d) as [cd|]; [|done].
  destruct (update n d (formula cd) u) as [s1|] eqn:Hs1; [|done].
  erewrite IH; [done|lia|exact Hs1].
Qed.

(** ** What every run preserves *)

Lemma extends_refl s : extends s s.
Proof. split; [intros c; reflexivity|auto]. Qed.

Lemma extends_trans s1 s2 s3 : extends s1 s2 → extends s2 s3 → extends s1 s3.
Proof.
  intros [Hp1 Hd1] [Hp2 Hd2]. split; [|auto].
  intros c. etrans; [apply Hp1|apply Hp2].
Qed.

Lemma extends_edge s s' a b : extends s s' → edge s a b → edge s' a b.
Proof. intros [Hp _]. unfold edge. intros Hb. eapply elem_of_prefix; [exact Hb|apply Hp]. Qed.

Lemma extends_circularSnapshot x f s : extends s (circularSnapshot x f s).
Proof.
  split.
  - intros c. by rewrite circularSnapshot_depsOf.
  - intros c Hc. unfold circularSnapshot. rewrite lookup_insert.
    case_decide; [by eexists|done].
Qed.

Lemma extends_linkParents x f s : extends s (link x f s).
Proof.
  split; [intros c; apply linkParents_prefix|].
  intros c Hc. apply linkParents_is_Some. by left.
Qed.

Lemma Update_Refresh_extends :
  (∀ x f s s', Upd x f s s' → extends s s') ∧
  (∀ l s s', Refr l s s' → extends s s').
Proof.
  apply Update_Refresh_ind.
  - intros x f s _. apply extends_circularSnapshot.
  - intros x f s s' _ _ IH. eapply extends_trans; [apply extends_linkParents|exact IH].
  - intros s. apply extends_refl.
  - auto.
  - intros c cd l s s1 s' _ _ IH1 _ IH2. by eapply extends_trans.
Qed.

Lemma Update_extends x f s s' : Upd x f s s' → extends s s'.
Proof. apply Update_Refresh_extends. Qed.

Lemma Refresh_extends l s s' : Refr l s s' → extends s s'.
Proof. apply Update_Refresh_extends. Qed.

Lemma formulaAt_Some s c cd : s !! c = Some cd → formulaAt s c = formula cd.
Proof. unfold formulaAt. by intros ->%cellOr_Some. Qed.

Lemma valueAt_Some s c cd : s !! c = Some cd → valueAt s c = value cd.
Proof. unfold valueAt. by intros ->%cellOr_Some. Qed.

Lemma formulaAt_None s c : s !! c = None → formulaAt s c = "".
Proof. unfold formulaAt. by intros ->%cellOr_None. Qed.

Lemma valueAt_None s c : s !! c = None → valueAt s c = VStr "".
Proof. unfold valueAt. by intros ->%cellOr_None. Qed.

Lemma circularSnapshot_formulaAt x f s c :
  formulaAt (circularSnapshot x f s) c = if decide (c = x) then f else formulaAt s c.
Proof.
  unfold formulaAt, circularSnapshot. rewrite cellOr_insert. by case_decide.
Qed.

Lemma circularSnapshot_valueAt x f s c :
  valueAt (circularSnapshot x f s) c =
    if decide (c = x) then VStr "#CIRCULAR" else valueAt s c.
Proof.
  unfold valueAt, circularSnapshot. rewrite cellOr_insert. by case_decide.
Qed.

(** The stored formulas: the edited cell gets the new one, every other cell
    keeps its own (a cell that did not exist has the empty formula). *)
Lemma Update_Refresh_formula :
  (∀ x f s s', Upd x f s s' →
     formulaAt s' x = f ∧ ∀ c, c ≠ x → formulaAt s' c = formulaAt s c) ∧
  (∀ l s s', Refr l s s' → ∀ c, formulaAt s' c = formulaAt s c).
Proof.
  apply Update_Refresh_ind.
  - intros x f s _. split.
    + rewrite circularSnapshot_formulaAt. by rewrite decide_True.
    + intros c Hc. rewrite circularSnapshot_formulaAt. by rewrite decide_False.
  - intros x f s s' _ _ IH. split.
    + by rewrite IH, linkParents_formula.
    + intros c Hc. by rewrite IH, linkParents_formula_other.
  - done.
  - auto.
  - intros c cd l s s1 s' Hc _ [IHx IHo] _ IH2 c'. rewrite IH2.
    destruct (decide (c' = c)) as [->|Hne]; [|by apply IHo].
    by rewrite IHx, (formulaAt_Some _ _ _ Hc).
Qed.

Lemma Update_formula x f s s' : Upd x f s s' → formulaAt s' x = f.
Proof. intros H. by apply Update_Refresh_formula in H as [? _]. Qed.

Lemma Update_formula_other x f s s' c :
  Upd x f s s' → c ≠ x → formulaAt s' c = formulaAt s c.
Proof. intros H. apply Update_Refresh_formula in H as [_ H]. apply H. Qed.

Lemma Refresh_formula l s s' c : Refr l s s' → formulaAt s' c = formulaAt s c.
Proof. intros H. by eapply (proj2 Update_Refresh_formula). Qed.

(** Acyclicity is preserved by every run. *)
Lemma Update_Refresh_acyclic :
  (∀ x f s s', Upd x f s s' → acyclic s → acyclic s') ∧
  (∀ l s s', Refr l s s' → acyclic s → acyclic s').
Proof.
  apply Update_Refresh_ind.
  - intros x f s _. apply acyclic_circularSnapshot.
  - intros x f s s' Hno _ IH Hacyc. apply IH. by apply acyclic_linkParents.
  - done.
  - auto.
  - auto.
Qed.

Lemma Update_acyclic x f s s' : Upd x f s s' → acyclic s → acyclic s'.
Proof. apply Update_Refresh_acyclic. Qed.

Lemma Refresh_acyclic l s s' : Refr l s s' → acyclic s → acyclic s'.
Proof. apply Update_Refresh_acyclic. Qed.

(** ** Termination on acyclic tables

    The calls on the stack form a path of the dependents graph, which has no
    repeated node when the graph is acyclic; so the depth of the recursion is
    bounded by the number of cell ids in sight. *)

Lemma closedIn_circularSnapshot U x f s :
  x ∈ U → (∀ p, p ∈ parentsOf f → p ∈ U) →
  closedIn U s → closedIn U (circularSnapshot x f s).
Proof.
  intros Hx Hf (Hk & He & Hp). split; [|split].
  - intros c. unfold circularSnapshot. rewrite lookup_insert.
    case_decide; subst; auto.
  - intros a b ?%circularSnapshot_edge. eauto.
  - intros c p. rewrite circularSnapshot_formulaAt. case_decide; eauto.
Qed.

Lemma closedIn_linkParents U x f s :
  x ∈ U → (∀ p, p ∈ parentsOf f → p ∈ U) →
  closedIn U s → closedIn U (link x f s).
Proof.
  intros Hx Hf (Hk & He & Hp). split; [|split].
  - intros c [?|[->|?]]%linkParents_is_Some; auto.
  - intros a b [?|[_ ->]]%linkParents_edge; eauto.
  - intros c p. destruct (decide (c = x)) as [->|Hne].
    + rewrite linkParents_formula. auto.
    + rewrite linkParents_formula_other by done. eauto.
Qed.

Lemma Update_Refresh_closedIn U :
  (∀ x f s s', Upd x f s s' →
     x ∈ U → (∀ p, p ∈ parentsOf f → p ∈ U) → closedIn U s → closedIn U s') ∧
  (∀ l s s', Refr l s s' →
     (∀ d, d ∈ l → d ∈ U) → closedIn U s → closedIn U s').
Proof.
  apply Update_Refresh_ind.
  - intros x f s _. apply closedIn_circularSnapshot.
  - intros x f s s' _ _ IH Hx Hf Hcl.
    pose proof (closedIn_linkParents U x f s Hx Hf Hcl) as Hcl'.
    apply IH; [|done]. intros d Hd. destruct Hcl' as (_ & He & _). by eapply He.
  - done.
  - intros c l s s' _ _ IH Hl. apply IH. intros d Hd. apply Hl. by right.
  - intros c cd l s s1 s' Hc _ IH1 _ IH2 Hl Hcl.
    apply IH2; [intros d Hd; apply Hl; by right|].
    apply IH1; [apply Hl; by left| |done].
    intros p Hp. destruct Hcl as (_ & _ & Hcl). apply (Hcl c).
    by rewrite (formulaAt_Some _ _ _ Hc).
Qed.

Lemma Update_closedIn U x f s s' :
  Upd x f s s' → x ∈ U → (∀ p, p ∈ parentsOf f → p ∈ U) →
  closedIn U s → closedIn U s'.
Proof. apply Update_Refresh_closedIn. Qed.

Lemma closedIn_universe x f s : closedIn (universe x f s) s.
Proof.
  unfold universe. split; [|split].
  - intros c [cd Hc]. right. apply elem_of_app. right.
    apply list_elem_of_bind. exists (c, cd). split; [by left|].
    by apply elem_of_map_to_list.
  - intros a b Hab. unfold edge, depsOf in Hab.
    destruct (s !! a) as [cd|] eqn:Ha; [|by apply elem_of_nil in Hab].
    right. apply elem_of_app. right.
    apply list_elem_of_bind. exists (a, cd). split; [|by apply elem_of_map_to_list].
    simpl. right. apply elem_of_app. by left.
  - intros c p Hp. unfold formulaAt, cellOr in Hp.
    destruct (s !! c) as [cd|] eqn:Hc; [|by apply elem_of_nil in Hp].
    right. apply elem_of_app. right.
    apply list_elem_of_bind. exists (c, cd). split; [|by apply elem_of_map_to_list].
    simpl. right. apply elem_of_app. by right.
Qed.


Lemma stackOK_nil U s y : stackOK U s [] y.
Proof. split; [constructor|]. by intros a ?%elem_of_nil. Qed.

Lemma stackOK_fresh U s σ y : acyclic s → stackOK U s σ y → y ∉ σ.
Proof. intros Hacyc [_ Hσ] Hy. apply (Hacyc y). by apply Hσ. Qed.

Lemma stackOK_bound U s σ y :
  acyclic s → stackOK U s σ y → y ∈ U → length σ < length U.
Proof.
  intros Hacyc Hst Hy.
  assert (NoDup (y :: σ)) as Hnd.
  { constructor; [by eapply stackOK_fresh|apply Hst]. }
  assert (y :: σ ⊆+ U) as Hsub%submseteq_length; [|simpl in Hsub; lia].
  apply NoDup_submseteq; [done|].
  intros a [->|Ha]%elem_of_cons; [done|]. by apply Hst.
Qed.

Lemma stackOK_push U s σ y d :
  acyclic s → stackOK U s σ y → y ∈ U → edge s y d → stackOK U s (y :: σ) d.
Proof.
  intros Hacyc Hst Hy Hyd. split.
  - constructor; [by eapply stackOK_fresh|apply Hst].
  - intros a [->|Ha]%elem_of_cons.
    + split; [done|by apply tc_once].
    + destruct Hst as [_ Hσ]. destruct (Hσ a Ha) as [HaU Hay].
      split; [done|]. by eapply tc_r.
Qed.

Lemma stackOK_extends U s s' σ y :
  extends s s' → stackOK U s σ y → stackOK U s' σ y.
Proof.
  intros Hext [Hnd Hσ]. split; [done|].
  intros a Ha. destruct (Hσ a Ha) as [HaU Hay]. split; [done|].
  eapply tc_subgraph; [|exact Hay]. intros ? ?. by apply extends_edge.
Qed.

Lemma hasCircularDependency_terminates U s t :
  acyclic s → closedIn U s →
  ∀ n σ y, stackOK U s σ y → y ∈ U → length U ≤ n + length σ →
    is_Some (hasCircularDependency n y t s).
Proof.
  intros Hacyc Hcl. induction n as [|n IH]; intros σ y Hst Hy Hlen.
  - pose proof (stackOK_bound U s σ y Hacyc Hst Hy). simpl in Hlen. lia.
  - simpl. case_decide; [by eexists|].
    apply anyM_is_Some. intros d Hd.
    apply (IH (y :: σ)).
    + by apply stackOK_push.
    + destruct Hcl as (_ & He & _). by eapply He.
    + simpl. lia.
Qed.

Lemma updateCellAndDependents_terminates U :
  ∀ n σ x f s,
    acyclic s → closedIn U s → x ∈ U → (∀ p, p ∈ parentsOf f → p ∈ U) →
    stackOK U s σ x → length U + 1 ≤ n + length σ →
    is_Some (update n x f s).
Proof.
  induction n as [|n IH]; intros σ x f s Hacyc Hcl Hx Hf Hst Hlen.
  - pose proof (stackOK_bound U s σ x Hacyc Hst Hx). simpl in Hlen. lia.
  - simpl.
    destruct (anyM_is_Some
      (λ parent, hasCircularDependency n x parent s) (parentsOf f)) as [r Hr].
    { intros p _. eapply hasCircularDependency_terminates; eauto. lia. }
    rewrite Hr. destruct r; [by eexists|].
    assert (∀ p, p ∈ parentsOf f → ¬ reach s x p) as Hno.
    { intros p Hp. eapply hasCircularDependency_false.
      by eapply anyM_false in Hr. }
    pose proof (acyclic_linkParents x f s Hacyc Hno) as Hacyc'.
    pose proof (closedIn_linkParents U x f s Hx Hf Hcl) as Hcl'.
    pose proof (stackOK_extends U s _ σ x (extends_linkParents x f s) Hst) as Hst'.
    assert (∀ d, d ∈ depsOf (link x f s) x → edge (link x f s) x d) as Hch by done.
    revert Hacyc' Hcl' Hst' Hch.
    generalize (depsOf (link x f s) x) as l. generalize (link x f s) as u.
    intros u l. revert u.
    induction l as [|d l IHl]; intros u Hacyc' Hcl' Hst' Hch; simpl; [by eexists|].
    assert (∀ d', d' ∈ l → edge u x d') as Hch' by (intros d' Hd'; apply Hch; by right).
    unfold refreshChild at 1.
    destruct (u !! d) as [cd|] eqn:Hd; [|by apply IHl].
    assert (edge u x d) as Hxd by (apply Hch; by left).
    destruct (IH (x :: σ) d (formula cd) u) as [s1 Hs1]; try done.
    { destruct Hcl' as (_ & He & _). by eapply He. }
    { intros p Hp. destruct Hcl' as (_ & _ & Hp'). apply (Hp' d).
      by rewrite (formulaAt_Some _ _ _ Hd). }
    { by apply stackOK_push. }
    { simpl. lia. }
    rewrite Hs1.
    rewrite spread_id by (intros c; by eapply updateCellAndDependents_dom).
    pose proof (updateCellAndDependents_Update _ _ _ _ _ Hs1) as HU.
    pose proof (Update_extends _ _ _ _ HU) as Hext.
    apply IHl.
    + by eapply Update_acyclic.
    + eapply Update_closedIn; [exact HU| | |done].
      * destruct Hcl' as (_ & He & _). by eapply He.
      * intros p Hp. destruct Hcl' as (_ & _ & Hp'). apply (Hp' d).
        by rewrite (formulaAt_Some _ _ _ Hd).
    + by eapply stackOK_extends.
    + intros d' Hd'. eapply extends_edge; [exact Hext|]. by apply Hch'.
Qed.

(** On an acyclic table the call returns, for every fuel from a bound on. *)
Lemma updateCellAndDependents_returns x f s :
  acyclic s →
  ∃ s', ∀ n, length (universe x f s) + 1 ≤ n → update n x f s = Some s'.
Proof.
  intros Hacyc.
  destruct (updateCellAndDependents_terminates (universe x f s)
              (length (universe x f s) + 1) [] x f s) as [s' Hs']; try done.
  - apply closedIn_universe.
  - by left.
  - intros p Hp. right. apply elem_of_app. by left.
  - apply stackOK_nil.
  - simpl. lia.
  - exists s'. intros n Hn. eapply updateCellAndDependents_mono; [exact Hn|done].
Qed.

Lemma hasCircularDependency_returns x t s :
  acyclic s →
  ∃ r, ∀ n, length (universe x "" s) ≤ n → hasCircularDependency n x t s = Some r.
Proof.
  intros Hacyc.
  destruct (hasCircularDependency_terminates (universe x "" s) s t Hacyc
              (closedIn_universe x "" s) (length (universe x "" s)) [] x)
    as [r Hr].
  - apply stackOK_nil.
  - by left.
  - simpl. lia.
  - exists r. intros n Hn. eapply hasCircularDependency_mono; [exact Hn|done].
Qed.

(** ** The dependents lists record the references *)

Lemma registered_extends s s' c :
  extends s s' → formulaAt s' c = formulaAt s c → registered s c → registered s' c.
Proof.
  intros [Hp _] Hf Hreg p Hpar. rewrite Hf in Hpar.
  eapply elem_of_prefix; [by apply Hreg|apply Hp].
Qed.

Lemma registered_linkParents x f s : registered (link x f s) x.
Proof.
  intros p Hp. rewrite linkParents_formula in Hp.
  apply linkParents_elem. by right.
Qed.

Lemma Update_Refresh_edgesRecorded :
  (∀ x f s s', Upd x f s s' →
     (∀ c, c ≠ x → valueAt s c ≠ VStr "#CIRCULAR" → registered s c) →
     edgesRecorded s') ∧
  (∀ l s s', Refr l s s' → edgesRecorded s → edgesRecorded s').
Proof.
  apply Update_Refresh_ind.
  - intros x f s _ Hs c. rewrite circularSnapshot_valueAt.
    case_decide as Hc; [done|]. intros Hv.
    eapply registered_extends; [apply extends_circularSnapshot| |by apply Hs].
    rewrite circularSnapshot_formulaAt. by rewrite decide_False.
  - intros x f s s' _ _ IH Hs. apply IH. intros c Hv.
    destruct (decide (c = x)) as [->|Hne]; [apply registered_linkParents|].
    rewrite linkParents_value_other in Hv by done.
    eapply registered_extends; [apply extends_linkParents| |by apply Hs].
    by apply linkParents_formula_other.
  - done.
  - auto.
  - intros c cd l s s1 s' _ _ IH1 _ IH2 Hs. apply IH2, IH1. auto.
Qed.

Lemma Update_edgesRecorded x f s s' :
  Upd x f s s' →
  (∀ c, c ≠ x → valueAt s c ≠ VStr "#CIRCULAR" → registered s c) →
  edgesRecorded s'.
Proof. apply Update_Refresh_edgesRecorded. Qed.

(** ** Cells out of reach keep their value *)

Lemma Update_Refresh_value :
  (∀ x f s s', Upd x f s s' →
     ∀ c, c ≠ x → ¬ tc (edge s') x c → valueAt s' c = valueAt s c) ∧
  (∀ l s s', Refr l s s' →
     ∀ c, (∀ d, d ∈ l → d ≠ c ∧ ¬ tc (edge s') d c) → valueAt s' c = valueAt s c).
Proof.
  apply Update_Refresh_ind.
  - intros x f s _ c Hc _. rewrite circularSnapshot_valueAt. by rewrite decide_False.
  - intros x f s s' _ HR IH c Hc Hxc.
    rewrite IH, linkParents_value_other; [done..|].
    intros d Hd.
    assert (edge s' x d) as Hxd.
    { eapply extends_edge; [by eapply Refresh_extends|exact Hd]. }
    split.
    + intros ->. apply Hxc. by apply tc_once.
    + intros Hdc. apply Hxc. by eapply tc_l.
  - done.
  - intros c l s s' _ _ IH c' Hl. apply IH. intros d Hd. apply Hl. by right.
  - intros c cd l s s1 s' _ _ IH1 HR IH2 c' Hl.
    rewrite IH2 by (intros d Hd; apply Hl; by right).
    destruct (Hl c) as [Hne Hcc']; [by left|].
    apply IH1; [done|]. intros Htc. apply Hcc'.
    eapply tc_subgraph; [|exact Htc].
    intros ? ?. apply extends_edge. by eapply Refresh_extends.
Qed.


Lemma Update_rejected x f s s' p :
  Upd x f s s' → p ∈ parentsOf f → reach s x p → s' = circularSnapshot x f s.
Proof.
  intros HU Hp Hxp.
  inversion HU as [|? ? ? ? Hno _]; subst; [done|]. by destruct (Hno p).
Qed.

(** ** Cells out of reach and out of mind keep their record *)

Lemma Update_Refresh_untouched :
  (∀ x f s s', Upd x f s s' →
     ∀ z, z ≠ x → z ∉ parentsOf f → ¬ tc (edge s') x z →
       (∀ c, c ≠ x → z ∈ parentsOf (formulaAt s c) → ¬ tc (edge s') x c) →
       s' !! z = s !! z) ∧
  (∀ l s s', Refr l s s' →
     ∀ z, (∀ d, d ∈ l → d ≠ z ∧ ¬ tc (edge s') d z) →
       (∀ c, z ∈ parentsOf (formulaAt s c) → ∀ d, d ∈ l → d ≠ c ∧ ¬ tc (edge s') d c) →
       s' !! z = s !! z).
Proof.
  apply Update_Refresh_ind.
  - intros x f s _ z Hz _ _ _. by apply circularSnapshot_lookup_other.
  - intros x f s s' _ HR IH z Hzx Hzf Hxz Hrefs.
    assert (∀ d, d ∈ depsOf (link x f s) x → edge s' x d) as Hch.
    { intros d Hd. eapply extends_edge; [by eapply Refresh_extends|exact Hd]. }
    rewrite IH, linkParents_lookup_other; [done..| |].
    + intros d Hd. split.
      * intros ->. apply Hxz. apply tc_once. by apply Hch.
      * intros Hdz. apply Hxz. eapply tc_l; [by apply Hch|done].
    + intros c Hc d Hd.
      destruct (decide (c = x)) as [->|Hne].
      { by rewrite linkParents_formula in Hc. }
      rewrite linkParents_formula_other in Hc by done.
      specialize (Hrefs c Hne Hc). split.
      * intros ->. apply Hrefs. apply tc_once. by apply Hch.
      * intros Hdc. apply Hrefs. eapply tc_l; [by apply Hch|done].
  - done.
  - intros c l s s' _ _ IH z Hl Hrefs. apply IH.
    + intros d Hd. apply Hl. by right.
    + intros c' Hc' d Hd. apply Hrefs; [done|by right].
  - intros c cd l s s1 s' Hc HU IH1 HR IH2 z Hl Hrefs.
    assert (∀ a b, tc (edge s1) a b → tc (edge s') a b) as Hsub.
    { intros a b. apply tc_subgraph. intros ? ?. apply extends_edge.
      by eapply Refresh_extends. }
    assert (∀ c', formulaAt s1 c' = formulaAt s c') as Hform.
    { intros c'. destruct (decide (c' = c)) as [->|Hne].
      - by rewrite (Update_formula _ _ _ _ HU), (formulaAt_Some _ _ _ Hc).
      - by eapply Update_formula_other. }
    rewrite IH2.
    + destruct (Hl c) as [Hne Hcz]; [by left|].
      apply IH1; [done| |by auto|].
      * intros Hz. rewrite <- (formulaAt_Some _ _ _ Hc) in Hz.
        destruct (Hrefs c Hz c) as [? _]; [by left|done].
      * intros c' Hne' Hc' Htc.
        destruct (Hrefs c' Hc' c) as [_ Hn]; [by left|]. by apply Hn, Hsub.
    + intros d Hd. apply Hl. by right.
    + intros c' Hc' d Hd. rewrite Hform in Hc'. apply Hrefs; [done|by right].
Qed.

(** ** Literal cells hold their text *)


Lemma calculateFormula_literal f s : startsWithEq f = false → calc f s = VStr f.
Proof. intros Hf. unfold calculateFormula, formulaPlan. by rewrite Hf. Qed.

Lemma parentsOf_literal f : startsWithEq f = false → parentsOf f = [].
Proof. intros Hf. unfold parentsOf. by rewrite Hf. Qed.

Lemma Update_Refresh_literal :
  (∀ x f s s', Upd x f s s' →
     literalOK s' x ∧ ∀ c, c ≠ x → literalOK s c → literalOK s' c) ∧
  (∀ l s s', Refr l s s' → ∀ c, literalOK s c → literalOK s' c).
Proof.
  apply Update_Refresh_ind.
  - intros x f s (p & Hp & _). unfold literalOK. split.
    + rewrite circularSnapshot_formulaAt, decide_True by done.
      intros Hf. rewrite parentsOf_literal in Hp by done. by apply elem_of_nil in Hp.
    + intros c Hc. by rewrite circularSnapshot_formulaAt, circularSnapshot_valueAt,
        !decide_False by done.
  - intros x f s s' _ _ IH. split.
    + apply IH. unfold literalOK. rewrite linkParents_formula, linkParents_value.
      apply calculateFormula_literal.
    + intros c Hc Hlit. apply IH. unfold literalOK.
      by rewrite linkParents_formula_other, linkParents_value_other by done.
  - done.
  - auto.
  - intros c cd l s s1 s' _ _ [IHx IHo] _ IH2 c' Hlit. apply IH2.
    destruct (decide (c' = c)) as [->|Hne]; auto.
Qed.

(** ** Poisoning *)

Lemma substituteRefs_poison refs e s r :
  r ∈ refs → isErrorTag (valueOrZero zero falsy s r) = true →
  substituteRefs zero falsy numToString refs e s = None.
Proof.
  revert e. induction refs as [|r' refs IH]; intros e Hr Herr; simpl.
  - by apply elem_of_nil in Hr.
  - destruct (isErrorTag (valueOrZero zero falsy s r')) eqn:Hr'; [done|].
    apply elem_of_cons in Hr as [->|Hr]; [congruence|]. by apply IH.
Qed.

Lemma formulaPlan_poison f s r :
  startsWithEq f = true →
  r ∈ matchRefs (toUpperCase (substring1 f)) →
  isErrorTag (valueOrZero zero falsy s r) = true →
  plan f s = Return (VStr "#ERROR").
Proof.
  intros Hf Hr Herr. unfold formulaPlan. rewrite Hf. simpl.
  by rewrite (substituteRefs_poison _ _ _ r).
Qed.

(** Both functions extract the same references from a formula. *)
Lemma parentsOf_formula f :
  startsWithEq f = true → parentsOf f = matchRefs (toUpperCase (substring1 f)).
Proof.
  intros Hf. unfold parentsOf. rewrite Hf.
  destruct f as [|c r]; [done|]. simpl in Hf.
  apply Ascii.eqb_eq in Hf as ->. reflexivity.
Qed.

Lemma parentsOf_startsWithEq f p : p ∈ parentsOf f → startsWithEq f = true.
Proof.
  unfold parentsOf. destruct (startsWithEq f); [done|]. by intros ?%elem_of_nil.
Qed.

Lemma isErrorTag_valueOrZero s d :
  isErrorTag (valueAt s d) = true → isErrorTag (valueOrZero zero falsy s d) = true.
Proof.
  unfold valueAt, cellOr, valueOrZero.
  destruct (s !! d) as [cd|]; simpl; [|done].
  destruct (value cd) as [v|n]; simpl; [|done].
  repeat case_decide; subst; done.
Qed.

Lemma calculateFormula_poison f s d :
  d ∈ parentsOf f → isErrorTag (valueAt s d) = true → calc f s = VStr "#ERROR".
Proof.
  intros Hd Herr.
  pose proof (parentsOf_startsWithEq _ _ Hd) as Hf.
  rewrite parentsOf_formula in Hd by done.
  unfold calculateFormula.
  by rewrite (formulaPlan_poison f s d Hf Hd (isErrorTag_valueOrZero _ _ Herr)).
Qed.


(** While the children of a cell are refreshed, the pairs of that cell with
    its remaining children are pending; [Pend] stands for the pending pairs of
    the callers. *)
Lemma Update_Refresh_poisoned :
  (∀ x f s s', Upd x f s s' →
     ∀ Pend : string → string → Prop, acyclic s →
       (∀ d c, registered s c → d ∈ parentsOf (formulaAt s c) →
          d = x ∨ c = x ∨ Pend d c ∨ okPair s d c) →
       (∀ d c, registered s' c → d ∈ parentsOf (formulaAt s' c) →
          Pend d c ∨ okPair s' d c)) ∧
  (∀ l s s', Refr l s s' →
     ∀ (Pend : string → string → Prop) x0, acyclic s →
       (∀ d c, registered s c → d ∈ parentsOf (formulaAt s c) →
          Pend d c ∨ (d = x0 ∧ c ∈ l) ∨ okPair s d c) →
       (∀ d c, registered s' c → d ∈ parentsOf (formulaAt s' c) →
          Pend d c ∨ okPair s' d c)).
Proof.
  apply Update_Refresh_ind.
  - intros x f s (p0 & Hp0 & Hxp0) Pend Hacyc Hs d c Hreg Hd.
    destruct (decide (c = x)) as [->|Hc].
    { exfalso. apply (Hacyc x). eapply tc_rtc_l; [exact Hxp0|]. apply tc_once.
      unfold edge. rewrite <- (circularSnapshot_depsOf x f s p0).
      apply Hreg. by rewrite circularSnapshot_formulaAt, decide_True. }
    rewrite circularSnapshot_formulaAt, decide_False in Hd by done.
    destruct (decide (d = x)) as [->|Hdx].
    { right. unfold okPair. by rewrite circularSnapshot_valueAt, decide_True. }
    assert (registered s c) as Hreg'.
    { intros p Hp. rewrite <- (circularSnapshot_depsOf x f s p). apply Hreg.
      by rewrite circularSnapshot_formulaAt, decide_False. }
    destruct (Hs d c Hreg' Hd) as [?|[?|[?|Hok]]]; [done|done|by left|].
    right. unfold okPair. by rewrite !circularSnapshot_valueAt, !decide_False.
  - intros x f s s' Hno _ IH Pend Hacyc Hs.
    apply (IH Pend x); [by apply acyclic_linkParents|].
    intros d c Hreg Hd.
    destruct (decide (c = x)) as [->|Hc].
    { rewrite linkParents_formula in Hd.
      right. right. unfold okPair. rewrite linkParents_value.
      assert (d ≠ x) as Hdx by (intros ->; by apply (Hno x Hd), rtc_refl).
      rewrite linkParents_value_other by done. intros Herr.
      apply (calculateFormula_poison f s d Hd). by rewrite Herr. }
    destruct (decide (d = x)) as [->|Hdx].
    { right. left. split; [done|]. by apply Hreg. }
    rewrite linkParents_formula_other in Hd by done.
    assert (registered s c) as Hreg'.
    { intros p Hp. rewrite <- (linkParents_formula_other x f s c) in Hp by done.
      apply Hreg, linkParents_elem in Hp as [?|[_ ->]]; done. }
    destruct (Hs d c Hreg' Hd) as [?|[?|[?|Hok]]]; [done|done|by left|].
    right. right. unfold okPair. by rewrite !linkParents_value_other.
  - intros s Pend x0 _ Hs d c Hreg Hd.
    destruct (Hs d c Hreg Hd) as [?|[[_ ?%elem_of_nil]|?]]; auto; done.
  - intros c0 l s s' Hc0 _ IH Pend x0 Hacyc Hs.
    apply (IH Pend x0 Hacyc). intros d c Hreg Hd.
    destruct (Hs d c Hreg Hd) as [?|[[-> [->|?]%elem_of_cons]|?]]; auto.
    rewrite (formulaAt_None _ _ Hc0) in Hd. by apply elem_of_nil in Hd.
  - intros c0 cd l s s1 s' Hc0 HU IH1 _ IH2 Pend x0 Hacyc Hs.
    apply (IH2 Pend x0); [by eapply Update_acyclic|].
    intros d c Hreg Hd.
    destruct (IH1 (λ d c, Pend d c ∨ (d = x0 ∧ c ∈ l)) Hacyc) with (d := d) (c := c)
      as [[?|?]|?]; auto.
    clear d c Hreg Hd. intros d c Hreg Hd.
    destruct (Hs d c Hreg Hd) as [?|[[-> [->|?]%elem_of_cons]|?]]; auto.
    right. right. left. right. by split.
Qed.

Lemma Update_poisoned x f s s' :
  Upd x f s s' → acyclic s →
  (∀ d c, d ≠ x → c ≠ x → registered s c → d ∈ parentsOf (formulaAt s c) →
     okPair s d c) →
  poisoned s'.
Proof.
  intros HU Hacyc Hs d c Hreg Hd.
  destruct (proj1 Update_Refresh_poisoned _ _ _ _ HU (λ _ _, False) Hacyc)
    with (d := d) (c := c) as [[]|Hok]; [|done..].
  clear d c Hreg Hd. intros d c Hreg Hd.
  destruct (decide (d = x)); [by left|].
  destruct (decide (c = x)); [by right; left|]. right. right. right. by apply Hs.
Qed.

(** ** Committed edits *)

Local Abbreviation commit := (applyEdit zero falsy numToString evaluate).
Local Abbreviation run := (runEdits zero falsy numToString evaluate).
Local Abbreviation blur := (handleBlur zero falsy numToString evaluate).

Lemma handleInputChange_depsOf x text s c :
  depsOf (handleInputChange x text s) c = depsOf s c.
Proof.
  unfold handleInputChange. rewrite depsOf_insert. case_decide; by subst.
Qed.

Lemma handleInputChange_valueAt x text s c :
  c ≠ x → valueAt (handleInputChange x text s) c = valueAt s c.
Proof.
  intros Hne. unfold valueAt, handleInputChange.
  by rewrite cellOr_insert, decide_False.
Qed.

Lemma handleInputChange_formulaAt x text s c :
  formulaAt (handleInputChange x text s) c = if decide (c = x) then text else formulaAt s c.
Proof.
  unfold formulaAt, handleInputChange. rewrite cellOr_insert. by case_decide.
Qed.


Lemma handleInputChange_acyclic x text s :
  acyclic s → acyclic (handleInputChange x text s).
Proof.
  apply acyclic_subgraph. intros a b. unfold edge.
  by rewrite handleInputChange_depsOf.
Qed.

Lemma handleInputChange_registered x text s c :
  c ≠ x → registered (handleInputChange x text s) c ↔ registered s c.
Proof.
  intros Hne. unfold registered.
  rewrite handleInputChange_formulaAt, decide_False by done.
  by setoid_rewrite handleInputChange_depsOf.
Qed.

Lemma formulaOf_formulaAt s x : formulaOf s x = formulaAt s x.
Proof. unfold formulaOf, formulaAt, cellOr. by destruct (s !! x). Qed.



Lemma applyEdit_unfold n e s :
  commit n e s =
    update n (editedCell e) (formulaOf (tableBefore e s) (editedCell e)) (tableBefore e s).
Proof. by destruct e. Qed.

Lemma tableBefore_acyclic e s : acyclic s → acyclic (tableBefore e s).
Proof. destruct e; simpl; [apply handleInputChange_acyclic|done]. Qed.

Lemma tableBefore_registered e s c :
  c ≠ editedCell e → registered (tableBefore e s) c ↔ registered s c.
Proof. destruct e; simpl; [apply handleInputChange_registered|done]. Qed.

Lemma tableBefore_valueAt e s c :
  c ≠ editedCell e → valueAt (tableBefore e s) c = valueAt s c.
Proof. destruct e; simpl; [apply handleInputChange_valueAt|done]. Qed.

Lemma tableBefore_formulaAt e s c :
  c ≠ editedCell e → formulaAt (tableBefore e s) c = formulaAt s c.
Proof.
  destruct e; simpl; [|done]. intros Hne.
  by rewrite handleInputChange_formulaAt, decide_False.
Qed.

Lemma wellFormed_empty : wellFormed (∅ : gmap string (@Cell Num)).
Proof.
  split; [apply acyclic_empty|]. split.
  - intros c _ p Hp. unfold formulaAt, cellOr in Hp. rewrite lookup_empty in Hp.
    by apply elem_of_nil in Hp.
  - intros d c _ Hd. unfold formulaAt, cellOr in Hd. rewrite lookup_empty in Hd.
    by apply elem_of_nil in Hd.
Qed.

Lemma applyEdit_wellFormed n e s s' :
  commit n e s = Some s' → wellFormed s → wellFormed s'.
Proof.
  rewrite applyEdit_unfold. intros HU%updateCellAndDependents_Update (Hacyc & Hrec & Hpois).
  pose proof (tableBefore_acyclic e s Hacyc) as Hacyc0.
  split; [by eapply Update_acyclic|]. split.
  - eapply Update_edgesRecorded; [exact HU|].
    intros c Hc Hv. apply tableBefore_registered; [done|].
    apply Hrec. by rewrite <- (tableBefore_valueAt e s c).
  - eapply Update_poisoned; [exact HU|done|].
    intros d c Hd Hc Hreg Hpar. unfold okPair.
    rewrite !tableBefore_valueAt by done.
    rewrite tableBefore_formulaAt in Hpar by done.
    apply Hpois; [|done]. by apply (tableBefore_registered e s c).
Qed.

Lemma runEdits_wellFormed n edits s s' :
  run n edits s = Some s' → wellFormed s → wellFormed s'.
Proof.
  revert s. induction edits as [|e edits IH]; intros s; unfold runEdits; simpl.
  - by intros [= <-].
  - destruct (commit n e s) as [s1|] eqn:Hs1; [|done].
    intros Hrun Hwf. eapply IH; [exact Hrun|]. by eapply applyEdit_wellFormed.
Qed.

Lemma applyEdit_returns e s :
  acyclic s → ∃ n s', ∀ m, n ≤ m → commit m e s = Some s'.
Proof.
  intros Hacyc.
  destruct (updateCellAndDependents_returns (editedCell e)
    (formulaOf (tableBefore e s) (editedCell e)) (tableBefore e s)) as [s' Hs'].
  { by apply tableBefore_acyclic. }
  eexists _, s'. intros m Hm. rewrite applyEdit_unfold. by apply Hs'.
Qed.

Lemma runEdits_returns edits s :
  wellFormed s → ∃ n s', ∀ m, n ≤ m → run m edits s = Some s'.
Proof.
  revert s. induction edits as [|e edits IH]; intros s Hwf.
  - by exists 0, s.
  - destruct (applyEdit_returns e s) as (n1 & s1 & Hs1); [apply Hwf|].
    destruct (IH s1) as (n2 & s2 & Hs2).
    { eapply applyEdit_wellFormed; [by apply (Hs1 n1)|done]. }
    exists (n1 `max` n2), s2. intros m Hm. unfold runEdits. simpl.
    rewrite Hs1 by lia. apply Hs2. lia.
Qed.

(** ** The cycle check of a call *)

Lemma reach_tc s a b : reach s a b ↔ a = b ∨ tc (edge s) a b.
Proof. apply rtc_tc. Qed.

Lemma cycleCheck_returns x f s :
  acyclic s →
  ∃ r, (∀ n, length (universe x "" s) ≤ n →
          anyM (λ parent, hasCircularDependency n x parent s) (parentsOf f) = Some r) ∧
       (r = true ↔ ∃ p, p ∈ parentsOf f ∧ reach s x p).
Proof.
  intros Hacyc.
  destruct (anyM_is_Some
    (λ parent, hasCircularDependency (length (universe x "" s)) x parent s)
    (parentsOf f)) as [r Hr].
  { intros p _. destruct (hasCircularDependency_returns x p s Hacyc) as [r Hr].
    exists r. by apply Hr. }
  exists r. split.
  - intros n Hn. eapply anyM_mono; [|exact Hr].
    intros p r' _. by apply hasCircularDependency_mono.
  - split.
    + intros ->. apply anyM_true in Hr as (p & Hp & Hcirc).
      exists p. split; [done|]. by eapply hasCircularDependency_true.
    + intros (p & Hp & Hxp). destruct r; [done|].
      exfalso. eapply hasCircularDependency_false; [|exact Hxp].
      by eapply anyM_false in Hr.
Qed.

Lemma closesCycle_dec x f s :
  acyclic s →
  (∃ p, p ∈ parentsOf f ∧ reach s x p) ∨ (∀ p, p ∈ parentsOf f → ¬ reach s x p).
Proof.
  intros Hacyc. destruct (cycleCheck_returns x f s Hacyc) as ([] & _ & Hr).
  - left. by apply Hr.
  - right. intros p Hp Hxp. by assert (false = true) by (apply Hr; eauto).
Qed.

Lemma updateCellAndDependents_rejected x f s p :
  acyclic s → p ∈ parentsOf f → reach s x p →
  ∀ n, length (universe x f s) + 1 ≤ n →
    update n x f s = Some (circularSnapshot x f s).
Proof.
  intros Hacyc Hp Hxp n Hn.
  destruct (updateCellAndDependents_returns x f s Hacyc) as [s' Hs'].
  rewrite (Hs' n Hn). f_equal.
  eapply Update_rejected; [|exact Hp|exact Hxp].
  eapply updateCellAndDependents_Update. by apply Hs'.
Qed.

(** ** Dependents are pushed once *)





(** * The claims *)

Lemma isErrorTag_tags (v : @Value Num) :
  v = VStr "#ERROR" ∨ v = VStr "#CIRCULAR" → isErrorTag v = true.
Proof. by intros [->| ->]. Qed.

(** C1. For every sequence of committed edits that starts from the empty
    table, the engine returns and the dependents graph of the committed
    table is acyclic; every prefix of a sequence is a sequence, so this is
    every committed snapshot.  An edit whose references would close a cycle
    (the graph with the new edges would not be acyclic) yields the value
    #CIRCULAR on the edited cell and leaves every dependents list as it
    was. *)
Theorem C1_acyclic_commits :
  (∀ edits, ∃ n s, (∀ m, n ≤ m → run m edits ∅ = Some s) ∧ acyclic s) ∧
  (∀ s x f, acyclic s → ¬ acyclic (link x f s) →
     ∃ n s', (∀ m, n ≤ m → update m x f s = Some s') ∧
       valueAt s' x = VStr "#CIRCULAR" ∧ ∀ c, depsOf s' c = depsOf s c).
Proof.
  split.
  - intros edits.
    destruct (runEdits_returns edits ∅ wellFormed_empty) as (n & s & Hs).
    exists n, s. split; [done|].
    eapply runEdits_wellFormed; [by apply (Hs n)|apply wellFormed_empty].
  - intros s x f Hacyc Hcyc.
    destruct (closesCycle_dec x f s Hacyc) as [(p & Hp & Hxp)|Hno].
    + exists (length (universe x f s) + 1), (circularSnapshot x f s).
      split; [by eapply updateCellAndDependents_rejected|]. split.
      * by rewrite circularSnapshot_valueAt, decide_True.
      * intros c. apply circularSnapshot_depsOf.
    + destruct Hcyc. by apply acyclic_linkParents.
Qed.

(** C2, as amended.  After every sequence of committed edits from the empty
    table: if the stored formula of X references Y and the value of X is not
    #CIRCULAR, then X is a dependent of Y.  Every call of
    [updateCellAndDependents] preserves this. *)
Theorem C2_references_recorded :
  (∀ edits, ∃ n s, (∀ m, n ≤ m → run m edits ∅ = Some s) ∧
     ∀ X Y, valueAt s X ≠ VStr "#CIRCULAR" → Y ∈ parentsOf (formulaAt s X) →
       X ∈ depsOf s Y) ∧
  (∀ n x f s s', update n x f s = Some s' → edgesRecorded s → edgesRecorded s').
Proof.
  split.
  - intros edits.
    destruct (runEdits_returns edits ∅ wellFormed_empty) as (n & s & Hs).
    exists n, s. split; [done|].
    destruct (runEdits_wellFormed n edits ∅ s) as (_ & Hrec & _);
      [by apply Hs|apply wellFormed_empty|].
    intros X Y HX HY. by apply Hrec.
  - intros n x f s s' HU%updateCellAndDependents_Update Hrec.
    eapply Update_edgesRecorded; [exact HU|]. intros c _. apply Hrec.
Qed.

(** C3, as amended.  Whenever the cycle detector returns, it returns true if
    and only if the target (the candidate parent) is the start cell (the
    edited cell) or can be reached from the start cell along dependents
    edges; and it returns on every acyclic table. *)
Theorem C3_cycle_detector :
  (∀ n startCell targetCell s r,
     hasCircularDependency n startCell targetCell s = Some r →
     (r = true ↔ startCell = targetCell ∨ tc (edge s) startCell targetCell)) ∧
  (∀ startCell targetCell s, acyclic s →
     ∃ n r, ∀ m, n ≤ m → hasCircularDependency m startCell targetCell s = Some r).
Proof.
  split.
  - intros n a t s r Hr. rewrite <- reach_tc. destruct r.
    + split; [|done]. intros _. by eapply hasCircularDependency_true.
    + split; [done|]. intros Hat. by eapply hasCircularDependency_false in Hr.
  - intros a t s Hacyc.
    destruct (hasCircularDependency_returns a t s Hacyc) as [r Hr]. eauto.
Qed.


(** C6.  When the loop of the cycle check returns true, the call returns the
    input table with one change: the edited cell has the value #CIRCULAR, the
    new formula and the dependents it had; every other cell and every
    dependents list is as before.  On an acyclic table that is what happens
    as soon as some reference of the new formula is the edited cell itself
    or can be reached from it. *)
Theorem C6_rejected_edit :
  (∀ n x f s,
     anyM (λ parent, hasCircularDependency n x parent s) (parentsOf f) = Some true →
     ∃ s', update (S n) x f s = Some s' ∧
       s' !! x = Some (mkCell (VStr "#CIRCULAR") f (depsOf s x)) ∧
       (∀ c, c ≠ x → s' !! c = s !! c) ∧
       (∀ c, depsOf s' c = depsOf s c)) ∧
  (∀ x f s p, acyclic s → p ∈ parentsOf f → p = x ∨ tc (edge s) x p →
     ∃ n s', (∀ m, n ≤ m → update m x f s = Some s') ∧
       s' !! x = Some (mkCell (VStr "#CIRCULAR") f (depsOf s x)) ∧
       (∀ c, c ≠ x → s' !! c = s !! c) ∧
       (∀ c, depsOf s' c = depsOf s c)).
Proof.
  split.
  - intros n x f s Hcheck. exists (circularSnapshot x f s). simpl. rewrite Hcheck.
    split; [done|]. split; [apply circularSnapshot_lookup|]. split.
    + intros c. apply circularSnapshot_lookup_other.
    + intros c. apply circularSnapshot_depsOf.
  - intros x f s p Hacyc Hp Hxp.
    assert (reach s x p) as Hreach by (apply reach_tc; naive_solver).
    exists (length (universe x f s) + 1), (circularSnapshot x f s).
    split; [by eapply updateCellAndDependents_rejected|].
    split; [apply circularSnapshot_lookup|]. split.
    + intros c. apply circularSnapshot_lookup_other.
    + intros c. apply circularSnapshot_depsOf.
Qed.

(** C8.  On a table whose dependents graph is acyclic the call returns: from
    some depth of the call stack on, neither the search of the cycle
    detector nor the refresh of the dependents runs out of fuel. *)
Theorem C8_termination s x f :
  acyclic s →
  (∃ n s', ∀ m, n ≤ m → update m x f s = Some s') ∧
  (∀ targetCell, ∃ n r, ∀ m, n ≤ m → hasCircularDependency m x targetCell s = Some r).
Proof.
  intros Hacyc. split.
  - destruct (updateCellAndDependents_returns x f s Hacyc) as [s' Hs']. eauto.
  - intros t. destruct (hasCircularDependency_returns x t s Hacyc) as [r Hr]. eauto.
Qed.

(** C9.  In the table returned by a call, the dependents list of every cell
    starts with the list the cell had in the input table: entries are pushed,
    none is removed, whatever the new formula references. *)
Theorem C9_dependents_grow n x f s s' :
  update n x f s = Some s' →
  ∀ c, depsOf s c `prefix_of` depsOf s' c ∧ ∀ d, d ∈ depsOf s c → d ∈ depsOf s' c.
Proof.
  intros HU%updateCellAndDependents_Update%Update_extends c.
  destruct HU as [Hp _]. split; [apply Hp|].
  intros d Hd. eapply elem_of_prefix; [exact Hd|apply Hp].
Qed.

(** C10.  A committed formula that is the text #ERROR or #CIRCULAR is stored
    as the value of the cell, on every table and whenever the call returns
    (it does on every acyclic table); and every formula that references the
    cell is then answered with #ERROR before the evaluator is reached. *)
Theorem C10_literal_tags tag :
  tag = "#ERROR" ∨ tag = "#CIRCULAR" →
  (∀ n x s s', update n x tag s = Some s' →
     valueAt s' x = VStr tag ∧ formulaAt s' x = tag ∧
     ∀ g, x ∈ parentsOf g →
       plan g s' = Return (VStr "#ERROR") ∧ calc g s' = VStr "#ERROR") ∧
  (∀ x s, acyclic s → ∃ n s', ∀ m, n ≤ m → update m x tag s = Some s').
Proof.
  intros Htag. split.
  - intros n x s s' HU%updateCellAndDependents_Update.
    pose proof (Update_formula _ _ _ _ HU) as Hform.
    assert (valueAt s' x = VStr tag) as Hval.
    { destruct (proj1 Update_Refresh_literal _ _ _ _ HU) as [Hlit _].
      unfold literalOK in Hlit. rewrite Hform in Hlit. apply Hlit.
      by destruct Htag as [-> | ->]. }
    split; [done|]. split; [done|]. intros g Hg.
    pose proof (parentsOf_startsWithEq _ _ Hg) as Hgf.
    rewrite parentsOf_formula in Hg by done.
    assert (plan g s' = Return (VStr "#ERROR")) as Hplan.
    { apply (formulaPlan_poison g s' x Hgf Hg).
      apply isErrorTag_valueOrZero, isErrorTag_tags. rewrite Hval.
      destruct Htag as [-> | ->]; auto. }
    split; [done|]. unfold calculateFormula. by rewrite Hplan.
  - intros x s Hacyc.
    destruct (updateCellAndDependents_returns x tag s Hacyc) as [s' Hs']. eauto.
Qed.

End EngineFacts.

(** * The history manager *)

Section HistoryFacts.

Context {A : Type}.

Implicit Types st : @HistoryState A.

(** The state after a commit, for a valid cursor. *)
Lemma commitSnapshot_state finalState st :
  historyIndex st < length (history st) →
  commitSnapshot finalState st =
    mkHistory (Some finalState)
      (take (historyIndex st + 1) (history st) ++ [finalState]) (historyIndex st + 1).
Proof.
  intros Hlt. unfold commitSnapshot, saveToHistory. simpl. f_equal.
  rewrite length_app, length_take_le by lia. simpl. lia.
Qed.

Lemma handleUndo_history st : history (handleUndo st) = history st.
Proof. unfold handleUndo. by case_decide. Qed.

Lemma handleRedo_history st : history (handleRedo st) = history st.
Proof. unfold handleRedo. by case_decide. Qed.

Lemma handleUndo_valid st :
  historyIndex st < length (history st) →
  historyIndex (handleUndo st) < length (history (handleUndo st)).
Proof. unfold handleUndo. case_decide; simpl; lia. Qed.

Lemma handleRedo_last st :
  historyIndex st = length (history st) - 1 → handleRedo st = st.
Proof. intros Hlast. unfold handleRedo. case_decide; [lia|done]. Qed.

Lemma handleUndo_iter_valid k st :
  historyIndex st < length (history st) →
  historyIndex (Nat.iter k handleUndo st) < length (history (Nat.iter k handleUndo st)).
Proof. intros Hlt. induction k as [|k IH]; simpl; [done|]. by apply handleUndo_valid. Qed.

(** A commit keeps the entries up to the cursor, appends the snapshot and
    moves the cursor to it; redo then changes nothing. *)
Lemma commitSnapshot_discards finalState st :
  historyIndex st < length (history st) →
  let st' := commitSnapshot finalState st in
  history st' = take (historyIndex st + 1) (history st) ++ [finalState] ∧
  historyIndex st' = length (history st') - 1 ∧
  drop (historyIndex st' + 1) (history st') = [] ∧
  ∀ k, Nat.iter k handleRedo st' = st'.
Proof.
  intros Hlt. cbv zeta. rewrite commitSnapshot_state by done. simpl.
  assert (length (take (historyIndex st + 1) (history st)) = historyIndex st + 1)
    as Hlen by (apply length_take_le; lia).
  split; [done|].
  split; [rewrite length_app, Hlen; simpl; lia|]. split.
  - apply drop_ge. rewrite length_app, Hlen. simpl. lia.
  - intros k. induction k as [|k IH]; simpl; [done|]. rewrite IH.
    apply handleRedo_last. simpl. rewrite length_app, Hlen. simpl. lia.
Qed.

(** The history manager hands back the entries it was given.  From a state
    whose current entry is S0, after the commit of S: undo shows S0, a redo
    after that shows S and gives back the state the commit had produced.  A
    commit after any number of undos leaves the entries up to the cursor
    followed by the new snapshot, so what stood after the cursor is gone, and
    redo, however often, changes nothing.  An entry is a reference to a table
    of cell objects: what the objects' arrays hold is not the manager's
    matter. *)
Lemma history_round_trip st (S0 S : A) :
  history st !! historyIndex st = Some S0 →
  cells (handleUndo (commitSnapshot S st)) = Some S0 ∧
  cells (handleRedo (handleUndo (commitSnapshot S st))) = Some S ∧
  handleRedo (handleUndo (commitSnapshot S st)) = commitSnapshot S st ∧
  ∀ (undos : nat) (S' : A),
    let st' := Nat.iter undos handleUndo (commitSnapshot S st) in
    let st'' := commitSnapshot S' st' in
    history st'' = take (historyIndex st' + 1) (history st') ++ [S'] ∧
    historyIndex st'' = length (history st'') - 1 ∧
    drop (historyIndex st'' + 1) (history st'') = [] ∧
    ∀ k, Nat.iter k handleRedo st'' = st''.
Proof.
  intros Hcur.
  pose proof (lookup_lt_Some _ _ _ Hcur) as Hlt.
  split; [|split; [|split]]; cycle 3.
  { intros undos S'. apply commitSnapshot_discards, handleUndo_iter_valid.
    rewrite commitSnapshot_state by done. simpl.
    rewrite length_app, length_take_le by lia. simpl. lia. }
  all: rewrite commitSnapshot_state by done.
  all: set (h1 := take (historyIndex st + 1) (history st) ++ [S]).
  all: assert (length (take (historyIndex st + 1) (history st)) = historyIndex st + 1)
    as Hlen by (apply length_take_le; lia).
  all: assert (handleUndo (mkHistory (Some S) h1 (historyIndex st + 1)) =
          mkHistory (Some S0) h1 (historyIndex st)) as Hundo.
  1,3,5: unfold handleUndo; simpl; rewrite decide_True by lia;
    replace (historyIndex st + 1 - 1) with (historyIndex st) by lia;
    f_equal; unfold h1; rewrite lookup_app_l by lia;
    by rewrite lookup_take_lt by lia.
  all: assert (handleRedo (mkHistory (Some S0) h1 (historyIndex st)) =
          mkHistory (Some S) h1 (historyIndex st + 1)) as Hredo.
  1,3,5: unfold handleRedo; simpl;
    rewrite decide_True by (unfold h1; rewrite length_app, Hlen; simpl; lia);
    f_equal; unfold h1; rewrite lookup_app_r by lia;
    rewrite Hlen; by replace (historyIndex st + 1 - (historyIndex st + 1)) with 0 by lia.
  all: rewrite Hundo; try rewrite Hredo; done.
Qed.

End HistoryFacts.

(** * The memory model computes the table model *)

Section MemoryFacts.

Context {Num : Type} (zero : Num) (falsy : Num → bool) (numToString : Num → string).
Context (evaluate : string → option (@Value Num)).

Local Abbreviation update := (updateCellAndDependents zero falsy numToString evaluate).
Local Abbreviation updateH := (updateCellAndDependentsH zero falsy numToString evaluate).
Local Abbreviation link := (linkParents zero falsy numToString evaluate).

Implicit Types cells : gmap string (@Obj Num).
Implicit Types m : Mem.
Implicit Types x c p : string.
Implicit Types l : positive.

Lemma tableOf_lookup cells m c : tableOf cells m !! c = view m <$> cells !! c.
Proof. unfold tableOf. apply lookup_fmap. Qed.

Lemma tableOf_insert cells m c o :
  tableOf (<[c := o]> cells) m = <[c := view m o]> (tableOf cells m).
Proof. unfold tableOf. apply fmap_insert. Qed.

Lemma depsOf_tableOf cells m c :
  depsOf (tableOf cells m) c =
    match cells !! c ≫= arr with Some l => readArr m l | None => [] end.
Proof.
  unfold depsOf. rewrite tableOf_lookup.
  destruct (cells !! c) as [o|]; simpl; [|done]. by destruct (arr o).
Qed.

Lemma readArr_alloc m l : l ≠ fresh m → readArr (allocMem m) l = readArr m l.
Proof. intros Hne. unfold readArr, allocMem. simpl. by rewrite lookup_insert_ne. Qed.

Lemma readArr_alloc_fresh m : readArr (allocMem m) (fresh m) = [].
Proof. unfold readArr, allocMem. simpl. by rewrite lookup_insert_eq. Qed.

Lemma fresh_allocMem m : fresh (allocMem m) = Pos.succ (fresh m).
Proof. done. Qed.

Lemma readArr_push m l l' x :
  readArr (push m l x) l' = if decide (l' = l) then readArr m l ++ [x] else readArr m l'.
Proof.
  unfold readArr at 1, push. simpl. rewrite lookup_insert.
  case_decide; subst; [by rewrite decide_True|by rewrite decide_False].
Qed.

Lemma tableOf_alloc cells m :
  wfMem cells m → tableOf cells (allocMem m) = tableOf cells m.
Proof.
  intros [Hlt _]. apply map_eq. intros c. rewrite !tableOf_lookup.
  destruct (cells !! c) as [o|] eqn:Hc; simpl; [|done]. f_equal.
  unfold view. destruct (arr o) as [l|] eqn:Hl; [|done].
  rewrite readArr_alloc; [done|]. specialize (Hlt c o l Hc Hl). lia.
Qed.

Lemma tableOf_push cells m p o l x :
  wfMem cells m → cells !! p = Some o → arr o = Some l →
  tableOf cells (push m l x) =
    <[p := mkCell (val o) (frm o) (readArr m l ++ [x])]> (tableOf cells m).
Proof.
  intros [_ Hinj] Hp Hl. apply map_eq. intros c.
  rewrite lookup_insert, !tableOf_lookup. case_decide as Hc; subst.
  - rewrite Hp. simpl. f_equal. unfold view. rewrite Hl.
    by rewrite readArr_push, decide_True.
  - destruct (cells !! c) as [o'|] eqn:Hc'; simpl; [|done]. f_equal.
    unfold view. destruct (arr o') as [l'|] eqn:Hl'; [|done].
    rewrite readArr_push, decide_False; [done|]. intros ->.
    apply Hc. symmetry. by eapply Hinj.
Qed.

Lemma wfMem_alloc_insert cells m c v f :
  wfMem cells m → wfMem (<[c := mkObj v f (Some (fresh m))]> cells) (allocMem m).
Proof.
  intros [Hlt Hinj]. split.
  - intros c' o l. rewrite lookup_insert, fresh_allocMem. case_decide; subst.
    + intros [= <-] [= <-]. lia.
    + intros Hc' Hl. specialize (Hlt c' o l Hc' Hl). lia.
  - intros c1 c2 o1 o2 l. rewrite !lookup_insert.
    repeat case_decide; subst; try done.
    + intros [= <-] Hc2 [= <-] Hl. specialize (Hlt c2 o2 _ Hc2 Hl). lia.
    + intros Hc1 [= <-] Hl [= <-]. specialize (Hlt c1 o1 _ Hc1 Hl). lia.
    + apply Hinj.
Qed.

Lemma wfMem_push cells m l x : wfMem cells m → wfMem cells (push m l x).
Proof. by intros [Hlt Hinj]. Qed.

Lemma wfMem_rewrite cells m c o v f l :
  wfMem cells m → cells !! c = Some o → arr o = Some l →
  wfMem (<[c := mkObj v f (Some l)]> cells) m.
Proof.
  intros [Hlt Hinj] Hc Hl. split.
  - intros c' o' l'. rewrite lookup_insert. case_decide; subst.
    + intros [= <-] [= <-]. by eapply Hlt.
    + apply Hlt.
  - intros c1 c2 o1 o2 l'. rewrite !lookup_insert.
    repeat case_decide; subst; try done.
    + intros [= <-] Hc2 [= <-] Hl2. by eapply Hinj.
    + intros Hc1 [= <-] Hl1 [= <-]. by eapply Hinj.
    + apply Hinj.
Qed.

(** The array that the rewritten cell object takes over. *)
Lemma depsOrNew_spec cells m x l m1 v f :
  depsOrNew cells m x = (l, m1) → wfMem cells m →
  wfMem (<[x := mkObj v f (Some l)]> cells) m1 ∧
  tableOf (<[x := mkObj v f (Some l)]> cells) m1 =
    <[x := mkCell v f (depsOf (tableOf cells m) x)]> (tableOf cells m) ∧
  (∀ o l0, cells !! x = Some o → arr o = Some l0 → l = l0).
Proof.
  intros Hdeps Hwf. rewrite depsOf_tableOf. unfold depsOrNew in Hdeps.
  destruct (cells !! x) as [o|] eqn:Hx; simpl; [destruct (arr o) as [l'|] eqn:Hl|].
  - injection Hdeps as <- <-. simpl.
    split; [by eapply wfMem_rewrite|]. split; [by rewrite tableOf_insert|].
    intros o' l0 [= <-]. congruence.
  - injection Hdeps as <- <-. simpl.
    split; [by apply wfMem_alloc_insert|]. split; [|intros o' l0 [= <-]; congruence].
    rewrite tableOf_insert, tableOf_alloc by done.
    unfold view. simpl. by rewrite readArr_alloc_fresh.
  - injection Hdeps as <- <-.
    split; [by apply wfMem_alloc_insert|]. split; [|done].
    rewrite tableOf_insert, tableOf_alloc by done.
    unfold view. simpl. by rewrite readArr_alloc_fresh.
Qed.

Lemma union_absorb {V} (s s1 : gmap string V) :
  (∀ c, is_Some (s !! c) → is_Some (s1 !! c)) → s1 ∪ s = s1.
Proof.
  intros Hdom. apply map_eq. intros c.
  destruct (s1 !! c) as [v|] eqn:Hc.
  - by apply lookup_union_Some_l.
  - apply lookup_union_None. split; [done|].
    destruct (s !! c) eqn:Hs; [|done].
    destruct (Hdom c) as [? Hc']; [by eexists|congruence].
Qed.

Lemma haveArrays_weaken (ox : option string) cells :
  haveArrays None cells → haveArrays ox cells.
Proof. intros Hall c o _. by apply Hall. Qed.

Lemma haveArrays_insert x cells v f l :
  haveArrays (Some x) cells → haveArrays None (<[x := mkObj v f (Some l)]> cells).
Proof.
  intros Hall c o _. rewrite lookup_insert. case_decide; subst.
  - intros [= <-]. by eexists.
  - apply Hall. congruence.
Qed.

(** One parent gets its dependent, in memory and in the table. *)
Lemma addDependentH_sim x p cells m :
  wfMem cells m → haveArrays None cells →
  ∃ cells' m', addDependentH x p (cells, m) = Some (cells', m') ∧
    tableOf cells' m' = addDependent x (tableOf cells m) p ∧
    wfMem cells' m' ∧ haveArrays None cells' ∧
    (∀ c o, cells !! c = Some o → cells' !! c = Some o).
Proof.
  intros Hwf Hall. unfold addDependentH, addDependent.
  rewrite tableOf_lookup.
  destruct (cells !! p) as [o|] eqn:Hp; simpl.
  - destruct (Hall p o) as [l Hl]; [done..|].
    rewrite Hp, Hl, tableOf_lookup, Hp. simpl. rewrite Hl.
    destruct (decide (x ∈ readArr m l)) as [Hin|Hin].
    + by exists cells, m.
    + exists cells, (push m l x). split; [done|]. split; [|done].
      by rewrite (tableOf_push cells m p o l x) by done.
  - rewrite !lookup_insert_eq. simpl.
    rewrite readArr_alloc_fresh.
    rewrite !(decide_False (P := x ∈ [])) by (by intros ?%elem_of_nil).
    pose proof (wfMem_alloc_insert cells m p (VStr "") "" Hwf) as Hwf'.
    eexists _, _. split; [done|]. split; [|split; [by apply wfMem_push|split]].
    + erewrite tableOf_push; [|done|apply lookup_insert_eq|done].
      rewrite readArr_alloc_fresh, tableOf_insert, tableOf_alloc by done.
      by rewrite !insert_insert_eq.
    + intros c o _. rewrite lookup_insert. case_decide; subst.
      * intros [= <-]. by eexists.
      * by apply Hall.
    + intros c o Hc. rewrite lookup_insert_ne; [done|]. congruence.
Qed.

Lemma addDependentsH_sim x ps :
  ∀ cells m, wfMem cells m → haveArrays None cells →
  ∃ cells' m', forEachM (addDependentH x) ps (cells, m) = Some (cells', m') ∧
    tableOf cells' m' = foldl (addDependent x) (tableOf cells m) ps ∧
    wfMem cells' m' ∧ haveArrays None cells' ∧
    (∀ c o, cells !! c = Some o → cells' !! c = Some o).
Proof.
  induction ps as [|p ps IH]; intros cells m Hwf Hall; cbn [forEachM foldl].
  - by exists cells, m.
  - destruct (addDependentH_sim x p cells m Hwf Hall)
      as (cells1 & m1 & -> & Htab & Hwf1 & Hall1 & Hkeep1).
    destruct (IH cells1 m1 Hwf1 Hall1) as (cells2 & m2 & Hloop & Htab2 & ? & ? & Hkeep2).
    exists cells2, m2. rewrite Hloop, Htab2, Htab.
    do 4 (split; [done|]). auto.
Qed.

(** The function on objects and memory computes, read through the memory,
    what the function on tables computes; it returns when that one does. *)
Lemma updateCellAndDependentsH_sim n :
  ∀ x f cells m, wfMem cells m → haveArrays (Some x) cells →
    simulates zero falsy numToString evaluate n x f cells m.
Proof.
  unfold simulates.
  induction n as [|n IH]; intros x f cells m Hwf Hall; simpl; [done|].
  destruct (anyM _ _) as [[]|]; [| |done].
  - destruct (depsOrNew cells m x) as [l m1] eqn:Hdeps.
    destruct (depsOrNew_spec cells m x l m1 (VStr "#CIRCULAR") f Hdeps Hwf)
      as (Hwf1 & Htab & Hsame).
    split; [by rewrite Htab|]. split; [done|].
    split; [by apply haveArrays_insert|]. split.
    + intros c o l0 Hc Hl0. rewrite lookup_insert. case_decide; subst.
      * eexists. split; [done|]. simpl. f_equal. by eapply Hsame.
      * by exists o.
    + intros c Hc. rewrite lookup_insert. case_decide; [by eexists|done].
  - set (v := calculateFormula zero falsy numToString evaluate f (tableOf cells m)).
    destruct (depsOrNew cells m x) as [l m1] eqn:Hdeps.
    destruct (depsOrNew_spec cells m x l m1 v f Hdeps Hwf) as (Hwf1 & Htab1 & Hsame).
    destruct (addDependentsH_sim x (parentsOf f) _ m1 Hwf1
                (haveArrays_insert x cells v f l Hall))
      as (cells2 & m2 & -> & Htab2 & Hwf2 & Hall2 & Hkeep).
    assert (tableOf cells2 m2 = link x f (tableOf cells m)) as Hlink.
    { by rewrite Htab2, Htab1. }
    assert (readArr m2 l = depsOf (link x f (tableOf cells m)) x) as ->.
    { rewrite <- Hlink, depsOf_tableOf.
      by rewrite (Hkeep x _ (lookup_insert_eq _ _ _)). }
    assert (∀ c o l0, cells !! c = Some o → arr o = Some l0 →
              ∃ o', cells2 !! c = Some o' ∧ arr o' = Some l0) as Harr.
    { intros c o l0 Hc Hl0. destruct (decide (c = x)) as [->|Hne].
      - eexists. split; [apply Hkeep, lookup_insert_eq|]. simpl. f_equal.
        by eapply Hsame.
      - exists o. split; [|done]. apply Hkeep. by rewrite lookup_insert_ne. }
    assert (∀ c, is_Some (cells !! c) → is_Some (cells2 !! c)) as Hdom.
    { intros c [o Hc]. destruct (decide (c = x)) as [->|Hne].
      - eexists. apply Hkeep, lookup_insert_eq.
      - exists o. apply Hkeep. by rewrite lookup_insert_ne. }
    generalize (depsOf (link x f (tableOf cells m)) x) as ds.
    rewrite <- Hlink. clear Hlink Htab2 Htab1 Hkeep Hdeps Hsame.
    revert Hwf2 Hall2 Harr Hdom. generalize cells2 as u. generalize m2 as mu.
    intros mu u Hwfu Hallu Harr Hdom ds. revert mu u Hwfu Hallu Harr Hdom.
    induction ds as [|d ds IHd]; intros mu u Hwfu Hallu Harr Hdom; [done|].
    assert (refreshChild (update n) d (tableOf u mu) =
            match u !! d with
            | Some o =>
                match update n d (frm o) (tableOf u mu) with
                | Some r => Some (spread (tableOf u mu) r)
                | None => None
                end
            | None => Some (tableOf u mu)
            end) as Hpure.
    { unfold refreshChild. rewrite tableOf_lookup. by destruct (u !! d). }
    cbn [forEachM]. rewrite Hpure. unfold refreshChildH.
    destruct (u !! d) as [o|] eqn:Hd; [|by apply IHd].
    specialize (IH d (frm o) u mu Hwfu (haveArrays_weaken _ _ Hallu)).
    destruct (updateH n d (frm o) u mu) as [[res m']|].
    + destruct IH as (-> & Hwf' & Hall' & Harr' & Hdom').
      rewrite (union_absorb u res Hdom').
      rewrite spread_id.
      * apply IHd; auto.
        intros c o0 l0 Hc Hl0.
        destruct (Harr c o0 l0 Hc Hl0) as (o1 & Hc1 & Hl1). by eapply Harr'.
      * intros c. rewrite !tableOf_lookup, !fmap_is_Some. apply Hdom'.
    + by rewrite IH.
Qed.

Lemma updateCellAndDependentsH_mono n n' x f cells m r :
  n ≤ n' → updateH n x f cells m = Some r → updateH n' x f cells m = Some r.
Proof.
  revert n' x f cells m r.
  induction n as [|n IH]; intros n' x f cells m r Hle; simpl; [done|].
  destruct n' as [|n']; [lia|]. simpl.
  destruct (anyM _ _) as [b|] eqn:Hcheck; [|done].
  assert (anyM (λ parent, hasCircularDependency n' x parent (tableOf cells m))
            (parentsOf f) = Some b) as ->.
  { eapply anyM_mono; [|exact Hcheck].
    intros p b' _. apply hasCircularDependency_mono. lia. }
  destruct b; [done|].
  destruct (depsOrNew cells m x) as [l m1].
  destruct (forEachM _ _ _) as [[cells2 m2]|]; [|done].
  apply forEachM_mono. intros d [u mu] st _. unfold refreshChildH.
  destruct (u !! d) as [o|]; [|done].
  destruct (updateH n d (frm o) u mu) as [[res m']|] eqn:Hres; [|done].
  by rewrite (IH n' d (frm o) u mu (res, m')) by (lia || done).
Qed.

(** ** The component *)

Local Abbreviation step := (stepApp zero falsy numToString evaluate).
Local Abbreviation runA := (runApp zero falsy numToString evaluate).
Local Abbreviation run := (runEdits zero falsy numToString evaluate).
Local Abbreviation ok := (appOK (Num := Num)).

Lemma tableOf_handleInputChangeH x text cells m :
  tableOf (handleInputChangeH x text cells) m = handleInputChange x text (tableOf cells m).
Proof.
  unfold handleInputChangeH, handleInputChange.
  rewrite tableOf_insert, depsOf_tableOf. by unfold view.
Qed.

Lemma tableOf_tableBeforeH e cells m :
  tableOf (tableBeforeH e cells) m = tableBefore e (tableOf cells m).
Proof. destruct e; simpl; [apply tableOf_handleInputChangeH|done]. Qed.

Lemma formulaOfH_tableOf cells m x : formulaOfH cells x = formulaOf (tableOf cells m) x.
Proof.
  unfold formulaOfH, formulaOf. rewrite tableOf_lookup. by destruct (cells !! x).
Qed.

Lemma wfMem_tableBeforeH e cells m : wfMem cells m → wfMem (tableBeforeH e cells) m.
Proof.
  destruct e as [x text|x]; simpl; [|done]. intros [Hlt Hinj].
  assert (∀ c o l, handleInputChangeH x text cells !! c = Some o → arr o = Some l →
            ∃ o', cells !! c = Some o' ∧ arr o' = Some l) as Hback.
  { intros c o l. unfold handleInputChangeH.
    destruct (decide (c = x)) as [->|Hne].
    - rewrite lookup_insert_eq. intros [= <-]. simpl.
      destruct (cells !! x) as [o|]; simpl; [|done]. intros Hl. by exists o.
    - rewrite lookup_insert_ne by done. intros Hc Hl. by exists o. }
  split.
  - intros c o l Hc Hl. destruct (Hback c o l Hc Hl) as (o' & Hc' & Hl').
    by eapply Hlt.
  - intros c1 c2 o1 o2 l Hc1 Hc2 Hl1 Hl2.
    destruct (Hback c1 o1 l Hc1 Hl1) as (o1' & Hc1' & Hl1').
    destruct (Hback c2 o2 l Hc2 Hl2) as (o2' & Hc2' & Hl2').
    by eapply Hinj.
Qed.

Lemma haveArrays_tableBeforeH e cells :
  haveArrays None cells → haveArrays (Some (editedCell e)) (tableBeforeH e cells).
Proof.
  intros Hall c o Hne. destruct e as [x text|x]; simpl in *; [|by apply Hall].
  unfold handleInputChangeH. rewrite lookup_insert_ne by congruence. by apply Hall.
Qed.

Lemma sameArrays_refl (e : gmap string (@Obj Num)) : sameArrays e e.
Proof. intros c o Hc. by exists o. Qed.

Lemma sameArrays_trans (e1 e2 e3 : gmap string (@Obj Num)) :
  sameArrays e1 e2 → sameArrays e2 e3 → sameArrays e1 e3.
Proof.
  intros H12 H23 c o Hc.
  destruct (H12 c o Hc) as (o2 & Hc2 & Ho2).
  destruct (H23 c o2 Hc2) as (o3 & Hc3 & Ho3).
  exists o3. split; [done|congruence].
Qed.

Lemma sameArrays_wfMem (e e' : gmap string (@Obj Num)) m :
  sameArrays e e' → wfMem e' m → wfMem e m.
Proof.
  intros Hsame [Hlt Hinj]. split.
  - intros c o l Hc Hl. destruct (Hsame c o Hc) as (o' & Hc' & Ho').
    eapply Hlt; [exact Hc'|congruence].
  - intros c1 c2 o1 o2 l Hc1 Hc2 Hl1 Hl2.
    destruct (Hsame c1 o1 Hc1) as (o1' & Hc1' & Ho1').
    destruct (Hsame c2 o2 Hc2) as (o2' & Hc2' & Ho2').
    apply (Hinj c1 c2 o1' o2' l Hc1' Hc2'); congruence.
Qed.

Lemma sameArrays_edge (e e' : gmap string (@Obj Num)) m a b :
  sameArrays e e' → edge (tableOf e m) a b → edge (tableOf e' m) a b.
Proof.
  intros Hsame. unfold edge. rewrite !depsOf_tableOf.
  destruct (e !! a) as [o|] eqn:Ha; simpl; [|by intros ?%elem_of_nil].
  destruct (Hsame a o Ha) as (o' & -> & Ho'). simpl. by rewrite Ho'.
Qed.

Lemma sameArrays_acyclic (e e' : gmap string (@Obj Num)) m :
  sameArrays e e' → acyclic (tableOf e' m) → acyclic (tableOf e m).
Proof. intros Hsame. apply acyclic_subgraph. intros a b. by apply sameArrays_edge. Qed.

(** Along the stack of snapshots the arrays are handed on. *)
Lemma chain_sameArrays (snaps : list (gmap string (@Obj Num))) :
  (∀ i e e', snaps !! i = Some e → snaps !! S i = Some e' → sameArrays e e') →
  ∀ k i e e', snaps !! i = Some e → snaps !! (i + k) = Some e' → sameArrays e e'.
Proof.
  intros Hchain. induction k as [|k IH]; intros i e e' Hi Hj.
  - rewrite Nat.add_0_r in Hj. assert (e = e') as -> by congruence.
    apply sameArrays_refl.
  - destruct (snaps !! (i + k)) as [e1|] eqn:Hk.
    + eapply sameArrays_trans; [by eapply IH|].
      eapply Hchain; [exact Hk|]. by replace (S (i + k)) with (i + S k) by lia.
    + apply lookup_ge_None in Hk. apply lookup_lt_Some in Hj. lia.
Qed.

Lemma appOK_entry a i e :
  ok a → snapshots a !! i = Some e →
  wfMem e (memory a) ∧ haveArrays None e ∧ acyclic (tableOf e (memory a)).
Proof.
  intros (_ & _ & Hchain & Hall & elast & Hlast & Hwf & Hacyc) Hi.
  assert (sameArrays e elast) as Hsame.
  { rewrite last_lookup in Hlast.
    pose proof (lookup_lt_Some _ _ _ Hi) as Hlt.
    eapply (chain_sameArrays _ Hchain (pred (length (snapshots a)) - i) i);
      [exact Hi|].
    by replace (i + (pred (length (snapshots a)) - i))
      with (pred (length (snapshots a))) by lia. }
  split; [by eapply sameArrays_wfMem|]. split.
  - apply Hall. by eapply list_elem_of_lookup_2.
  - by eapply sameArrays_acyclic.
Qed.

Lemma appOK_initial : ok initialApp.
Proof.
  unfold appOK. simpl. split; [done|]. split; [by eexists|]. split; [|split].
  - intros [|i] e e' Hi Hj; simpl in *; done.
  - intros e ->%list_elem_of_singleton c o _ Hc. by rewrite lookup_empty in Hc.
  - exists ∅. split; [done|]. split.
    + split; intros *; by rewrite lookup_empty.
    + unfold tableOf. rewrite fmap_empty. apply acyclic_empty.
Qed.

Lemma appOK_cursor a : ok a → cursor a < length (snapshots a).
Proof.
  intros (Hcur & [cells Hshown] & _). rewrite Hshown in Hcur.
  by eapply lookup_lt_Some.
Qed.

(** A commit keeps the state of the component well formed. *)
Lemma commit_appOK n e a cells final m' :
  ok a → shown a = Some cells →
  updateH n (editedCell e) (formulaOfH (tableBeforeH e cells) (editedCell e))
    (tableBeforeH e cells) (memory a) = Some (final, m') →
  ok (mkApp (Some final) (take (cursor a + 1) (snapshots a) ++ [final])
        (length (take (cursor a + 1) (snapshots a) ++ [final]) - 1) m').
Proof.
  intros Hok Hshown Hupd.
  pose proof (appOK_cursor a Hok) as Hlt.
  destruct Hok as (Hcur & His & Hchain & Hall & Hlast). rewrite Hshown in Hcur.
  destruct (appOK_entry a (cursor a) cells) as (Hwf & Hallc & Hacyc); [|done|].
  { by split; [rewrite Hshown|]. }
  pose proof (updateCellAndDependentsH_sim n (editedCell e)
    (formulaOfH (tableBeforeH e cells) (editedCell e)) (tableBeforeH e cells) (memory a)
    (wfMem_tableBeforeH e cells _ Hwf) (haveArrays_tableBeforeH e cells Hallc)) as Hsim.
  unfold simulates in Hsim. rewrite Hupd in Hsim.
  destruct Hsim as (Hpure & Hwf' & Hall' & Harr & _).
  assert (sameArrays cells final) as Hsame.
  { intros c o Hc. destruct (Hallc c o) as [l Hl]; [done..|].
    destruct (Harr c (default o (tableBeforeH e cells !! c)) l) as (o' & Hc' & Hl').
    - destruct e as [x text|x]; simpl; [|by rewrite Hc].
      unfold handleInputChangeH. rewrite lookup_insert. case_decide; by rewrite ?Hc.
    - destruct e as [x text|x]; simpl; [|by rewrite Hc].
      unfold handleInputChangeH. rewrite lookup_insert.
      case_decide; subst; simpl; by rewrite ?Hc.
    - exists o'. split; [done|congruence]. }
  assert (length (take (cursor a + 1) (snapshots a)) = cursor a + 1) as Hlen
    by (apply length_take_le; lia).
  unfold appOK. simpl. rewrite length_app, Hlen. simpl.
  replace (cursor a + 1 + 1 - 1) with (cursor a + 1) by lia.
  split; [|split; [by eexists|split; [|split]]].
  - rewrite lookup_app_r by lia. rewrite Hlen.
    by replace (cursor a + 1 - (cursor a + 1)) with 0 by lia.
  - intros i e1 e2 Hi Hj.
    destruct (decide (S i < cursor a + 1)) as [Hin|Hout].
    + rewrite lookup_app_l, lookup_take_lt in Hi by lia.
      rewrite lookup_app_l, lookup_take_lt in Hj by lia. by eapply Hchain.
    + assert (S i = cursor a + 1) as HSi.
      { apply lookup_lt_Some in Hj. rewrite length_app, Hlen in Hj. simpl in Hj. lia. }
      rewrite lookup_app_l, lookup_take_lt in Hi by lia.
      rewrite HSi, lookup_app_r, Hlen in Hj by lia.
      replace (cursor a + 1 - (cursor a + 1)) with 0 in Hj by lia.
      simpl in Hj. injection Hj as <-.
      assert (i = cursor a) as -> by lia. by assert (e1 = cells) as -> by congruence.
  - intros e1 [Hin| ->%list_elem_of_singleton]%elem_of_app; [|done].
    apply Hall. by eapply subseteq_take.
  - exists final. split; [by rewrite last_snoc|]. split; [done|].
    eapply Update_acyclic; [eapply updateCellAndDependents_Update, Hpure|].
    rewrite tableOf_tableBeforeH. by apply tableBefore_acyclic.
Qed.

Lemma stepApp_appOK n ev a a' : ok a → step n ev a = Some a' → ok a'.
Proof.
  intros Hok. pose proof (appOK_cursor a Hok) as Hlt.
  destruct ev as [e| |]; simpl.
  - destruct (shown a) as [cells|] eqn:Hshown; [|done].
    destruct (updateH _ _ _ _ _) as [[final m']|] eqn:Hupd; [|done].
    intros [= <-]. by eapply commit_appOK.
  - case_decide; [|by intros [= <-]]. intros [= <-].
    destruct Hok as (Hcur & His & Hchain & Hall & Hlast).
    unfold appOK. simpl. split; [done|]. split; [|done].
    apply lookup_lt_is_Some. lia.
  - case_decide; [|by intros [= <-]]. intros [= <-].
    destruct Hok as (Hcur & His & Hchain & Hall & Hlast).
    unfold appOK. simpl. split; [done|]. split; [|done].
    apply lookup_lt_is_Some. lia.
Qed.

Lemma runApp_appOK n events a a' : ok a → runA n events a = Some a' → ok a'.
Proof.
  revert a. induction events as [|ev events IH]; intros a Hok; unfold runApp; simpl.
  - by intros [= <-].
  - destruct (step n ev a) as [a1|] eqn:Hstep; [|done].
    intros Hrun. eapply IH; [|exact Hrun]. by eapply stepApp_appOK.
Qed.

Lemma stepApp_returns ev a :
  ok a → ∃ n a', ∀ k, n ≤ k → step k ev a = Some a'.
Proof.
  intros Hok. destruct ev as [e| |]; simpl.
  - destruct Hok as (Hcur & [cells Hshown] & Hrest).
    assert (ok a) as Hok by (split; [done|]; split; [by eexists|done]).
    rewrite Hshown in Hcur |- *.
    destruct (appOK_entry a (cursor a) cells Hok Hcur) as (Hwf & Hallc & Hacyc).
    destruct (updateCellAndDependents_returns zero falsy numToString evaluate
      (editedCell e) (formulaOfH (tableBeforeH e cells) (editedCell e))
      (tableOf (tableBeforeH e cells) (memory a))) as [s' Hs'].
    { rewrite tableOf_tableBeforeH. by apply tableBefore_acyclic. }
    set (N := length (universe (editedCell e)
      (formulaOfH (tableBeforeH e cells) (editedCell e))
      (tableOf (tableBeforeH e cells) (memory a))) + 1) in *.
    pose proof (updateCellAndDependentsH_sim N (editedCell e)
      (formulaOfH (tableBeforeH e cells) (editedCell e)) (tableBeforeH e cells) (memory a)
      (wfMem_tableBeforeH e cells _ Hwf) (haveArrays_tableBeforeH e cells Hallc)) as Hsim.
    unfold simulates in Hsim.
    destruct (updateH N _ _ _ _) as [[final m']|] eqn:Hupd.
    + eexists N, _. intros k Hk.
      by rewrite (updateCellAndDependentsH_mono N k _ _ _ _ _ Hk Hupd).
    + rewrite (Hs' N) in Hsim by done. done.
  - exists 0. case_decide; eauto.
  - exists 0. case_decide; eauto.
Qed.

Lemma runApp_returns events a :
  ok a → ∃ n a', ∀ k, n ≤ k → runA k events a = Some a'.
Proof.
  revert a. induction events as [|ev events IH]; intros a Hok.
  - by exists 0, a.
  - destruct (stepApp_returns ev a Hok) as (n1 & a1 & Ha1).
    destruct (IH a1) as (n2 & a2 & Ha2).
    { eapply stepApp_appOK; [exact Hok|]. by apply (Ha1 n1). }
    exists (n1 `max` n2), a2. intros k Hk. unfold runApp. simpl.
    rewrite Ha1 by lia. apply Ha2. lia.
Qed.

(** A sequence of committed edits gives, on the component, the table that it
    gives on tables. *)
Lemma runApp_edits n edits :
  ∀ a cells, ok a → shown a = Some cells →
  match runA n (Committed <$> edits) a with
  | Some a' =>
      ∃ cells', shown a' = Some cells' ∧
        run n edits (tableOf cells (memory a)) = Some (tableOf cells' (memory a'))
  | None => run n edits (tableOf cells (memory a)) = None
  end.
Proof.
  induction edits as [|e edits IH]; intros a cells Hok Hshown.
  - simpl. by exists cells.
  - unfold runApp, runEdits. cbn [fmap list_fmap forEachM stepApp].
    rewrite Hshown, applyEdit_unfold.
    destruct (appOK_entry a (cursor a) cells) as (Hwf & Hallc & Hacyc); [done| |].
    { destruct Hok as (Hcur & _). by rewrite Hshown in Hcur. }
    pose proof (updateCellAndDependentsH_sim n (editedCell e)
      (formulaOfH (tableBeforeH e cells) (editedCell e)) (tableBeforeH e cells) (memory a)
      (wfMem_tableBeforeH e cells _ Hwf) (haveArrays_tableBeforeH e cells Hallc)) as Hsim.
    unfold simulates in Hsim.
    rewrite <- tableOf_tableBeforeH, <- (formulaOfH_tableOf _ (memory a)).
    destruct (updateH n _ _ _ _) as [[final m']|] eqn:Hupd.
    + destruct Hsim as (-> & _).
      apply (IH (mkApp (Some final) _ _ m') final); [|done].
      by eapply commit_appOK.
    + by rewrite Hsim.
Qed.

(** X1.  On a well-formed memory in which every cell but the edited one has
    its dependencies array, [updateCellAndDependents] on objects and memory
    returns exactly when the function on tables does, and the table it
    returns, read through the memory it returns, is the table of that
    function. *)
Theorem X1_memory_refines_table n x f cells m :
  wfMem cells m → haveArrays (Some x) cells →
  match updateH n x f cells m with
  | Some (cells', m') => update n x f (tableOf cells m) = Some (tableOf cells' m')
  | None => update n x f (tableOf cells m) = None
  end.
Proof.
  intros Hwf Hall.
  pose proof (updateCellAndDependentsH_sim n x f cells m Hwf Hall) as Hsim.
  unfold simulates in Hsim.
  destruct (updateH n x f cells m) as [[cells' m']|]; [apply Hsim|done].
Qed.

(** X2.  Whatever the user does (committed edits, undo, redo), the handlers
    return, and in the memory they leave, every snapshot of the history and
    the table shown has an acyclic dependents graph, although the commits
    push into arrays that the snapshots share. *)
Theorem X2_acyclic_with_undo events :
  ∃ n a, (∀ k, n ≤ k → runA k events initialApp = Some a) ∧
    (∀ e, e ∈ snapshots a → acyclic (tableOf e (memory a))) ∧
    (∃ cells, shown a = Some cells ∧ acyclic (tableOf cells (memory a))).
Proof.
  destruct (runApp_returns events initialApp appOK_initial) as (n & a & Ha).
  exists n, a. split; [done|].
  pose proof (runApp_appOK n events initialApp a appOK_initial (Ha n (le_n _))) as Hok.
  split.
  - intros e (i & Hi)%list_elem_of_lookup_1. by eapply appOK_entry.
  - destruct Hok as (Hcur & [cells Hshown] & Hrest). exists cells. split; [done|].
    rewrite Hshown in Hcur.
    eapply (appOK_entry a (cursor a) cells); [|done].
    split; [by rewrite Hshown|]. split; [by eexists|done].
Qed.

(** X3.  A sequence of committed edits makes the component show the table
    that [runEdits] computes; the component returns when [runEdits] does. *)
Theorem X3_edits_on_component n edits :
  match runA n (Committed <$> edits) initialApp with
  | Some a => ∃ cells, shown a = Some cells ∧ run n edits ∅ = Some (tableOf cells (memory a))
  | None => run n edits ∅ = None
  end.
Proof.
  pose proof (runApp_edits n edits initialApp ∅ appOK_initial eq_refl) as Hrun.
  simpl in Hrun. unfold tableOf in Hrun at 1 3. by rewrite fmap_empty in Hrun.
Qed.

(** The transitions of the component are those of the history manager. *)
Lemma stepApp_history n ev a a' :
  step n ev a = Some a' →
  historyOf a' =
    match ev with
    | Committed _ =>
        match shown a' with
        | Some finalState => commitSnapshot finalState (historyOf a)
        | None => historyOf a
        end
    | UndoClicked => handleUndo (historyOf a)
    | RedoClicked => handleRedo (historyOf a)
    end.
Proof.
  destruct ev as [e| |]; cbn.
  - destruct (shown a) as [cells|]; [|done].
    destruct (updateH _ _ _ _ _) as [[fs m]|]; [|done].
    intros [= <-]. reflexivity.
  - unfold handleUndo. cbn. case_decide; intros [= <-]; reflexivity.
  - unfold handleRedo. cbn. case_decide; intros [= <-]; reflexivity.
Qed.

End MemoryFacts.

(** * More properties of the engine *)

Section EngineMore.

Context {Num : Type} (zero : Num) (falsy : Num → bool) (numToString : Num → string).
Context (evaluate : string → option (@Value Num)).

Local Abbreviation calc := (calculateFormula zero falsy numToString evaluate).
Local Abbreviation plan := (formulaPlan zero falsy numToString).
Local Abbreviation link := (linkParents zero falsy numToString evaluate).
Local Abbreviation update := (updateCellAndDependents zero falsy numToString evaluate).
Local Abbreviation Upd := (Update zero falsy numToString evaluate).
Local Abbreviation Refr := (Refresh zero falsy numToString evaluate).
Local Abbreviation commit := (applyEdit zero falsy numToString evaluate).
Local Abbreviation run := (runEdits zero falsy numToString evaluate).
Local Abbreviation fresh_ := (upToDate zero falsy numToString evaluate).
Local Abbreviation cons := (consistent zero falsy numToString evaluate).

Implicit Types s u : gmap string (@Cell Num).
Implicit Types x c d p a : string.

(** ** What [calculateFormula] reads *)

Lemma valueOrZero_valueAt s p :
  valueOrZero zero falsy s p =
    if isFalsy falsy (valueAt s p) then VNum zero else valueAt s p.
Proof.
  unfold valueOrZero, valueAt, cellOr. destruct (s !! p) as [cd|]; [done|].
  reflexivity.
Qed.

Lemma substituteRefs_ext refs e s s' :
  (∀ p, p ∈ refs → valueAt s p = valueAt s' p) →
  substituteRefs zero falsy numToString refs e s =
  substituteRefs zero falsy numToString refs e s'.
Proof.
  revert e. induction refs as [|r refs IH]; intros e Hs; simpl; [done|].
  rewrite !valueOrZero_valueAt, (Hs r) by (by left).
  destruct (isErrorTag _); [done|]. apply IH. intros p Hp. apply Hs. by right.
Qed.

Lemma formulaPlan_ext f s s' :
  (∀ p, p ∈ parentsOf f → valueAt s p = valueAt s' p) → plan f s = plan f s'.
Proof.
  intros Hs. unfold formulaPlan.
  destruct (startsWithEq f) eqn:Hf; simpl; [|done].
  rewrite parentsOf_formula in Hs by done.
  by rewrite (substituteRefs_ext _ _ s s').
Qed.

Lemma calculateFormula_ext f s s' :
  (∀ p, p ∈ parentsOf f → valueAt s p = valueAt s' p) → calc f s = calc f s'.
Proof. intros Hs. unfold calculateFormula. by rewrite (formulaPlan_ext f s s'). Qed.

(** ** Committed tables are up to date *)

Lemma upToDate_ext s s' c :
  valueAt s' c = valueAt s c → formulaAt s' c = formulaAt s c →
  (∀ p, p ∈ parentsOf (formulaAt s c) → valueAt s' p = valueAt s p) →
  fresh_ s c → fresh_ s' c.
Proof.
  intros Hv Hf Hp Hup Hno. rewrite Hv, Hf, Hup.
  - apply calculateFormula_ext. intros p Hpar. symmetry. by apply Hp.
  - intros p Hpar. rewrite <- Hp by done. apply Hno. by rewrite Hf.
Qed.

Lemma upToDate_circular_parent s c p :
  p ∈ parentsOf (formulaAt s c) → valueAt s p = VStr "#CIRCULAR" → fresh_ s c.
Proof. intros Hp Hv Hno. by destruct (Hno p Hp). Qed.

(** While the children of a cell are refreshed, that cell's remaining
    children wait for their turn; [Pend d c] says that [c] waits for a caller
    [d] further up. *)
Lemma Update_Refresh_consistent :
  (∀ x f s s', Upd x f s s' →
     ∀ Pend : string → string → Prop, acyclic s →
       (∀ c, registered s c →
          c = x ∨ x ∈ parentsOf (formulaAt s c) ∨
          (∃ d, d ∈ parentsOf (formulaAt s c) ∧ Pend d c) ∨ fresh_ s c) →
       (∀ c, registered s' c →
          (∃ d, d ∈ parentsOf (formulaAt s' c) ∧ Pend d c) ∨ fresh_ s' c)) ∧
  (∀ l s s', Refr l s s' →
     ∀ (Pend : string → string → Prop) x0, acyclic s →
       (∀ c, registered s c →
          (∃ d, d ∈ parentsOf (formulaAt s c) ∧ Pend d c) ∨
          (x0 ∈ parentsOf (formulaAt s c) ∧ c ∈ l) ∨ fresh_ s c) →
       (∀ c, registered s' c →
          (∃ d, d ∈ parentsOf (formulaAt s' c) ∧ Pend d c) ∨ fresh_ s' c)).
Proof.
  apply Update_Refresh_ind.
  - intros x f s (p0 & Hp0 & Hxp0) Pend Hacyc Hs c Hreg.
    destruct (decide (c = x)) as [->|Hc].
    { exfalso. apply (Hacyc x). eapply tc_rtc_l; [exact Hxp0|]. apply tc_once.
      unfold edge. rewrite <- (circularSnapshot_depsOf x f s p0).
      apply Hreg. by rewrite circularSnapshot_formulaAt, decide_True. }
    assert (formulaAt (circularSnapshot x f s) c = formulaAt s c) as Hf.
    { by rewrite circularSnapshot_formulaAt, decide_False. }
    rewrite Hf.
    destruct (decide (x ∈ parentsOf (formulaAt s c))) as [Hx|Hx].
    { right. apply (upToDate_circular_parent _ _ x); [by rewrite Hf|].
      by rewrite circularSnapshot_valueAt, decide_True. }
    assert (registered s c) as Hreg'.
    { intros p Hp. rewrite <- (circularSnapshot_depsOf x f s p). apply Hreg.
      by rewrite Hf. }
    destruct (Hs c Hreg') as [?|[?|[?|Hok]]]; [done|done|by left|].
    right. eapply upToDate_ext; [| |  |exact Hok]; [|done|].
    + by rewrite circularSnapshot_valueAt, decide_False.
    + intros p Hp. rewrite circularSnapshot_valueAt, decide_False; [done|].
      by intros ->.
  - intros x f s s' Hno _ IH Pend Hacyc Hs.
    apply (IH Pend x); [by apply acyclic_linkParents|].
    intros c Hreg.
    destruct (decide (c = x)) as [->|Hc].
    { right. right. intros _. rewrite linkParents_value, linkParents_formula.
      apply calculateFormula_ext. intros p Hp. rewrite linkParents_value_other; [done|].
      intros ->. by apply (Hno x Hp), rtc_refl. }
    assert (formulaAt (link x f s) c = formulaAt s c) as Hf.
    { by apply linkParents_formula_other. }
    rewrite Hf.
    destruct (decide (x ∈ parentsOf (formulaAt s c))) as [Hx|Hx].
    { right. left. split; [done|]. apply Hreg. by rewrite Hf. }
    assert (registered s c) as Hreg'.
    { intros p Hp. rewrite <- Hf in Hp.
      apply Hreg, linkParents_elem in Hp as [?|[_ ->]]; done. }
    destruct (Hs c Hreg') as [?|[?|[?|Hok]]]; [done|done|by left|].
    right. right. eapply upToDate_ext; [| |  |exact Hok]; [|done|].
    + by apply linkParents_value_other.
    + intros p Hp. apply linkParents_value_other. by intros ->.
  - intros s Pend x0 _ Hs c Hreg.
    destruct (Hs c Hreg) as [?|[[_ ?%elem_of_nil]|?]]; auto; done.
  - intros c0 l s s' Hc0 _ IH Pend x0 Hacyc Hs.
    apply (IH Pend x0 Hacyc). intros c Hreg.
    destruct (Hs c Hreg) as [?|[[Hx [->|?]%elem_of_cons]|?]]; auto.
    rewrite (formulaAt_None _ _ Hc0) in Hx. by apply elem_of_nil in Hx.
  - intros c0 cd l s s1 s' Hc0 HU IH1 _ IH2 Pend x0 Hacyc Hs.
    apply (IH2 Pend x0); [by eapply Update_acyclic|].
    intros c Hreg.
    destruct (IH1 (λ d c, Pend d c ∨ (d = x0 ∧ c ∈ l)) Hacyc) with (c := c)
      as [(d & Hd & [?|[-> ?]])|?]; eauto.
    clear c Hreg. intros c Hreg.
    destruct (Hs c Hreg) as [(d & Hd & ?)|[[Hx [->|?]%elem_of_cons]|?]]; eauto 10.
Qed.

Lemma Update_consistent x f s s' :
  Upd x f s s' → acyclic s →
  (∀ c, c ≠ x → registered s c → x ∈ parentsOf (formulaAt s c) ∨ fresh_ s c) →
  cons s'.
Proof.
  intros HU Hacyc Hs c Hreg.
  destruct (proj1 Update_Refresh_consistent _ _ _ _ HU (λ _ _, False) Hacyc)
    with (c := c) as [(? & _ & [])|Hok]; [|done..].
  clear c Hreg. intros c Hreg.
  destruct (decide (c = x)); [by left|].
  destruct (Hs c) as [?|?]; auto.
Qed.

Lemma consistent_empty : cons ∅.
Proof. intros c _ _. unfold valueAt, formulaAt, cellOr. by rewrite lookup_empty. Qed.

Lemma applyEdit_consistent n e s s' :
  commit n e s = Some s' → acyclic s → cons s → cons s'.
Proof.
  rewrite applyEdit_unfold. intros HU%updateCellAndDependents_Update Hacyc Hcons.
  eapply Update_consistent; [exact HU|by apply tableBefore_acyclic|].
  intros c Hc Hreg.
  rewrite tableBefore_formulaAt by done.
  destruct (decide (editedCell e ∈ parentsOf (formulaAt s c))) as [?|Hx]; [by left|].
  right. eapply upToDate_ext; [| | |apply Hcons, (tableBefore_registered e s c); done].
  - by apply tableBefore_valueAt.
  - by apply tableBefore_formulaAt.
  - intros p Hp. apply tableBefore_valueAt. by intros ->.
Qed.

Lemma runEdits_consistent n edits s s' :
  run n edits s = Some s' → wellFormed s → cons s → cons s'.
Proof.
  revert s. induction edits as [|e edits IH]; intros s; unfold runEdits; simpl.
  - by intros [= <-].
  - destruct (commit n e s) as [s1|] eqn:Hs1; [|done].
    intros Hrun Hwf Hcons. eapply IH; [exact Hrun| |].
    + by eapply applyEdit_wellFormed.
    + eapply applyEdit_consistent; [done|apply Hwf|done].
Qed.

(** ** Edges are never taken back *)

Lemma tableBefore_edge e s a b : edge (tableBefore e s) a b ↔ edge s a b.
Proof.
  destruct e; simpl; [|done]. unfold edge. by rewrite handleInputChange_depsOf.
Qed.

Lemma applyEdit_edge n e s s' a b :
  commit n e s = Some s' → edge s a b → edge s' a b.
Proof.
  rewrite applyEdit_unfold. intros HU%updateCellAndDependents_Update%Update_extends Hab.
  eapply extends_edge; [exact HU|]. by apply tableBefore_edge.
Qed.

Lemma applyEdit_acyclic n e s s' :
  commit n e s = Some s' → acyclic s → acyclic s'.
Proof.
  rewrite applyEdit_unfold. intros HU%updateCellAndDependents_Update Hacyc.
  eapply Update_acyclic; [exact HU|]. by apply tableBefore_acyclic.
Qed.

Lemma runEdits_edge n edits s s' a b :
  run n edits s = Some s' → edge s a b → edge s' a b.
Proof.
  revert s. induction edits as [|e edits IH]; intros s; unfold runEdits; simpl.
  - by intros [= <-].
  - destruct (commit n e s) as [s1|] eqn:Hs1; [|done].
    intros Hrun Hab. eapply IH; [exact Hrun|]. by eapply applyEdit_edge.
Qed.

Lemma runEdits_acyclic n edits s s' :
  run n edits s = Some s' → acyclic s → acyclic s'.
Proof.
  revert s. induction edits as [|e edits IH]; intros s; unfold runEdits; simpl.
  - by intros [= <-].
  - destruct (commit n e s) as [s1|] eqn:Hs1; [|done].
    intros Hrun Hacyc. eapply IH; [exact Hrun|]. by eapply applyEdit_acyclic.
Qed.

Lemma runEdits_reach n edits s s' a b :
  run n edits s = Some s' → reach s a b → reach s' a b.
Proof.
  intros Hrun. apply reach_subgraph. intros ? ?. by eapply runEdits_edge.
Qed.

(** ** The stored formulas *)

Lemma applyEdit_formulaAt n e s s' c :
  commit n e s = Some s' →
  formulaAt s' c =
    match e with
    | TypeAndBlur cellId text => if decide (cellId = c) then text else formulaAt s c
    | FocusAndBlur _ => formulaAt s c
    end.
Proof.
  rewrite applyEdit_unfold. intros HU%updateCellAndDependents_Update.
  destruct (decide (c = editedCell e)) as [->|Hne].
  - rewrite (Update_formula _ _ _ _ _ _ _ _ HU), formulaOf_formulaAt.
    destruct e as [x text|x]; simpl; [|done].
    by rewrite handleInputChange_formulaAt, !decide_True.
  - rewrite (Update_formula_other _ _ _ _ _ _ _ _ _ HU) by done.
    rewrite tableBefore_formulaAt by done.
    destruct e as [x text|x]; simpl in *; [|done]. by rewrite decide_False.
Qed.

Lemma runEdits_formulaAt n edits s s' c :
  run n edits s = Some s' → formulaAt s' c = lastTyped c edits (formulaAt s c).
Proof.
  revert s. induction edits as [|e edits IH]; intros s; unfold runEdits; simpl.
  - by intros [= <-].
  - destruct (commit n e s) as [s1|] eqn:Hs1; [|done].
    intros Hrun. rewrite (IH s1 Hrun), (applyEdit_formulaAt _ _ _ _ c Hs1).
    by destruct e.
Qed.

Lemma displayValue_focused s c :
  displayValue falsy true (s !! c) = VStr (formulaAt s c).
Proof.
  unfold displayValue, formulaAt, cellOr. destruct (s !! c) as [cd|]; simpl; [|done].
  case_decide as Hf; [by rewrite Hf|done].
Qed.

(** ** Where a call adds edges and changes values *)

Lemma Update_Refresh_new_edges :
  (∀ x f s s', Upd x f s s' →
     ∀ T : string → Prop, T x → (∀ a b, T a → edge s a b → T b) →
       ∀ a b, edge s' a b → edge s a b ∨ T b) ∧
  (∀ l s s', Refr l s s' →
     ∀ T : string → Prop, (∀ d, d ∈ l → T d) → (∀ a b, T a → edge s a b → T b) →
       ∀ a b, edge s' a b → edge s a b ∨ T b).
Proof.
  apply Update_Refresh_ind.
  - intros x f s _ T _ _ a b Hab. left. by apply circularSnapshot_edge in Hab.
  - intros x f s s' _ _ IH T Hx Hcl a b Hab.
    assert (∀ a b, edge (link x f s) a b → edge s a b ∨ T b) as Hlink.
    { intros a' b' [?|[_ ->]]%linkParents_elem; auto. }
    destruct (IH T) with (a := a) (b := b) as [?|?]; auto.
    + intros d Hd. destruct (Hlink x d Hd) as [?|?]; eauto.
    + intros a' b' Ha' [?|?]%Hlink; eauto.
  - auto.
  - intros c l s s' _ _ IH T Hl Hcl. apply IH; [|done].
    intros d Hd. apply Hl. by right.
  - intros c cd l s s1 s' _ _ IH1 _ IH2 T Hl Hcl a b Hab.
    assert (∀ a b, edge s1 a b → edge s a b ∨ T b) as H1.
    { apply IH1; [|done]. apply Hl. by left. }
    destruct (IH2 T) with (a := a) (b := b) as [?|?]; auto.
    + intros d Hd. apply Hl. by right.
    + intros a' b' Ha' [?|?]%H1; eauto.
Qed.

Lemma Update_new_edges x f s s' a b :
  Upd x f s s' → edge s' a b → edge s a b ∨ reach s x b.
Proof.
  intros HU. apply (proj1 Update_Refresh_new_edges _ _ _ _ HU (reach s x)).
  - apply rtc_refl.
  - intros a' b' Ha' Hab. eapply rtc_r; [exact Ha'|exact Hab].
Qed.

Lemma Update_reach_from_edited x f s s' c :
  Upd x f s s' → tc (edge s') x c → reach s x c.
Proof.
  intros HU Hxc. apply tc_rtc in Hxc.
  assert (∀ y, rtc (edge s') y c → reach s x y → reach s x c) as Hgen.
  { clear Hxc. intros y Hyc.
    induction Hyc as [|y z w Hyz _ IH]; intros Hy; [done|].
    apply IH. destruct (Update_new_edges _ _ _ _ _ _ HU Hyz) as [Hold|?]; [|done].
    unfold reach in *. eapply rtc_r; [exact Hy|exact Hold]. }
  apply (Hgen x Hxc), rtc_refl.
Qed.

Lemma Update_frame x f s s' c :
  Upd x f s s' → ¬ reach s x c →
  valueAt s' c = valueAt s c ∧ formulaAt s' c = formulaAt s c.
Proof.
  intros HU Hxc.
  assert (c ≠ x) as Hne by (intros ->; apply Hxc, rtc_refl).
  split.
  - apply (proj1 (Update_Refresh_value _ _ _ _) _ _ _ _ HU); [done|].
    intros Htc. by apply Hxc, (Update_reach_from_edited _ f _ s').
  - by eapply Update_formula_other.
Qed.

(** ** The detector on a table with a cycle *)

Lemma hasCircularDependency_false_depth n a t s :
  hasCircularDependency n a t s = Some false →
  ∀ k b, nsteps (edge s) k a b → k < n.
Proof.
  revert a. induction n as [|n IH]; simpl; intros a; [done|].
  case_decide as Heq; [done|].
  intros Hall k b Hk. inversion Hk as [|k' ? d ? Had Hdb]; subst; [lia|].
  apply (anyM_false _ _ Hall) in Had. specialize (IH _ Had _ _ Hdb). lia.
Qed.

Lemma cycle_nsteps s c i :
  tc (edge s) c c → ∃ k, i ≤ k ∧ nsteps (edge s) k c c.
Proof.
  intros (j & Hj & Hcc)%tc_nsteps. induction i as [|i (k & Hk & IH)].
  - exists 0. split; [lia|constructor].
  - exists (j + k). split; [lia|]. by eapply nsteps_trans.
Qed.

Lemma hasCircularDependency_false_no_cycle n a t s c :
  hasCircularDependency n a t s = Some false → reach s a c → ¬ tc (edge s) c c.
Proof.
  intros Hf (k0 & Hac)%rtc_nsteps Hcc.
  destruct (cycle_nsteps s c n Hcc) as (k & Hk & Hloop).
  pose proof (hasCircularDependency_false_depth _ _ _ _ Hf _ _
                (nsteps_trans _ _ _ _ _ Hac Hloop)). lia.
Qed.

(** ** Settled tables *)

Lemma closesCycle_extends s s' c :
  extends s s' → formulaAt s' c = formulaAt s c → closesCycle s c → closesCycle s' c.
Proof.
  intros Hext Hf (p & Hp & Hcp). exists p. split; [by rewrite Hf|].
  eapply reach_subgraph; [|exact Hcp]. intros ? ?. by apply extends_edge.
Qed.

Lemma registered_closesCycle s c : registered s c → closesCycle s c → ¬ acyclic s.
Proof.
  intros Hreg (p & Hp & Hcp) Hacyc. apply (Hacyc c).
  eapply tc_rtc_l; [exact Hcp|]. apply tc_once. by apply Hreg.
Qed.

Lemma Update_Refresh_hybrid :
  (∀ x f s s', Upd x f s s' →
     (∀ c, c ≠ x → registered s c ∨ closesCycle s c) →
     ∀ c, registered s' c ∨ closesCycle s' c) ∧
  (∀ l s s', Refr l s s' →
     (∀ c, registered s c ∨ closesCycle s c) →
     ∀ c, registered s' c ∨ closesCycle s' c).
Proof.
  apply Update_Refresh_ind.
  - intros x f s (p & Hp & Hxp) Hs c.
    destruct (decide (c = x)) as [->|Hc].
    + right. exists p. split; [by rewrite circularSnapshot_formulaAt, decide_True|].
      eapply reach_subgraph; [|exact Hxp].
      intros ? ?. apply extends_edge, extends_circularSnapshot.
    + assert (formulaAt (circularSnapshot x f s) c = formulaAt s c) as Hf
        by (by rewrite circularSnapshot_formulaAt, decide_False).
      destruct (Hs c Hc) as [?|?]; [left|right].
      * eapply registered_extends; [apply extends_circularSnapshot|done..].
      * eapply closesCycle_extends; [apply extends_circularSnapshot|done..].
  - intros x f s s' _ _ IH Hs. apply IH. intros c.
    destruct (decide (c = x)) as [->|Hc]; [left; apply registered_linkParents|].
    assert (formulaAt (link x f s) c = formulaAt s c) as Hf
      by (by apply linkParents_formula_other).
    destruct (Hs c Hc) as [?|?]; [left|right].
    + eapply registered_extends; [apply extends_linkParents|done..].
    + eapply closesCycle_extends; [apply extends_linkParents|done..].
  - done.
  - auto.
  - intros c cd l s s1 s' _ _ IH1 _ IH2 Hs. apply IH2, IH1. auto.
Qed.

Lemma applyEdit_edgesRecorded n e s s' :
  commit n e s = Some s' → edgesRecorded s → edgesRecorded s'.
Proof.
  rewrite applyEdit_unfold. intros HU%updateCellAndDependents_Update Hrec.
  eapply Update_edgesRecorded; [exact HU|].
  intros c Hc Hv. apply tableBefore_registered; [done|].
  apply Hrec. by rewrite <- (tableBefore_valueAt e s c).
Qed.

Lemma settled_empty : settled zero falsy numToString evaluate ∅.
Proof.
  split; [apply wellFormed_empty|]. split; [apply consistent_empty|].
  intros c. left. intros p Hp. unfold formulaAt, cellOr in Hp.
  rewrite lookup_empty in Hp. by apply elem_of_nil in Hp.
Qed.

Lemma applyEdit_settled n e s s' :
  commit n e s = Some s' → acyclic s →
  settled zero falsy numToString evaluate s → settled zero falsy numToString evaluate s'.
Proof.
  intros Hc Hacyc (Hrec & Hcons & Hhyb). split; [|split].
  - by eapply applyEdit_edgesRecorded.
  - by eapply applyEdit_consistent.
  - rewrite applyEdit_unfold in Hc. apply updateCellAndDependents_Update in Hc.
    apply (proj1 Update_Refresh_hybrid _ _ _ _ Hc). intros c Hne.
    destruct (Hhyb c) as [?|(p & Hp & Hcp)]; [left|right].
    + by apply tableBefore_registered.
    + exists p. split; [by rewrite tableBefore_formulaAt|].
      eapply reach_subgraph; [|exact Hcp]. intros ? ?. by apply tableBefore_edge.
Qed.

(** A settled table stays settled when its dependents lists grow, as long
    as it stays acyclic. *)
Lemma settled_stable s s' :
  settled zero falsy numToString evaluate s → extends s s' →
  (∀ c, valueAt s' c = valueAt s c) → (∀ c, formulaAt s' c = formulaAt s c) →
  acyclic s' → settled zero falsy numToString evaluate s'.
Proof.
  intros (Hrec & Hcons & Hhyb) Hext Hv Hf Hacyc.
  assert (∀ c, registered s c → registered s' c) as Hreg.
  { intros c. by apply registered_extends. }
  assert (∀ c, closesCycle s c → closesCycle s' c) as Hcl.
  { intros c. by apply closesCycle_extends. }
  split; [|split].
  - intros c Hc. apply Hreg, Hrec. by rewrite <- Hv.
  - intros c Hc. destruct (Hhyb c) as [Hr|Hr].
    + eapply upToDate_ext; [apply Hv|apply Hf| |by apply Hcons].
      intros p _. apply Hv.
    + destruct (registered_closesCycle s' c); auto.
  - intros c. destruct (Hhyb c); auto.
Qed.

(** ** Letter case *)

Lemma upperChar_eq (ch : ascii) : upperChar ch = "="%char → ch = "="%char.
Proof.
  unfold upperChar. destruct (isLower ch) eqn:Hl; [|done].
  unfold isLower in Hl. apply andb_true_iff in Hl as [H1%Nat.leb_le H2%Nat.leb_le].
  intros Heq. apply (f_equal nat_of_ascii) in Heq.
  rewrite nat_ascii_embedding in Heq by lia.
  change (nat_of_ascii "=") with 61 in Heq. lia.
Qed.

Lemma toUpperCase_startsWithEq f f' :
  toUpperCase f' = toUpperCase f → startsWithEq f = true → startsWithEq f' = true.
Proof.
  destruct f as [|c r]; [done|]. destruct f' as [|c' r']; [done|]. simpl.
  intros [= Hc _] ->%Ascii.eqb_eq. apply Ascii.eqb_eq, upperChar_eq. by rewrite Hc.
Qed.

Lemma toUpperCase_substring1 f f' :
  toUpperCase f' = toUpperCase f →
  toUpperCase (substring1 f') = toUpperCase (substring1 f).
Proof.
  destruct f as [|c r], f' as [|c' r']; simpl; try done. by intros [= _ ->].
Qed.

Lemma substituteRefs_ext0 refs e s s' :
  (∀ p, p ∈ refs → valueOrZero zero falsy s' p = valueOrZero zero falsy s p) →
  substituteRefs zero falsy numToString refs e s' =
  substituteRefs zero falsy numToString refs e s.
Proof.
  revert e. induction refs as [|r refs IH]; intros e Hs; simpl; [done|].
  rewrite (Hs r) by (by left).
  destruct (isErrorTag _); [done|]. apply IH. intros p Hp. apply Hs. by right.
Qed.

(** ** A rejected edit and the dependents of the edited cell *)

Lemma Update_rejected_stale x f s s' p c :
  Upd x f s s' → p ∈ parentsOf f → reach s x p →
  c ≠ x → x ∈ parentsOf (formulaAt s c) →
  valueAt s' c = valueAt s c ∧ formulaAt s' c = formulaAt s c ∧
  calc (formulaAt s' c) s' = VStr "#ERROR".
Proof.
  intros HU Hp Hxp Hc Hx.
  rewrite (Update_rejected _ _ _ _ _ _ _ _ _ HU Hp Hxp).
  rewrite circularSnapshot_valueAt, circularSnapshot_formulaAt, !decide_False by done.
  split; [done|]. split; [done|].
  apply (calculateFormula_poison _ _ _ _ _ _ x Hx).
  by rewrite circularSnapshot_valueAt, decide_True.
Qed.

(** ** Committing what is there *)

Lemma addDependent_id x s p : x ∈ depsOf s p → addDependent x s p = s.
Proof.
  unfold depsOf, addDependent. destruct (s !! p) as [cd|] eqn:Hp; [|by intros ?%elem_of_nil].
  intros Hx. rewrite Hp. by rewrite decide_True.
Qed.

Lemma addDependents_id x s ps :
  (∀ p, p ∈ ps → x ∈ depsOf s p) → foldl (addDependent x) s ps = s.
Proof.
  induction ps as [|p ps IH]; intros Hps; simpl; [done|].
  rewrite addDependent_id by (apply Hps; by left). apply IH. intros q Hq. apply Hps. by right.
Qed.

Lemma insert_cell_id s x v f :
  is_Some (s !! x) → valueAt s x = v → formulaAt s x = f →
  <[x := mkCell v f (depsOf s x)]> s = s.
Proof.
  intros [cd Hx]. unfold valueAt, formulaAt, depsOf, cellOr. rewrite Hx. simpl.
  intros <- <-. apply insert_id. rewrite Hx. by destruct cd.
Qed.

Lemma settled_circular_value s c :
  acyclic s → settled zero falsy numToString evaluate s → closesCycle s c →
  valueAt s c = VStr "#CIRCULAR".
Proof.
  intros Hacyc (Hrec & _ & _) Hcl.
  assert (valueAt s c = VStr "#CIRCULAR" ∨ valueAt s c ≠ VStr "#CIRCULAR") as [?|Hv].
  { destruct (valueAt s c) as [v|k]; [|by right].
    destruct (decide (v = "#CIRCULAR")) as [->|?]; [by left|right; congruence]. }
  - done.
  - by destruct (registered_closesCycle s c (Hrec c Hv) Hcl).
Qed.

Lemma Update_Refresh_fixpoint :
  (∀ x f s s', Upd x f s s' →
     acyclic s → settled zero falsy numToString evaluate s → noCircularParent s →
     f = formulaAt s x → is_Some (s !! x) → s' = s) ∧
  (∀ l s s', Refr l s s' →
     acyclic s → settled zero falsy numToString evaluate s → noCircularParent s →
     s' = s).
Proof.
  apply Update_Refresh_ind.
  - intros x f s (p & Hp & Hxp) Hacyc Hset Hnc -> Hx.
    apply insert_cell_id; [done| |done].
    apply settled_circular_value; [done..|]. by exists p.
  - intros x f s s' Hno _ IH Hacyc Hset Hnc -> Hx.
    assert (registered s x) as Hreg.
    { destruct Hset as (_ & _ & Hhyb).
      destruct (Hhyb x) as [?|(p & Hp & Hxp)]; [done|]. by destruct (Hno p). }
    assert (link x (formulaAt s x) s = s) as Hlink.
    { unfold linkParents. rewrite insert_cell_id; [by apply addDependents_id|done| |done].
      destruct Hset as (_ & Hcons & _). apply Hcons; [done|]. intros p. apply Hnc. }
    rewrite Hlink in IH. by apply IH.
  - done.
  - auto.
  - intros c cd l s s1 s' Hc _ IH1 _ IH2 Hacyc Hset Hnc.
    assert (s1 = s) as ->; [|by apply IH2].
    apply IH1; [done..| |by eexists]. by rewrite (formulaAt_Some _ _ _ Hc).
Qed.

Lemma runEdits_settled n edits s s' :
  run n edits s = Some s' → acyclic s →
  settled zero falsy numToString evaluate s → settled zero falsy numToString evaluate s'.
Proof.
  revert s. induction edits as [|e edits IH]; intros s; unfold runEdits; simpl.
  - by intros [= <-].
  - destruct (commit n e s) as [s1|] eqn:Hs1; [|done].
    intros Hrun Hacyc Hset. eapply IH; [exact Hrun| |].
    + by eapply applyEdit_acyclic.
    + by eapply applyEdit_settled.
Qed.

(** ** The values follow from the formulas *)

Lemma nsteps_stack s U j a c :
  acyclic s → closedIn U s → nsteps (edge s) j a c →
  ∃ σ, length σ = j ∧ stackOK U s σ c.
Proof.
  intros Hacyc Hcl. revert c. induction j as [|j IH]; intros c Hj.
  - exists []. split; [done|apply stackOK_nil].
  - apply nsteps_inv_r in Hj as (y & Hay & Hyc).
    destruct (IH y Hay) as (σ & Hlen & Hst).
    exists (y :: σ). split; [simpl; lia|].
    apply stackOK_push; [done..| |done].
    apply Hcl. by eapply edge_lookup.
Qed.

Lemma nsteps_bound s j a c :
  acyclic s → nsteps (edge s) j a c → j ≤ length (universe "" "" s).
Proof.
  intros Hacyc Hj.
  destruct (nsteps_stack s (universe "" "" s) j a c Hacyc (closedIn_universe _ _ _) Hj)
    as (σ & <- & Hnd & Hσ).
  apply submseteq_length, NoDup_submseteq; [done|].
  intros b Hb. by apply Hσ.
Qed.

Lemma values_determined s1 s2 :
  acyclic s1 →
  settled zero falsy numToString evaluate s1 → settled zero falsy numToString evaluate s2 →
  (∀ c, formulaAt s1 c = formulaAt s2 c) →
  (∀ c, valueAt s1 c ≠ VStr "#CIRCULAR") → (∀ c, valueAt s2 c ≠ VStr "#CIRCULAR") →
  ∀ c, valueAt s1 c = valueAt s2 c.
Proof.
  intros Hacyc (Hrec1 & Hcons1 & _) (Hrec2 & Hcons2 & _) Hf Hv1 Hv2.
  assert (∀ k c, (∀ j a, nsteps (edge s1) j a c → j < k) →
            valueAt s1 c = valueAt s2 c) as Hind.
  { induction k as [|k IH]; intros c Hk.
    - specialize (Hk 0 c (nsteps_O _ _)). lia.
    - rewrite (Hcons1 c), (Hcons2 c); [|by auto..].
      rewrite <- Hf. apply calculateFormula_ext. intros p Hp. apply IH.
      intros j a Hj.
      assert (edge s1 p c) as Hpc by (by apply (Hrec1 c)).
      specialize (Hk (S j) a (nsteps_r _ _ _ _ Hj Hpc)). lia. }
  intros c. apply (Hind (S (length (universe "" "" s1)))).
  intros j a Hj. pose proof (nsteps_bound s1 j a c Hacyc Hj). lia.
Qed.

(** ** Statements *)

(** X5.  After every sequence of committed edits from the empty table, a cell
    whose value is not #CIRCULAR and whose stored formula references no cell
    with value #CIRCULAR holds the value that [calculateFormula] gives for its
    stored formula on the committed table.  Every committed edit preserves
    this on an acyclic table. *)
Theorem X5_values_up_to_date :
  (∀ edits, ∃ n s, (∀ m, n ≤ m → run m edits ∅ = Some s) ∧
     ∀ c, valueAt s c ≠ VStr "#CIRCULAR" →
       (∀ p, p ∈ parentsOf (formulaAt s c) → valueAt s p ≠ VStr "#CIRCULAR") →
       valueAt s c = calc (formulaAt s c) s) ∧
  (∀ n e s s', commit n e s = Some s' → acyclic s → cons s → cons s').
Proof.
  split.
  - intros edits.
    destruct (runEdits_returns zero falsy numToString evaluate edits ∅)
      as (n & s & Hs); [apply wellFormed_empty|].
    exists n, s. split; [done|].
    pose proof (Hs n (le_n _)) as Hrun.
    destruct (runEdits_wellFormed zero falsy numToString evaluate n edits ∅ s)
      as (_ & Hrec & _);
      [done|apply wellFormed_empty|].
    intros c Hc. apply (runEdits_consistent n edits ∅ s Hrun).
    + apply wellFormed_empty.
    + apply consistent_empty.
    + by apply Hrec.
  - apply applyEdit_consistent.
Qed.

(** X6.  A formula that the cycle check rejects for a cell stays rejected for
    that cell after any further committed edits: the path that made the check
    fire is still there, since no edit removes a dependents entry. *)
Theorem X6_rejection_is_permanent n edits s s' x f p :
  acyclic s → p ∈ parentsOf f → reach s x p → run n edits s = Some s' →
  reach s' x p ∧
  ∃ k, ∀ m, k ≤ m →
    update m x f s' = Some (circularSnapshot x f s') ∧
    valueAt (circularSnapshot x f s') x = VStr "#CIRCULAR".
Proof.
  intros Hacyc Hp Hxp Hrun.
  pose proof (runEdits_reach _ _ _ _ _ _ Hrun Hxp) as Hxp'.
  split; [done|].
  exists (length (universe x f s') + 1). intros m Hm. split.
  - eapply updateCellAndDependents_rejected; [|exact Hp|done..].
    by eapply runEdits_acyclic.
  - by rewrite circularSnapshot_valueAt, decide_True.
Qed.

(** X7.  After a sequence of committed edits the stored formula of a cell is
    the text typed into it last, as typed, or the formula it had when nothing
    was typed into it; that text is what the cell shows when it has the
    focus. *)
Theorem X7_formula_is_last_typed n edits s s' c :
  run n edits s = Some s' →
  formulaAt s' c = lastTyped c edits (formulaAt s c) ∧
  displayValue falsy true (s' !! c) = VStr (lastTyped c edits (formulaAt s c)).
Proof.
  intros Hrun. rewrite displayValue_focused.
  by rewrite (runEdits_formulaAt _ _ _ _ c Hrun).
Qed.

(** X8.  A call changes the value and the formula of no cell other than the
    edited cell and the cells that can be reached from it along dependents
    edges; it changes the formula of no cell but the edited one; and every
    dependents entry that it adds is the edited cell or a cell that could be
    reached from it. *)
Theorem X8_commit_frame n x f s s' :
  update n x f s = Some s' →
  (∀ c, ¬ reach s x c →
     valueAt s' c = valueAt s c ∧ formulaAt s' c = formulaAt s c) ∧
  (∀ c, c ≠ x → formulaAt s' c = formulaAt s c) ∧
  (∀ a b, edge s' a b → edge s a b ∨ reach s x b).
Proof.
  intros HU%updateCellAndDependents_Update. split; [|split].
  - intros c Hc. by eapply Update_frame.
  - intros c Hc. by eapply Update_formula_other.
  - intros a b. by eapply Update_new_edges.
Qed.

(** X9.  On a table in which a cycle of dependents edges can be reached from
    the start cell, the detector never returns false; when the target cannot
    be reached from the start cell, it does not return at any depth of the
    call stack. *)
Theorem X9_detector_on_cycle s a t c :
  reach s a c → tc (edge s) c c →
  (∀ n, hasCircularDependency n a t s ≠ Some false) ∧
  (¬ reach s a t → ∀ n, hasCircularDependency n a t s = None).
Proof.
  intros Hac Hcc.
  assert (∀ n, hasCircularDependency n a t s ≠ Some false) as Hnf.
  { intros n Hf. by eapply (hasCircularDependency_false_no_cycle n a t s c). }
  split; [done|]. intros Hat n.
  destruct (hasCircularDependency n a t s) as [[]|] eqn:Hr; [| |done].
  - by apply hasCircularDependency_true in Hr.
  - by destruct (Hnf n).
Qed.

(** X17.  What [calculateFormula] reads of a formula of ASCII text that
    starts with "=" is its text in upper case and, for each cell that the
    text references, the value of the cell with the empty values read as 0:
    two such formulas that differ in the case of letters only have the same
    references, and on tables that agree on those cells they get the same
    value. *)
Theorem X17_formula_reads f f' s s' :
  asciiText f → asciiText f' →
  startsWithEq f = true → toUpperCase f' = toUpperCase f →
  (∀ p, p ∈ parentsOf f →
     valueOrZero zero falsy s' p = valueOrZero zero falsy s p) →
  parentsOf f' = parentsOf f ∧ plan f' s' = plan f s ∧ calc f' s' = calc f s.
Proof.
  intros _ _ Hf Hup Hs.
  pose proof (toUpperCase_startsWithEq f f' Hup Hf) as Hf'.
  assert (parentsOf f' = parentsOf f) as Hpar.
  { unfold parentsOf. by rewrite Hf, Hf', Hup. }
  assert (plan f' s' = plan f s) as Hplan.
  { unfold formulaPlan. rewrite Hf, Hf'. simpl.
    rewrite (toUpperCase_substring1 f f' Hup).
    rewrite parentsOf_formula in Hs by done.
    by rewrite (substituteRefs_ext0 _ _ s s'). }
  split; [done|]. split; [done|]. unfold calculateFormula. by rewrite Hplan.
Qed.

(** X18.  On an acyclic settled table in which no formula references a cell
    with value #CIRCULAR, leaving an existing cell without typing commits
    the table as it is. *)
Theorem X18_blur_without_typing s x :
  acyclic s → settled zero falsy numToString evaluate s → noCircularParent s →
  is_Some (s !! x) →
  ∃ n, ∀ m, n ≤ m → commit m (FocusAndBlur x) s = Some s.
Proof.
  intros Hacyc Hset Hnc Hx.
  destruct (applyEdit_returns zero falsy numToString evaluate (FocusAndBlur x) s Hacyc)
    as (n & s' & Hs').
  exists n. intros m Hm. rewrite (Hs' m Hm). f_equal.
  pose proof (Hs' m Hm) as Hc. rewrite applyEdit_unfold in Hc. simpl in Hc.
  apply updateCellAndDependents_Update in Hc.
  apply (proj1 Update_Refresh_fixpoint _ _ _ _ Hc); [done..| |done].
  apply formulaOf_formulaAt.
Qed.

(** X19.  The dependents of a cell whose edit is rejected are not refreshed:
    a cell that references the rejected cell keeps its value and its formula,
    while [calculateFormula] now answers #ERROR for that formula. *)
Theorem X19_rejected_edit_leaves_dependents n x f s s' p c :
  update n x f s = Some s' → p ∈ parentsOf f → reach s x p →
  c ≠ x → x ∈ parentsOf (formulaAt s c) →
  valueAt s' c = valueAt s c ∧ formulaAt s' c = formulaAt s c ∧
  calc (formulaAt s' c) s' = VStr "#ERROR".
Proof.
  intros HU%updateCellAndDependents_Update. by apply Update_rejected_stale.
Qed.

(** X20.  What the cell component shows agrees with what the engine reads:
    a cell is drawn in red exactly when [calculateFormula] takes its value
    for an error tag, so that every formula that references it is answered
    with #ERROR; and a cell that does not have the focus is shown empty
    exactly when formulas read it as 0. *)
Theorem X20_display_matches_engine s c :
  falsy zero = true →
  (textColor (s !! c) = red ↔ isErrorTag (valueOrZero zero falsy s c) = true) ∧
  (textColor (s !! c) = red → ∀ f, c ∈ parentsOf f → calc f s = VStr "#ERROR") ∧
  (displayValue falsy false (s !! c) = VStr "" ↔ valueOrZero zero falsy s c = VNum zero).
Proof.
  intros Hzero.
  assert (textColor (s !! c) = red ↔ isErrorTag (valueOrZero zero falsy s c) = true) as Hred.
  { unfold textColor, valueOrZero. destruct (s !! c) as [cd|]; [|done].
    destruct (value cd) as [v|k]; simpl.
    - repeat case_decide; subst; simpl; try done; by repeat case_decide.
    - by destruct (falsy k). }
  split; [done|]. split.
  - intros Hr f Hf.
    pose proof (parentsOf_startsWithEq _ _ Hf) as Hfe.
    rewrite parentsOf_formula in Hf by done.
    unfold calculateFormula.
    by rewrite (formulaPlan_poison zero falsy numToString f s c Hfe Hf) by (by apply Hred).
  - unfold displayValue, valueOrZero. destruct (s !! c) as [cd|]; [|done].
    destruct (value cd) as [v|k]; simpl.
    + case_decide; subst; [done|]. split; [congruence|done].
    + destruct (falsy k) eqn:Hk; [done|]. split; [done|]. intros [= ->]. congruence.
Qed.

Lemma tableBefore_extends e s : extends s (tableBefore e s).
Proof.
  destruct e as [x text|x]; simpl; [|apply extends_refl]. split.
  - intros c. by rewrite handleInputChange_depsOf.
  - intros c Hc. unfold handleInputChange. rewrite lookup_insert. by case_decide.
Qed.

Lemma runEdits_extends n edits s s' : run n edits s = Some s' → extends s s'.
Proof.
  revert s. induction edits as [|e edits IH]; intros s; unfold runEdits; simpl.
  - intros [= <-]. apply extends_refl.
  - destruct (commit n e s) as [s1|] eqn:Hs1; [|done].
    intros Hrun. eapply extends_trans; [|by apply IH].
    rewrite applyEdit_unfold in Hs1.
    eapply extends_trans; [apply tableBefore_extends|].
    by eapply Update_extends, updateCellAndDependents_Update.
Qed.

(** X22.  Over a sequence of committed edits no cell leaves the table and no
    entry leaves a dependents list: every dependents list of the table at
    the start is the beginning of the list in the table at the end. *)
Theorem X22_nothing_is_removed n edits s s' c :
  run n edits s = Some s' →
  (is_Some (s !! c) → is_Some (s' !! c)) ∧ depsOf s c `prefix_of` depsOf s' c.
Proof.
  intros [Hp Hd]%runEdits_extends. split; [apply Hd|apply Hp].
Qed.

(** X23.  A committed text that does not start with "=" is never rejected by
    the cycle check and is stored unchanged, as a string, as the value and
    the formula of the cell, on every table on which the call returns. *)
Theorem X23_literal_commit n x text s s' :
  startsWithEq text = false → update n x text s = Some s' →
  valueAt s' x = VStr text ∧ formulaAt s' x = text ∧ parentsOf text = [].
Proof.
  intros Hlit HU%updateCellAndDependents_Update.
  pose proof (Update_formula _ _ _ _ _ _ _ _ HU) as Hform.
  split; [|split; [done|by apply parentsOf_literal]].
  destruct (proj1 (Update_Refresh_literal _ _ _ _) _ _ _ _ HU) as [Hx _].
  unfold literalOK in Hx. rewrite Hform in Hx. by apply Hx.
Qed.

(** X24.  On an acyclic table the loop of the cycle check returns, and it
    returns true exactly when the table with the edited cell written and
    registered with its references would not be acyclic. *)
Theorem X24_cycle_check_exact x f s :
  acyclic s →
  ∃ r, (∀ n, length (universe x "" s) ≤ n →
          anyM (λ parent, hasCircularDependency n x parent s) (parentsOf f) = Some r) ∧
       (r = true ↔ ¬ acyclic (link x f s)).
Proof.
  intros Hacyc.
  destruct (cycleCheck_returns x f s Hacyc) as (r & Hr & Hiff).
  exists r. split; [done|]. split.
  - intros (p & Hp & Hxp)%Hiff. by eapply cyclic_linkParents.
  - intros Hcyc. destruct r; [done|]. destruct Hcyc.
    apply acyclic_linkParents; [done|].
    intros p Hp Hxp. by assert (false = true) by (apply Hiff; eauto).
Qed.

(** X25.  The values of a committed table follow from its formulas: two
    sequences of committed edits from the empty table that leave the same
    text in every cell give every cell the same value, when no cell of
    either table has the value #CIRCULAR. *)
Theorem X25_values_follow_formulas n edits1 edits2 s1 s2 :
  run n edits1 ∅ = Some s1 → run n edits2 ∅ = Some s2 →
  (∀ c, lastTyped c edits1 "" = lastTyped c edits2 "") →
  (∀ c, valueAt s1 c ≠ VStr "#CIRCULAR") → (∀ c, valueAt s2 c ≠ VStr "#CIRCULAR") →
  ∀ c, valueAt s1 c = valueAt s2 c.
Proof.
  intros H1 H2 Hlast Hv1 Hv2.
  apply values_determined; [| | |  |done..].
  - eapply runEdits_acyclic; [exact H1|apply acyclic_empty].
  - eapply runEdits_settled; [exact H1|apply acyclic_empty|apply settled_empty].
  - eapply runEdits_settled; [exact H2|apply acyclic_empty|apply settled_empty].
  - intros c. rewrite (runEdits_formulaAt _ _ _ _ c H1), (runEdits_formulaAt _ _ _ _ c H2).
    unfold formulaAt, cellOr. rewrite lookup_empty. apply Hlast.
Qed.

(** ** Dependents are cells of the table *)








(** ** Cells that a refresh leaves alone *)







End EngineMore.

(** * More properties of the history manager *)

Section HistoryMore.

Context {A : Type}.

Implicit Types st : @HistoryState A.

Lemma validHistory_initial (empty : A) : validHistory (initialHistory empty).
Proof. split; simpl; [lia|done]. Qed.

Lemma validHistory_commit S st : validHistory (commitSnapshot S st).
Proof.
  unfold validHistory, commitSnapshot, saveToHistory. simpl.
  rewrite length_app. simpl. split; [lia|].
  rewrite lookup_app_r by lia.
  by replace (_ - _) with 0 by lia.
Qed.

Lemma validHistory_undo st : validHistory st → validHistory (handleUndo st).
Proof.
  intros [Hlt Hc]. unfold handleUndo. case_decide; [|done].
  split; simpl; [lia|done].
Qed.

Lemma validHistory_redo st : validHistory st → validHistory (handleRedo st).
Proof.
  intros [Hlt Hc]. unfold handleRedo. case_decide; [|done].
  split; simpl; [lia|done].
Qed.

Lemma validHistory_step st ev : validHistory st → validHistory (stepHistory st ev).
Proof.
  destruct ev; simpl;
    auto using validHistory_commit, validHistory_undo, validHistory_redo.
Qed.

Lemma validHistory_run evs st : validHistory st → validHistory (runHistory evs st).
Proof.
  revert st. induction evs as [|ev evs IH]; intros st Hv; [done|].
  apply IH. by apply validHistory_step.
Qed.

Lemma stepHistory_first st ev :
  validHistory st → history (stepHistory st ev) !! 0 = history st !! 0.
Proof.
  intros [Hlt _]. destruct ev as [S| |]; simpl.
  - rewrite lookup_app_l by (rewrite length_take; lia).
    apply lookup_take_lt. lia.
  - by rewrite handleUndo_history.
  - by rewrite handleRedo_history.
Qed.

Lemma runHistory_first evs st :
  validHistory st → history (runHistory evs st) !! 0 = history st !! 0.
Proof.
  revert st. induction evs as [|ev evs IH]; intros st Hv; [done|].
  change (runHistory (ev :: evs) st) with (runHistory evs (stepHistory st ev)).
  rewrite IH by (by apply validHistory_step).
  by apply stepHistory_first.
Qed.

Lemma handleRedo_handleUndo st :
  validHistory st → 0 < historyIndex st → handleRedo (handleUndo st) = st.
Proof.
  intros [Hlt Hc] Hpos. destruct st as [c h i]. simpl in *.
  unfold handleUndo. simpl. rewrite decide_True by done.
  unfold handleRedo. simpl. rewrite decide_True by lia.
  replace (i - 1 + 1) with i by lia. by rewrite Hc.
Qed.

Lemma handleUndo_handleRedo st :
  validHistory st → historyIndex st < length (history st) - 1 →
  handleUndo (handleRedo st) = st.
Proof.
  intros [Hlt Hc] Hpos. destruct st as [c h i]. simpl in *.
  unfold handleRedo. simpl. rewrite decide_True by done.
  unfold handleUndo. simpl. rewrite decide_True by lia.
  replace (i + 1 - 1) with i by lia. by rewrite Hc.
Qed.

Lemma undoDisabled_spec st : undoDisabled st = true ↔ handleUndo st = st.
Proof.
  unfold undoDisabled, handleUndo. rewrite bool_decide_eq_true.
  case_decide as Hi; split; try done; try lia.
  intros Heq. apply (f_equal historyIndex) in Heq. simpl in Heq. lia.
Qed.

Lemma redoDisabled_spec st :
  validHistory st → redoDisabled st = true ↔ handleRedo st = st.
Proof.
  intros [Hlt _]. unfold redoDisabled, handleRedo. rewrite bool_decide_eq_true.
  case_decide as Hi; split; try done; try lia.
  intros Heq. apply (f_equal historyIndex) in Heq. simpl in Heq. lia.
Qed.

Lemma handleUndo_iter k st :
  validHistory st →
  cells (Nat.iter k handleUndo st) = history st !! (historyIndex st - k) ∧
  historyIndex (Nat.iter k handleUndo st) = historyIndex st - k ∧
  history (Nat.iter k handleUndo st) = history st.
Proof.
  intros [Hlt Hc]. induction k as [|k (IH1 & IH2 & IH3)]; simpl.
  - by rewrite Nat.sub_0_r.
  - unfold handleUndo at 1 3 5. rewrite IH2. case_decide as Hpos; simpl.
    + rewrite IH3. replace (historyIndex st - k - 1) with (historyIndex st - S k) by lia.
      done.
    + rewrite IH1, IH2, IH3. by replace (historyIndex st - S k) with (historyIndex st - k) by lia.
Qed.

(** X10.  In every state that commits, undos and redos lead to, the cursor
    points into the history and the table shown is the entry under it; undo
    followed by redo gives the state back when the cursor is not at the first
    entry, and redo followed by undo gives it back when the cursor is not at
    the last. *)
Theorem X10_undo_redo_inverse (empty : A) evs :
  let st := runHistory evs (initialHistory empty) in
  validHistory st ∧
  (0 < historyIndex st → handleRedo (handleUndo st) = st) ∧
  (historyIndex st < length (history st) - 1 → handleUndo (handleRedo st) = st).
Proof.
  intros st.
  assert (validHistory st) as Hv by apply validHistory_run, validHistory_initial.
  split; [done|]. split.
  - by apply handleRedo_handleUndo.
  - by apply handleUndo_handleRedo.
Qed.

(** X11.  In every state that commits, undos and redos lead to, the Undo
    button is disabled exactly when [handleUndo] would leave the state as it
    is, and the Redo button exactly when [handleRedo] would. *)
Theorem X11_toolbar_matches_handlers (empty : A) evs :
  let st := runHistory evs (initialHistory empty) in
  (undoDisabled st = true ↔ handleUndo st = st) ∧
  (redoDisabled st = true ↔ handleRedo st = st).
Proof.
  intros st. split; [apply undoDisabled_spec|].
  apply redoDisabled_spec, validHistory_run, validHistory_initial.
Qed.

(** X12.  The first entry of the history is the initial table whatever has
    been committed, undone and redone; undo, clicked at least as often as the
    cursor says, shows it. *)
Theorem X12_undo_to_start (empty : A) evs :
  let st := runHistory evs (initialHistory empty) in
  history st !! 0 = Some empty ∧
  ∀ k, historyIndex st ≤ k → cells (Nat.iter k handleUndo st) = Some empty.
Proof.
  intros st.
  assert (validHistory st) as Hv by apply validHistory_run, validHistory_initial.
  assert (history st !! 0 = Some empty) as H0.
  { unfold st. by rewrite runHistory_first by apply validHistory_initial. }
  split; [done|]. intros k Hk.
  destruct (handleUndo_iter k st Hv) as (-> & _).
  by replace (historyIndex st - k) with 0 by lia.
Qed.

End HistoryMore.

(** * The references of a formula and the cell ids of the grid *)

Section Grid.

Lemma span_spec p s a b :
  span p s = (a, b) →
  s = a +:+ b ∧ allChars p a = true ∧
  match b with String c _ => p c = false | EmptyString => True end.
Proof.
  revert a b. induction s as [|c r IH]; simpl; intros a b.
  - by intros [= <- <-].
  - destruct (p c) eqn:Hc.
    + destruct (span p r) as [a' b'] eqn:Hr. intros [= <- <-].
      destruct (IH a' b' eq_refl) as (-> & Ha & Hb). simpl. by rewrite Hc.
    + intros [= <- <-]. simpl. by rewrite Hc.
Qed.

Lemma span_all p s b :
  allChars p s = true →
  match b with String c _ => p c = false | EmptyString => True end →
  span p (s +:+ b) = (s, b).
Proof.
  intros Hs Hb. induction s as [|c r IH]; simpl in *.
  - destruct b as [|c r]; simpl; [done|]. by rewrite Hb.
  - apply andb_true_iff in Hs as [-> Hr]. by rewrite IH.
Qed.

Lemma string_app_nil_r (s : string) : s +:+ "" = s.
Proof.
  induction s as [|c s IH]; [done|].
  change (String c (s +:+ "") = String c s). by rewrite IH.
Qed.

(** A match of the pattern is a run of upper-case letters followed by a run
    of digits, neither of them empty. *)
Lemma matchRefAt_shape s m rest :
  matchRefAt s = Some (m, rest) →
  ∃ L D, m = L +:+ D ∧ L ≠ "" ∧ D ≠ "" ∧
    allChars isUpper L = true ∧ allChars isDigit D = true.
Proof.
  unfold matchRefAt.
  destruct (span isUpper s) as [L r1] eqn:HL.
  destruct (span isDigit r1) as [D r2] eqn:HD.
  destruct (span_spec _ _ _ _ HL) as (_ & HLu & _).
  destruct (span_spec _ _ _ _ HD) as (_ & HDd & _).
  destruct L as [|c L]; [done|]. destruct D as [|d D]; [done|].
  intros [= <- <-]. by exists (String c L), (String d D).
Qed.

Lemma matchRefsFrom_shape n s m :
  m ∈ matchRefsFrom n s →
  ∃ L D, m = L +:+ D ∧ L ≠ "" ∧ D ≠ "" ∧
    allChars isUpper L = true ∧ allChars isDigit D = true.
Proof.
  revert s. induction n as [|n IH]; intros s; simpl; [by intros ?%elem_of_nil|].
  destruct s as [|c r]; [by intros ?%elem_of_nil|].
  destruct (matchRefAt (String c r)) as [[m' rest]|] eqn:Hm; [|apply IH].
  intros [->|?]%elem_of_cons; [by eapply matchRefAt_shape|by eapply IH].
Qed.

Lemma parentsOf_shape f p :
  p ∈ parentsOf f →
  ∃ L D, p = L +:+ D ∧ L ≠ "" ∧ D ≠ "" ∧
    allChars isUpper L = true ∧ allChars isDigit D = true.
Proof.
  unfold parentsOf. destruct (startsWithEq f); [|by intros ?%elem_of_nil].
  apply matchRefsFrom_shape.
Qed.

Lemma isDigit_not_isUpper c : isDigit c = true → isUpper c = false.
Proof.
  unfold isDigit, isUpper. intros [H1 H2]%andb_true_iff.
  apply Nat.leb_le in H1, H2. apply andb_false_iff. left. apply Nat.leb_gt. lia.
Qed.

Lemma isDigit_not_isLower c : isDigit c = true → isLower c = false.
Proof.
  unfold isDigit, isLower. intros [H1 H2]%andb_true_iff.
  apply Nat.leb_le in H1, H2. apply andb_false_iff. left. apply Nat.leb_gt. lia.
Qed.

Lemma isUpper_not_isLower c : isUpper c = true → isLower c = false.
Proof.
  unfold isUpper, isLower. intros [H1 H2]%andb_true_iff.
  apply Nat.leb_le in H1, H2. apply andb_false_iff. left. apply Nat.leb_gt. lia.
Qed.

Lemma toUpperCase_digits s : allChars isDigit s = true → toUpperCase s = s.
Proof.
  induction s as [|c r IH]; simpl; [done|].
  intros [Hc Hr]%andb_true_iff. rewrite IH by done.
  unfold upperChar. by rewrite isDigit_not_isLower.
Qed.

(** A reference on its own is the one match of the pattern in it. *)
Lemma matchRefAt_letter_digits c D :
  isUpper c = true → D ≠ "" → allChars isDigit D = true →
  matchRefAt (String c D) = Some (String c D, "").
Proof.
  intros Hc HD Hd. unfold matchRefAt.
  assert (span isUpper (String c D) = (String c "", D)) as ->.
  { cbn [span]. rewrite Hc.
    assert (span isUpper D = ("", D)) as ->; [|done].
    apply (span_all isUpper "" D); [done|].
    destruct D as [|d D]; [done|]. simpl in Hd.
    apply andb_true_iff in Hd as [Hd _]. by apply isDigit_not_isUpper. }
  assert (span isDigit D = (D, "")) as ->.
  { rewrite <- (string_app_nil_r D) at 1. by apply span_all. }
  by destruct D.
Qed.

Lemma matchRefs_letter_digits c D :
  isUpper c = true → D ≠ "" → allChars isDigit D = true →
  matchRefs (String "=" (String c D)) = [String c D].
Proof.
  intros Hc HD Hd. unfold matchRefs.
  change (String.length (String "=" (String c D))) with (S (S (String.length D))).
  cbn [matchRefsFrom].
  change (matchRefAt (String "=" (String c D))) with (@None (string * string)).
  cbv iota. rewrite matchRefAt_letter_digits by done.
  by destruct (String.length D).
Qed.

(** ** Decimal numerals *)

Lemma pretty_N_char_digit y : isDigit (pretty_N_char y) = true.
Proof. unfold pretty_N_char. by repeat case_match. Qed.

Lemma pretty_N_go_digits x s :
  allChars isDigit s = true → allChars isDigit (pretty_N_go x s) = true.
Proof.
  revert s. induction (N.lt_wf_0 x) as [x _ IH]; intros s Hs.
  assert (x = 0 ∨ 0 < x)%N as [->|?] by lia; [by rewrite pretty_N_go_0|].
  rewrite pretty_N_go_step by done. apply IH; [by apply N.div_lt|].
  simpl. by rewrite pretty_N_char_digit.
Qed.

Lemma pretty_N_go_nonempty x s : s ≠ "" → pretty_N_go x s ≠ "".
Proof.
  revert s. induction (N.lt_wf_0 x) as [x _ IH]; intros s Hs.
  assert (x = 0 ∨ 0 < x)%N as [->|?] by lia; [by rewrite pretty_N_go_0|].
  rewrite pretty_N_go_step by done. apply IH; [by apply N.div_lt|done].
Qed.

Lemma pretty_nat_digits (n : nat) :
  pretty n ≠ "" ∧ allChars isDigit (pretty n) = true.
Proof.
  unfold pretty, pretty_nat, pretty, pretty_N. case_decide as Hn; [done|].
  split; [|by apply pretty_N_go_digits].
  rewrite pretty_N_go_step by lia. by apply pretty_N_go_nonempty.
Qed.

(** ** The grid *)

Lemma gridOK_initial : gridOK initialGrid.
Proof.
  split; intros i x Hi; simpl in Hi;
    do 10 (destruct i as [|i]; [by injection Hi as <-|]); done.
Qed.

Lemma gridOK_step g ev : gridOK g → gridOK (stepGrid g ev).
Proof.
  intros [Hc Hr]. destruct ev; split; cbn [stepGrid cols rows]; try done.
  - unfold addColumn. intros i col [[_ ?]|[-> [= <-]]]%lookup_snoc_Some; [by apply Hc|done].
  - unfold addRow. intros i row [[_ ?]|[-> [= <-]]]%lookup_snoc_Some; [by apply Hr|done].
Qed.

Lemma gridOK_run evs g : gridOK g → gridOK (runGrid evs g).
Proof.
  revert g. induction evs as [|ev evs IH]; intros g Hg; [done|].
  apply IH. by apply gridOK_step.
Qed.

Lemma cellIdOf_fromCharCode n row :
  cellIdOf (fromCharCode n) row = String (ascii_of_nat n) (pretty row).
Proof. reflexivity. Qed.

Lemma isUpper_code i : i < 26 → isUpper (ascii_of_nat (65 + i)) = true.
Proof.
  intros Hi. unfold isUpper. rewrite nat_ascii_embedding by lia.
  apply andb_true_iff. split; apply Nat.leb_le; lia.
Qed.

Lemma isUpper_code_inv i :
  65 + i < 256 → isUpper (ascii_of_nat (65 + i)) = true → i < 26.
Proof.
  intros Hi. unfold isUpper. rewrite nat_ascii_embedding by lia.
  intros [_ H2%Nat.leb_le]%andb_true_iff. lia.
Qed.

Lemma upperChar_lower_code i :
  32 ≤ i < 58 → upperChar (ascii_of_nat (65 + i)) = ascii_of_nat (65 + (i - 32)).
Proof.
  intros Hi. unfold upperChar, isLower. rewrite nat_ascii_embedding by lia.
  replace (97 <=? 65 + i) with true by (symmetry; apply Nat.leb_le; lia).
  replace (65 + i <=? 122) with true by (symmetry; apply Nat.leb_le; lia).
  simpl. f_equal. lia.
Qed.

Lemma parentsOf_own_name c c' D :
  upperChar c = c' → isUpper c' = true → D ≠ "" → allChars isDigit D = true →
  parentsOf (String "=" (String c D)) = [String c' D].
Proof.
  intros Hup Hc' HD Hd. unfold parentsOf.
  change (startsWithEq (String "=" (String c D))) with true. cbv iota.
  change (toUpperCase (String "=" (String c D)))
    with (String "=" (String (upperChar c) (toUpperCase D))).
  rewrite Hup, toUpperCase_digits by done.
  by apply matchRefs_letter_digits.
Qed.

Lemma upperChar_upper c : isUpper c = true → upperChar c = c.
Proof. intros Hc. unfold upperChar. by rewrite isUpper_not_isLower. Qed.

(** X13.  In a grid made by [addColumn] and [addRow], a cell can be referenced
    by a formula exactly when its column is among the first 26: the header of
    a later column is not an upper-case letter.  The name of a cell in the
    first 26 columns references that cell; the name of a cell in columns 33
    to 58, whose headers are the lower-case letters, references the cell 32
    columns to its left. *)
Theorem X13_referenceable_columns evs i col row :
  cols (runGrid evs initialGrid) !! i = Some col → i < 63 →
  ((∃ f, cellIdOf col row ∈ parentsOf f) ↔ i < 26) ∧
  (i < 26 → parentsOf ("=" +:+ cellIdOf col row) = [cellIdOf col row]) ∧
  (32 ≤ i < 58 →
     parentsOf ("=" +:+ cellIdOf col row) = [cellIdOf (fromCharCode (65 + (i - 32))) row]).
Proof.
  intros Hcol Hi.
  destruct (gridOK_run evs initialGrid gridOK_initial) as [Hc _].
  rewrite (Hc i col Hcol). rewrite !cellIdOf_fromCharCode.
  destruct (pretty_nat_digits row) as [Hne Hd].
  assert (i < 26 → parentsOf ("=" +:+ String (ascii_of_nat (65 + i)) (pretty row))
                   = [String (ascii_of_nat (65 + i)) (pretty row)]) as Hown.
  { intros Hlt. apply parentsOf_own_name; [|by apply isUpper_code|done..].
    by apply upperChar_upper, isUpper_code. }
  split; [|split; [done|]].
  - split.
    + intros (f & (L & D & Heq & HL & _ & HLu & _)%parentsOf_shape).
      destruct L as [|l L]; [done|].
      change (String l L +:+ D) with (String l (L +:+ D)) in Heq.
      assert (l = ascii_of_nat (65 + i)) as -> by congruence.
      cbn [allChars] in HLu. apply andb_true_iff in HLu as [Hl _].
      apply isUpper_code_inv in Hl; lia.
    + intros Hlt. eexists. rewrite (Hown Hlt). by left.
  - intros Hlow. apply parentsOf_own_name; [|apply isUpper_code; lia|done..].
    by apply upperChar_lower_code.
Qed.

Lemma fromCharCode_inj n m : n < 256 → m < 256 → fromCharCode n = fromCharCode m → n = m.
Proof.
  intros Hn Hm [= Heq]. apply (f_equal nat_of_ascii) in Heq.
  by rewrite !nat_ascii_embedding in Heq.
Qed.

(** X14.  In a grid made by [addColumn] and [addRow] with at most 63 columns,
    no two positions have the same cell id. *)
Theorem X14_grid_ids_distinct evs :
  let g := runGrid evs initialGrid in
  length (cols g) ≤ 63 → NoDup (gridIds g).
Proof.
  intros g Hlen.
  destruct (gridOK_run evs initialGrid gridOK_initial) as [Hc Hr]. fold g in Hc, Hr.
  assert (NoDup (cols g)) as Hcols.
  { apply NoDup_alt. intros i j col Hi Hj.
    pose proof (lookup_lt_Some _ _ _ Hi). pose proof (lookup_lt_Some _ _ _ Hj).
    apply Hc in Hi, Hj. subst col.
    apply fromCharCode_inj in Hj; lia. }
  assert (NoDup (rows g)) as Hrows.
  { apply NoDup_alt. intros i j row Hi Hj. apply Hr in Hi, Hj. lia. }
  assert (∀ col row col' row', col ∈ cols g → col' ∈ cols g →
            cellIdOf col row = cellIdOf col' row' → col = col' ∧ row = row') as Hinj.
  { intros col row col' row' [i Hi]%list_elem_of_lookup [j Hj]%list_elem_of_lookup.
    pose proof (lookup_lt_Some _ _ _ Hi). pose proof (lookup_lt_Some _ _ _ Hj).
    rewrite (Hc i col Hi), (Hc j col' Hj), !cellIdOf_fromCharCode.
    intros Heq.
    assert (ascii_of_nat (65 + i) = ascii_of_nat (65 + j) ∧ pretty row = pretty row')
      as [Hij Hrow] by (split; congruence).
    apply (f_equal nat_of_ascii) in Hij. rewrite !nat_ascii_embedding in Hij by lia.
    assert (i = j) as -> by lia.
    split; [done|]. by apply (inj pretty). }
  unfold gridIds. apply NoDup_bind; [| |done].
  - intros row row' y _ _ (col & ->%list_elem_of_singleton & Hcol)%list_elem_of_bind
      (col' & Hy%list_elem_of_singleton & Hcol')%list_elem_of_bind.
    by destruct (Hinj col row col' row').
  - intros row _. apply NoDup_bind; [| |done].
    + intros col col' y Hcol Hcol' ->%list_elem_of_singleton Hy%list_elem_of_singleton.
      by destruct (Hinj col row col' row).
    + intros col _. apply NoDup_singleton.
Qed.

End Grid.

(** * What the evaluator is given *)

Section Substitution.

Context {Num : Type} (zero : Num) (falsy : Num → bool) (numToString : Num → string).

Local Abbreviation notUpper := (λ ch : ascii, negb (isUpper ch)).

Lemma string_app_assoc (a b c : string) : (a +:+ b) +:+ c = a +:+ (b +:+ c).
Proof.
  induction a as [|x a IH]; [done|].
  change (String x ((a +:+ b) +:+ c) = String x (a +:+ (b +:+ c))). by rewrite IH.
Qed.

Lemma string_length_app (a b : string) :
  String.length (a +:+ b) = String.length a + String.length b.
Proof.
  induction a as [|x a IH]; [done|].
  change (S (String.length (a +:+ b)) = S (String.length a + String.length b)).
  by rewrite IH.
Qed.

Lemma allChars_app p (a b : string) :
  allChars p (a +:+ b) = allChars p a && allChars p b.
Proof.
  induction a as [|x a IH]; [done|].
  change (p x && allChars p (a +:+ b) = p x && allChars p a && allChars p b).
  rewrite IH. by destruct (p x).
Qed.

Lemma allChars_impl (p q : ascii → bool) (s : string) :
  (∀ ch, p ch = true → q ch = true) → allChars p s = true → allChars q s = true.
Proof.
  intros Hpq. induction s as [|x s IH]; simpl; [done|].
  intros [Hx Hs]%andb_true_iff. by rewrite (Hpq x Hx), IH.
Qed.

Lemma matchRefAt_app s m rest : matchRefAt s = Some (m, rest) → s = m +:+ rest.
Proof.
  unfold matchRefAt.
  destruct (span isUpper s) as [L r1] eqn:HL.
  destruct (span isDigit r1) as [D r2] eqn:HD.
  destruct (span_spec _ _ _ _ HL) as (-> & _ & _).
  destruct (span_spec _ _ _ _ HD) as (-> & _ & _).
  destruct L as [|ch L]; [done|]. destruct D as [|d D]; [done|].
  intros [= <- <-]. by rewrite string_app_assoc.
Qed.

Lemma prefix_app (m rest : string) : String.prefix m (m +:+ rest) = true.
Proof.
  induction m as [|x m IH]; [by destruct rest|].
  change (String.prefix (String x m) (String x (m +:+ rest)) = true).
  simpl. by destruct (ascii_dec x x).
Qed.

Lemma substring_all (s : string) : String.substring 0 (String.length s) s = s.
Proof. induction s as [|x s IH]; simpl; [done|]. by rewrite IH. Qed.

Lemma substring_app (m rest : string) :
  String.substring (String.length m)
    (String.length (m +:+ rest) - String.length m) (m +:+ rest) = rest.
Proof.
  rewrite string_length_app.
  replace (String.length m + String.length rest - String.length m)
    with (String.length rest) by lia.
  induction m as [|x m IH]; [apply substring_all|exact IH].
Qed.

Lemma findFirst_unfold pat s before :
  findFirst pat s before =
    if String.prefix pat s
    then Some (before, String.substring (String.length pat)
                         (String.length s - String.length pat) s)
    else match s with
         | EmptyString => None
         | String ch r => findFirst pat r (before +:+ String ch EmptyString)
         end.
Proof. by destruct s. Qed.

(** After a text without upper-case letters, the first occurrence of a text
    that starts with an upper-case letter is where that text stands. *)
Lemma findFirst_after_plain Q l L rest before :
  allChars notUpper Q = true → isUpper l = true →
  findFirst (String l L) (Q +:+ String l L +:+ rest) before = Some (before +:+ Q, rest).
Proof.
  intros HQ Hl. revert before. induction Q as [|ch Q IH]; intros before.
  - change ("" +:+ String l L +:+ rest) with (String l L +:+ rest).
    rewrite findFirst_unfold, prefix_app, substring_app.
    by rewrite string_app_nil_r.
  - simpl in HQ. apply andb_true_iff in HQ as [Hch HQ].
    change (String ch Q +:+ String l L +:+ rest) with (String ch (Q +:+ String l L +:+ rest)).
    rewrite findFirst_unfold.
    assert (String.prefix (String l L) (String ch (Q +:+ String l L +:+ rest)) = false) as ->.
    { simpl. destruct (ascii_dec l ch) as [->|?]; [|done].
      by rewrite Hl in Hch. }
    rewrite (IH HQ). by rewrite string_app_assoc.
Qed.

Lemma getSubstitution_plain matched before after rep :
  allChars plainChar rep = true → getSubstitution matched before after rep = rep.
Proof.
  induction rep as [|ch rep IH]; simpl; [done|].
  intros [[_ Hd%negb_true_iff]%andb_true_iff Hrep]%andb_true_iff.
  by rewrite Hd, IH.
Qed.

Lemma jsReplace_after_plain Q l L rest rep :
  allChars notUpper Q = true → isUpper l = true → allChars plainChar rep = true →
  jsReplace (Q +:+ String l L +:+ rest) (String l L) rep = Q +:+ rep +:+ rest.
Proof.
  intros HQ Hl Hrep. unfold jsReplace.
  rewrite findFirst_after_plain by done.
  by rewrite getSubstitution_plain.
Qed.

Lemma matchRefAt_head s m rest :
  matchRefAt s = Some (m, rest) → ∃ l L, m = String l L ∧ isUpper l = true.
Proof.
  intros (L & D & -> & HL & _ & HLu & _)%matchRefAt_shape.
  destruct L as [|l L]; [done|]. simpl in HLu. apply andb_true_iff in HLu as [Hl _].
  by exists l, (L +:+ D).
Qed.

Lemma substituteRefs_replace n (tbl : gmap string (@Cell Num)) P s0 :
  allChars notUpper P = true →
  (∀ m, m ∈ matchRefsFrom n s0 →
     isErrorTag (valueOrZero zero falsy tbl m) = false ∧
     allChars plainChar (valueToString numToString (valueOrZero zero falsy tbl m)) = true) →
  allChars notUpper (replaceRefsFrom n (λ _, "") s0) = true →
  substituteRefs zero falsy numToString (matchRefsFrom n s0) (P +:+ s0) tbl =
    Some (P +:+ replaceRefsFrom n
            (λ m, valueToString numToString (valueOrZero zero falsy tbl m)) s0).
Proof.
  revert P s0. induction n as [|n IH]; intros P s0 HP Hrefs Hgaps; [done|].
  cbn [matchRefsFrom replaceRefsFrom] in *.
  destruct s0 as [|ch r]; [done|].
  destruct (matchRefAt (String ch r)) as [[m rest]|] eqn:Hm.
  - destruct (matchRefAt_head _ _ _ Hm) as (l & L & -> & Hl).
    rewrite (matchRefAt_app _ _ _ Hm).
    destruct (Hrefs (String l L)) as [Herr Hplain]; [by left|].
    cbn [substituteRefs]. rewrite Herr.
    rewrite jsReplace_after_plain by done.
    rewrite <- string_app_assoc. rewrite IH.
    + by rewrite string_app_assoc.
    + rewrite allChars_app, HP. simpl.
      eapply allChars_impl; [|exact Hplain].
      intros ? [? _]%andb_true_iff. done.
    + intros m Hin. apply Hrefs. by right.
    + exact Hgaps.
  - cbn [allChars] in Hgaps. apply andb_true_iff in Hgaps as [Hch Hgaps].
    change (P +:+ String ch r) with (P +:+ (String ch "" +:+ r)).
    rewrite <- string_app_assoc. rewrite IH.
    + by rewrite string_app_assoc.
    + rewrite allChars_app, HP. simpl. by rewrite Hch.
    + done.
    + done.
Qed.

(** X21.  For a formula of ASCII text whose text in upper case has no letter
    outside its references, when no referenced cell holds an error tag and
    the text of every referenced value has no upper-case letter and no
    dollar sign, the evaluator is given the text in which every reference is replaced, where
    it stands, by the text of the value of the cell: 0 for an empty or
    absent cell, and no parentheses around a value. *)
Theorem X21_references_replaced_in_place f (tbl : gmap string (@Cell Num)) :
  asciiText f → startsWithEq f = true →
  (∀ m, m ∈ matchRefs (toUpperCase (substring1 f)) →
     isErrorTag (valueOrZero zero falsy tbl m) = false ∧
     allChars plainChar (valueToString numToString (valueOrZero zero falsy tbl m)) = true) →
  allChars (λ ch, negb (isUpper ch))
    (replaceRefs (λ _, "") (toUpperCase (substring1 f))) = true →
  formulaPlan zero falsy numToString f tbl =
    Evaluate (replaceRefs (λ m, valueToString numToString (valueOrZero zero falsy tbl m))
                (toUpperCase (substring1 f))).
Proof.
  intros _ Hf Hrefs Hgaps. unfold formulaPlan. rewrite Hf. simpl.
  pose proof (substituteRefs_replace (String.length (toUpperCase (substring1 f))) tbl ""
                (toUpperCase (substring1 f)) eq_refl Hrefs Hgaps) as Hsub.
  change ("" +:+ toUpperCase (substring1 f)) with (toUpperCase (substring1 f)) in Hsub.
  unfold matchRefs. rewrite Hsub. done.
Qed.

End Substitution.

(** * The component with undo and redo *)

Section MemoryMore.

Context {Num : Type} (zero : Num) (falsy : Num → bool) (numToString : Num → string).
Context (evaluate : string → option (@Value Num)).

Local Abbreviation calc := (calculateFormula zero falsy numToString evaluate).
Local Abbreviation update := (updateCellAndDependents zero falsy numToString evaluate).
Local Abbreviation updateH := (updateCellAndDependentsH zero falsy numToString evaluate).
Local Abbreviation commit := (applyEdit zero falsy numToString evaluate).
Local Abbreviation step := (stepApp zero falsy numToString evaluate).
Local Abbreviation runA := (runApp zero falsy numToString evaluate).
Local Abbreviation ok := (appOK (Num := Num)).
Local Abbreviation okS := (appSettled zero falsy numToString evaluate).
Local Abbreviation sett := (settled zero falsy numToString evaluate).

Implicit Types cells : gmap string (@Obj Num).
Implicit Types m : Mem.
Implicit Types x c p : string.
Implicit Types l : positive.

(** ** Arrays only grow *)

Lemma memExtends_refl m : memExtends m m.
Proof. split; [lia|done]. Qed.

Lemma memExtends_trans m1 m2 m3 :
  memExtends m1 m2 → memExtends m2 m3 → memExtends m1 m3.
Proof.
  intros [Hf1 Hp1] [Hf2 Hp2]. split; [lia|].
  intros l Hl. etrans; [by apply Hp1|]. apply Hp2. lia.
Qed.

Lemma memExtends_allocMem m : memExtends m (allocMem m).
Proof.
  split; [rewrite fresh_allocMem; lia|].
  intros l Hl. rewrite readArr_alloc; [done|lia].
Qed.

Lemma memExtends_push m l x : memExtends m (push m l x).
Proof.
  split; [simpl; lia|]. intros l' _. rewrite readArr_push.
  case_decide; subst; [by apply prefix_app_r|done].
Qed.

Lemma depsOrNew_memExtends cells m x l m1 :
  depsOrNew cells m x = (l, m1) → memExtends m m1.
Proof.
  unfold depsOrNew, alloc. destruct (cells !! x) as [o|]; [destruct (arr o)|];
    intros [= <- <-]; auto using memExtends_refl, memExtends_allocMem.
Qed.

Lemma addDependentH_memExtends x p cells m cells' m' :
  addDependentH x p (cells, m) = Some (cells', m') → memExtends m m'.
Proof.
  unfold addDependentH, alloc.
  destruct (cells !! p) as [o0|] eqn:Hp.
  - rewrite Hp. destruct (arr o0) as [l|]; [|done].
    case_decide; intros [= <- <-]; auto using memExtends_refl, memExtends_push.
  - rewrite lookup_insert_eq. simpl.
    case_decide; intros [= <- <-]; [apply memExtends_allocMem|].
    eapply memExtends_trans; [apply memExtends_allocMem|apply memExtends_push].
Qed.

Lemma addDependentsH_memExtends x ps cells m cells' m' :
  forEachM (addDependentH x) ps (cells, m) = Some (cells', m') → memExtends m m'.
Proof.
  revert cells m. induction ps as [|p ps IH]; intros cells m; cbn [forEachM].
  - intros [= <- <-]. apply memExtends_refl.
  - destruct (addDependentH x p (cells, m)) as [[c1 m1]|] eqn:H1; [|done].
    intros H2. eapply memExtends_trans; [by eapply addDependentH_memExtends|by eapply IH].
Qed.

Lemma updateCellAndDependentsH_memExtends n x f cells m cells' m' :
  updateH n x f cells m = Some (cells', m') → memExtends m m'.
Proof.
  revert x f cells m cells' m'. induction n as [|n IH]; intros x f cells m cells' m'; [done|].
  cbn [updateCellAndDependentsH].
  destruct (anyM _ _) as [[]|]; [| |done].
  - destruct (depsOrNew cells m x) as [l m1] eqn:Hd. intros [= <- <-].
    by eapply depsOrNew_memExtends.
  - destruct (depsOrNew cells m x) as [l m1] eqn:Hd.
    destruct (forEachM (addDependentH x) _ _) as [[u m2]|] eqn:Hadd; [|done].
    intros Hloop.
    eapply memExtends_trans; [by eapply depsOrNew_memExtends|].
    eapply memExtends_trans; [by eapply addDependentsH_memExtends|].
    revert Hloop. generalize (readArr m2 l). intros children.
    clear Hadd. revert u m2.
    induction children as [|d children IHc]; intros u m2; cbn [forEachM refreshChildH].
    + intros [= <- <-]. apply memExtends_refl.
    + destruct (u !! d) as [o|]; [|apply IHc].
      destruct (updateH n d (frm o) u m2) as [[res m3]|] eqn:Hres; [|done].
      intros Hrest. eapply memExtends_trans; [by eapply IH|by eapply IHc].
Qed.

Lemma stepApp_memExtends n ev a a' :
  step n ev a = Some a' → memExtends (memory a) (memory a').
Proof.
  destruct ev as [e| |]; simpl.
  - destruct (shown a) as [cells|]; [|done].
    destruct (updateH _ _ _ _ _) as [[final m']|] eqn:Hupd; [|done].
    intros [= <-]. simpl. by eapply updateCellAndDependentsH_memExtends.
  - case_decide; intros [= <-]; apply memExtends_refl.
  - case_decide; intros [= <-]; apply memExtends_refl.
Qed.

Lemma runApp_memExtends n events a a' :
  runA n events a = Some a' → memExtends (memory a) (memory a').
Proof.
  revert a. induction events as [|ev events IH]; intros a; unfold runApp; simpl.
  - intros [= <-]. apply memExtends_refl.
  - destruct (step n ev a) as [a1|] eqn:Hstep; [|done].
    intros Hrun. eapply memExtends_trans; [by eapply stepApp_memExtends|by eapply IH].
Qed.

(** A table of objects read through a later memory: the same values and
    formulas, and dependents lists that start with the earlier ones. *)
Lemma tableOf_memExtends cells m m' :
  wfMem cells m → memExtends m m' →
  extends (tableOf cells m) (tableOf cells m') ∧
  (∀ c, valueAt (tableOf cells m') c = valueAt (tableOf cells m) c) ∧
  (∀ c, formulaAt (tableOf cells m') c = formulaAt (tableOf cells m) c).
Proof.
  intros [Hlt _] [_ Hpre]. split; [split|split].
  - intros c. rewrite !depsOf_tableOf.
    destruct (cells !! c) as [o|] eqn:Hc; simpl; [|done].
    destruct (arr o) as [l|] eqn:Hl; [|done]. apply Hpre. by eapply Hlt.
  - intros c. rewrite !tableOf_lookup. by destruct (cells !! c).
  - intros c. unfold valueAt, cellOr. rewrite !tableOf_lookup.
    by destruct (cells !! c).
  - intros c. unfold formulaAt, cellOr. rewrite !tableOf_lookup.
    by destruct (cells !! c).
Qed.

(** ** Every snapshot stays settled *)

Lemma appSettled_initial : okS initialApp.
Proof.
  split; [apply appOK_initial|].
  intros e ->%list_elem_of_singleton. unfold tableOf. rewrite fmap_empty.
  apply settled_empty.
Qed.

Lemma stepApp_appSettled n ev a a' : okS a → step n ev a = Some a' → okS a'.
Proof.
  intros [Hok Hall] Hstep.
  pose proof (stepApp_appOK _ _ _ _ n ev a a' Hok Hstep) as Hok'.
  pose proof (stepApp_memExtends n ev a a' Hstep) as Hext.
  split; [done|].
  assert (∀ e, e ∈ snapshots a → e ∈ snapshots a' → sett (tableOf e (memory a'))) as Hold.
  { intros e [i Hi]%list_elem_of_lookup_1 [j Hj]%list_elem_of_lookup_1.
    destruct (appOK_entry a i e Hok Hi) as (Hwf & _ & _).
    destruct (appOK_entry a' j e Hok' Hj) as (_ & _ & Hacyc').
    destruct (tableOf_memExtends e _ _ Hwf Hext) as (He & Hv & Hf).
    eapply settled_stable; [apply Hall, list_elem_of_lookup_2 with i; exact Hi|done..]. }
  destruct ev as [e| |]; simpl in Hstep.
  - destruct (shown a) as [cells|] eqn:Hshown; [|done].
    destruct (updateH _ _ _ _ _) as [[final m']|] eqn:Hupd; [|done].
    injection Hstep as <-. simpl in *.
    intros e1 [Hin| ->%list_elem_of_singleton]%elem_of_app.
    + apply Hold; [by eapply subseteq_take|]. apply elem_of_app. by left.
    + destruct Hok as (Hcur & His & Hrest). rewrite Hshown in Hcur.
      assert (ok a) as Hok by (split; [by rewrite Hshown|done]).
      destruct (appOK_entry a (cursor a) cells Hok Hcur) as (Hwf & Hallc & Hacyc).
      pose proof (updateCellAndDependentsH_sim zero falsy numToString evaluate n (editedCell e)
        (formulaOfH (tableBeforeH e cells) (editedCell e)) (tableBeforeH e cells) (memory a)
        (wfMem_tableBeforeH e cells _ Hwf) (haveArrays_tableBeforeH e cells Hallc)) as Hsim.
      unfold simulates in Hsim. rewrite Hupd in Hsim. destruct Hsim as (Hpure & _).
      eapply (applyEdit_settled _ _ _ _ n e (tableOf cells (memory a))); [|done|].
      * rewrite applyEdit_unfold. rewrite <- tableOf_tableBeforeH.
        by rewrite <- (formulaOfH_tableOf _ (memory a)).
      * apply Hall. by eapply list_elem_of_lookup_2.
  - case_decide; injection Hstep as <-; [|done]. simpl. intros e He. by apply Hold.
  - case_decide; injection Hstep as <-; [|done]. simpl. intros e He. by apply Hold.
Qed.

Lemma runApp_appSettled n events a a' : okS a → runA n events a = Some a' → okS a'.
Proof.
  revert a. induction events as [|ev events IH]; intros a Hok; unfold runApp; simpl.
  - by intros [= <-].
  - destruct (step n ev a) as [a1|] eqn:Hstep; [|done].
    intros Hrun. eapply IH; [|exact Hrun]. by eapply stepApp_appSettled.
Qed.

(** X15.  Whatever the user does (committed edits, undo, redo), in the table
    that the component shows a cell whose value is not #CIRCULAR and whose
    stored formula references no cell with value #CIRCULAR holds the value
    that [calculateFormula] gives for its stored formula on that table, and
    is a dependent of every cell that its stored formula references. *)
Theorem X15_up_to_date_with_undo events :
  ∃ n a, (∀ k, n ≤ k → runA k events initialApp = Some a) ∧
    ∃ cells, shown a = Some cells ∧
      (∀ c, valueAt (tableOf cells (memory a)) c ≠ VStr "#CIRCULAR" →
         (∀ p, p ∈ parentsOf (formulaAt (tableOf cells (memory a)) c) →
            valueAt (tableOf cells (memory a)) p ≠ VStr "#CIRCULAR") →
         valueAt (tableOf cells (memory a)) c =
           calc (formulaAt (tableOf cells (memory a)) c) (tableOf cells (memory a))) ∧
      (∀ c p, valueAt (tableOf cells (memory a)) c ≠ VStr "#CIRCULAR" →
         p ∈ parentsOf (formulaAt (tableOf cells (memory a)) c) →
         c ∈ depsOf (tableOf cells (memory a)) p).
Proof.
  destruct (runApp_returns zero falsy numToString evaluate events initialApp)
    as (n & a & Ha); [apply appOK_initial|].
  exists n, a. split; [done|].
  destruct (runApp_appSettled n events initialApp a appSettled_initial (Ha n (le_n _)))
    as [(Hcur & [cells Hshown] & _) Hall].
  exists cells. split; [done|]. rewrite Hshown in Hcur.
  destruct (Hall cells) as (Hrec & Hcons & _); [by eapply list_elem_of_lookup_2|].
  split.
  - intros c Hc. by apply Hcons, Hrec.
  - intros c p Hc Hp. by apply Hrec.
Qed.

(** X16.  What the component does later changes no value and no formula of
    a snapshot that the history holds, and removes nothing from its
    dependents lists: read through the later memory, every dependents list
    of the snapshot starts with the list it had. *)
Theorem X16_snapshots_gain_dependents_only n events events' a a' e :
  runA n events initialApp = Some a → runA n events' a = Some a' →
  e ∈ snapshots a →
  (∀ c, valueAt (tableOf e (memory a')) c = valueAt (tableOf e (memory a)) c ∧
        formulaAt (tableOf e (memory a')) c = formulaAt (tableOf e (memory a)) c ∧
        depsOf (tableOf e (memory a)) c `prefix_of` depsOf (tableOf e (memory a')) c).
Proof.
  intros Ha Ha' [i Hi]%list_elem_of_lookup_1 c.
  pose proof (runApp_appOK _ _ _ _ n events initialApp a (appOK_initial) Ha) as Hok.
  destruct (appOK_entry a i e Hok Hi) as (Hwf & _ & _).
  destruct (tableOf_memExtends e _ _ Hwf (runApp_memExtends n events' a a' Ha'))
    as ([Hp _] & Hv & Hf).
  auto.
Qed.

End MemoryMore.

(** * The claims on concrete tables *)

Section Examples.

Lemma run_sheet1 :
  Demo.run 3 [TypeAndBlur "A1" "5"; TypeAndBlur "B1" "=A1+1"] ∅ = Some Demo.sheet1.
Proof. vm_compute. reflexivity. Qed.


Lemma sheet1_wellFormed : wellFormed Demo.sheet1.
Proof.
  eapply runEdits_wellFormed; [exact run_sheet1|apply wellFormed_empty].
Qed.


Lemma sheet1_edge : edge Demo.sheet1 "A1" "B1".
Proof. unfold edge. compute_done. Qed.

Lemma no_dependents_no_path {Num} (s : gmap string (@Cell Num)) a b :
  depsOf s a = [] → ¬ tc (edge s) a b.
Proof.
  intros Hnil Hab. apply tc_rtc_r with (z := b) in Hab; [|apply rtc_refl].
  inversion Hab as [? ? Hedge|? ? ? Hedge _]; subst;
    unfold edge in Hedge; rewrite Hnil in Hedge; by apply elem_of_nil in Hedge.
Qed.


(** C1 at the table of scenario 1: the edit A1 = "=B1" would close a cycle. *)
Lemma C1_witness :
  ∃ n s', (∀ m, n ≤ m → Demo.update m "A1" "=B1" Demo.sheet1 = Some s') ∧
    valueAt s' "A1" = VStr "#CIRCULAR" ∧ ∀ c, depsOf s' c = depsOf Demo.sheet1 c.
Proof.
  apply (proj2 (C1_acyclic_commits 0%Z Demo.falsy Demo.numToString Demo.evaluate)).
  - apply sheet1_wellFormed.
  - eapply cyclic_linkParents with (p := "B1"); [compute_done|].
    apply rtc_once, sheet1_edge.
Defined.

(** C2 fails as stated: after scenario 2 the formula of A1 references B1,
    and A1 is not a dependent of B1. *)
Lemma C2_counterexample :
  ∃ s, Demo.run 3 [TypeAndBlur "A1" "5"; TypeAndBlur "B1" "=A1+1";
                   TypeAndBlur "A1" "=B1"] ∅ = Some s ∧
    "B1" ∈ parentsOf (formulaAt s "A1") ∧ "A1" ∉ depsOf s "B1".
Proof.
  eexists. split; [vm_compute; reflexivity|]. split; compute_done.
Qed.

(** C2, as amended, at the commit of B1 = "=A1+1" on the empty table. *)
Lemma C2_witness :
  ∃ s', Demo.update 2 "B1" "=A1+1" ∅ = Some s' ∧ edgesRecorded s'.
Proof.
  eexists. split; [vm_compute; reflexivity|].
  eapply (proj2 (C2_references_recorded 0%Z Demo.falsy Demo.numToString Demo.evaluate)
            2 "B1" "=A1+1" ∅).
  - vm_compute. reflexivity.
  - apply wellFormed_empty.
Defined.

(** C3 fails as stated: on the table of scenario 1 the detector called with
    the edited cell A1 and the candidate parent B1 returns true, and A1 can
    not be reached from B1. *)
Lemma C3_counterexample :
  hasCircularDependency 2 "A1" "B1" Demo.sheet1 = Some true ∧
  ¬ ("B1" = "A1" ∨ tc (edge Demo.sheet1) "B1" "A1").
Proof.
  split; [vm_compute; reflexivity|].
  intros [?|Hpath]; [done|].
  eapply no_dependents_no_path; [|exact Hpath]. reflexivity.
Qed.

(** C3, as amended, at the same call. *)
Lemma C3_witness :
  true = true ↔ "A1" = "B1" ∨ tc (edge Demo.sheet1) "A1" "B1".
Proof.
  apply (proj1 (@C3_cycle_detector Z) 2 "A1" "B1" Demo.sheet1 true).
  vm_compute. reflexivity.
Defined.

(** C4.  The undo after a commit does not bring back the table that was
    current before the commit.  After C1 = 5 the component shows a table in
    which C1 has no dependent.  After the commit of Z99 = "=C1" and an undo
    it shows the same entry of the history, and in the table that this entry
    now denotes Z99 is a dependent of C1: the commit pushed Z99 into the
    array that the entry shares with its successor. *)
Theorem C4_undo_after_commit :
  ∃ a a' cells,
    Demo.runApp 3 [Committed (TypeAndBlur "C1" "5")] initialApp = Some a ∧
    Demo.runApp 3 [Committed (TypeAndBlur "Z99" "=C1"); UndoClicked] a = Some a' ∧
    shown a = Some cells ∧ shown a' = Some cells ∧
    tableOf cells (memory a) !! "C1" = Some (mkCell (VStr "5") "5" []) ∧
    tableOf cells (memory a') !! "C1" = Some (mkCell (VStr "5") "5" ["Z99"]) ∧
    tableOf cells (memory a') ≠ tableOf cells (memory a).
Proof.
  eexists _, _, _. split; [vm_compute; reflexivity|].
  split; [vm_compute; reflexivity|]. split; [reflexivity|]. split; [reflexivity|].
  split; [vm_compute; reflexivity|]. split; [vm_compute; reflexivity|].
  intros Heq. apply (f_equal (λ t, depsOf t "C1")) in Heq. vm_compute in Heq. done.
Qed.



(** C6 at the table of scenario 1 and the edit A1 = "=B1". *)
Lemma C6_witness :
  ∃ n s', (∀ m, n ≤ m → Demo.update m "A1" "=B1" Demo.sheet1 = Some s') ∧
    s' !! "A1" = Some (mkCell (VStr "#CIRCULAR") "=B1" (depsOf Demo.sheet1 "A1")) ∧
    (∀ c, c ≠ "A1" → s' !! c = Demo.sheet1 !! c) ∧
    (∀ c, depsOf s' c = depsOf Demo.sheet1 c).
Proof.
  apply (proj2 (C6_rejected_edit 0%Z Demo.falsy Demo.numToString Demo.evaluate)
           "A1" "=B1" Demo.sheet1 "B1").
  - apply sheet1_wellFormed.
  - compute_done.
  - right. apply tc_once, sheet1_edge.
Defined.




(** C8 at the table of scenario 1 and the edit A1 = 7. *)
Lemma C8_witness :
  (∃ n s', ∀ m, n ≤ m → Demo.update m "A1" "7" Demo.sheet1 = Some s') ∧
  (∀ targetCell, ∃ n r, ∀ m, n ≤ m →
     hasCircularDependency m "A1" targetCell Demo.sheet1 = Some r).
Proof.
  apply (C8_termination 0%Z Demo.falsy Demo.numToString Demo.evaluate).
  apply sheet1_wellFormed.
Defined.

(** C9 at the table of scenario 1 and the edit B1 = 7: B1 stays a dependent
    of A1 although its formula no longer references A1. *)
Lemma C9_witness :
  ∃ s', Demo.update 3 "B1" "7" Demo.sheet1 = Some s' ∧
    parentsOf (formulaAt s' "B1") = [] ∧
    ∀ c, depsOf Demo.sheet1 c `prefix_of` depsOf s' c ∧
         ∀ d, d ∈ depsOf Demo.sheet1 c → d ∈ depsOf s' c.
Proof.
  eexists. split; [vm_compute; reflexivity|]. split; [reflexivity|].
  apply (C9_dependents_grow 0%Z Demo.falsy Demo.numToString Demo.evaluate 3 "B1" "7").
  vm_compute. reflexivity.
Defined.

(** C10 for the text #ERROR typed into A1 of the table of scenario 1. *)
Lemma C10_witness :
  (∀ n x s s', updateCellAndDependents 0%Z Demo.falsy Demo.numToString Demo.evaluate
                 n x "#ERROR" s = Some s' →
     valueAt s' x = VStr "#ERROR" ∧ formulaAt s' x = "#ERROR" ∧
     ∀ g, x ∈ parentsOf g →
       formulaPlan 0%Z Demo.falsy Demo.numToString g s' = Return (VStr "#ERROR") ∧
       calculateFormula 0%Z Demo.falsy Demo.numToString Demo.evaluate g s'
         = VStr "#ERROR") ∧
  (∀ x s, acyclic s → ∃ n s', ∀ m, n ≤ m →
     updateCellAndDependents 0%Z Demo.falsy Demo.numToString Demo.evaluate
       m x "#ERROR" s = Some s').
Proof.
  apply (C10_literal_tags 0%Z Demo.falsy Demo.numToString Demo.evaluate "#ERROR").
  by left.
Defined.

(** X1 at the empty table and the edit C1 = "=Z99+1". *)
Lemma X1_witness :
  match updateCellAndDependentsH 0%Z Demo.falsy Demo.numToString Demo.evaluate
          3 "C1" "=Z99+1" ∅ (mkMem ∅ 1%positive) with
  | Some (cells', m') => Demo.update 3 "C1" "=Z99+1" (tableOf ∅ (mkMem ∅ 1%positive))
                           = Some (tableOf cells' m')
  | None => Demo.update 3 "C1" "=Z99+1" (tableOf ∅ (mkMem ∅ 1%positive)) = None
  end.
Proof.
  apply (X1_memory_refines_table 0%Z Demo.falsy Demo.numToString Demo.evaluate).
  - split; intros *; by rewrite lookup_empty.
  - intros c o _ Hc. by rewrite lookup_empty in Hc.
Defined.

(** X4.  An undo does not take back what a commit pushed into a dependents
    array: after C1 = 5, Z99 = "=C1" and an undo the component shows a table
    without a cell Z99 in which Z99 is a dependent of C1, and the edit
    C1 = "=Z99+1" is answered with #CIRCULAR. *)
Lemma X4_undo_keeps_dependents :
  ∃ a cells,
    Demo.runApp 3 [Committed (TypeAndBlur "C1" "5"); Committed (TypeAndBlur "Z99" "=C1");
                   UndoClicked; Committed (TypeAndBlur "C1" "=Z99+1")] initialApp = Some a ∧
    shown a = Some cells ∧ cells !! "Z99" = None ∧
    depsOf (tableOf cells (memory a)) "C1" = ["Z99"] ∧
    valueAt (tableOf cells (memory a)) "C1" = VStr "#CIRCULAR".
Proof.
  eexists _, _. split; [vm_compute; reflexivity|]. split; [reflexivity|].
  split; [reflexivity|]. split; vm_compute; reflexivity.
Qed.

(** ** The further properties on concrete inputs *)

Lemma run_sheet5 : Demo.run 3 [TypeAndBlur "A1" "=B1"] ∅ = Some Demo.sheet5.
Proof. vm_compute. reflexivity. Qed.

Lemma run_sheet6 : Demo.run 3 [TypeAndBlur "A1" "5"] Demo.sheet5 = Some Demo.sheet6.
Proof. vm_compute. reflexivity. Qed.

Lemma sheet5_wellFormed : wellFormed Demo.sheet5.
Proof.
  eapply runEdits_wellFormed; [exact run_sheet5|apply wellFormed_empty].
Qed.

(** In the table [sheet6] no stored formula references B1. *)
Lemma sheet6_no_reference c : "B1" ∉ parentsOf (formulaAt Demo.sheet6 c).
Proof.
  unfold formulaAt, cellOr, Demo.sheet6.
  destruct (decide (c = "A1")) as [->|H1]; [compute_done|].
  rewrite lookup_insert_ne by done.
  destruct (decide (c = "B1")) as [->|H2]; [compute_done|].
  rewrite lookup_singleton_ne by done. compute_done.
Qed.

(** X6 at the table after A1 = "=B1": B1 = "=A1" would close a cycle, and it
    is still rejected after A1 = 5, when no formula references B1. *)
Lemma X6_witness :
  reach Demo.sheet6 "B1" "A1" ∧
  ∃ k, ∀ m, k ≤ m →
    Demo.update m "B1" "=A1" Demo.sheet6 = Some (circularSnapshot "B1" "=A1" Demo.sheet6) ∧
    valueAt (circularSnapshot "B1" "=A1" Demo.sheet6) "B1" = VStr "#CIRCULAR".
Proof.
  apply (X6_rejection_is_permanent 0%Z Demo.falsy Demo.numToString Demo.evaluate
           3 [TypeAndBlur "A1" "5"] Demo.sheet5 Demo.sheet6 "B1" "=A1" "A1").
  - apply sheet5_wellFormed.
  - compute_done.
  - apply rtc_once. unfold edge. compute_done.
  - exact run_sheet6.
Defined.

(** X7 at the edits that make the table of scenario 1. *)
Lemma X7_witness :
  formulaAt Demo.sheet1 "B1"
    = lastTyped "B1" [TypeAndBlur "A1" "5"; TypeAndBlur "B1" "=A1+1"] (formulaAt (∅ : gmap string (@Cell Z)) "B1") ∧
  displayValue Demo.falsy true (Demo.sheet1 !! "B1")
    = VStr (lastTyped "B1" [TypeAndBlur "A1" "5"; TypeAndBlur "B1" "=A1+1"] (formulaAt (∅ : gmap string (@Cell Z)) "B1")).
Proof.
  apply (X7_formula_is_last_typed 0%Z Demo.falsy Demo.numToString Demo.evaluate
           3 [TypeAndBlur "A1" "5"; TypeAndBlur "B1" "=A1+1"] ∅ Demo.sheet1 "B1").
  exact run_sheet1.
Defined.

(** X8 at the commit of B1 = "=A1+2" on the table of scenario 1. *)
Lemma X8_witness :
  ∃ s', Demo.update 3 "B1" "=A1+2" Demo.sheet1 = Some s' ∧
    (∀ c, ¬ reach Demo.sheet1 "B1" c →
       valueAt s' c = valueAt Demo.sheet1 c ∧ formulaAt s' c = formulaAt Demo.sheet1 c) ∧
    (∀ c, c ≠ "B1" → formulaAt s' c = formulaAt Demo.sheet1 c) ∧
    (∀ a b, edge s' a b → edge Demo.sheet1 a b ∨ reach Demo.sheet1 "B1" b).
Proof.
  eexists. split; [vm_compute; reflexivity|].
  apply (X8_commit_frame 0%Z Demo.falsy Demo.numToString Demo.evaluate
           3 "B1" "=A1+2" Demo.sheet1).
  vm_compute. reflexivity.
Defined.

(** X9 at a table in which A1 is its own dependent. *)
Lemma X9_witness :
  (∀ n, hasCircularDependency n "A1" "B1" Demo.loop ≠ Some false) ∧
  (¬ reach Demo.loop "A1" "B1" → ∀ n, hasCircularDependency n "A1" "B1" Demo.loop = None).
Proof.
  apply (X9_detector_on_cycle Demo.loop "A1" "B1" "A1").
  - apply rtc_refl.
  - apply tc_once. unfold edge. compute_done.
Defined.

(** X13 at the 27th column, which 17 clicks on Add Column make: its header
    is the character after Z, and no formula references its cells. *)
Lemma X13_witness :
  ((∃ f, cellIdOf "[" 1 ∈ parentsOf f) ↔ 26 < 26) ∧
  (26 < 26 → parentsOf ("=" +:+ cellIdOf "[" 1) = [cellIdOf "[" 1]) ∧
  (32 ≤ 26 < 58 →
     parentsOf ("=" +:+ cellIdOf "[" 1) = [cellIdOf (fromCharCode (65 + (26 - 32))) 1]).
Proof.
  apply (X13_referenceable_columns (replicate 17 AddColumn) 26 "[" 1).
  - reflexivity.
  - lia.
Defined.

(** X14 at the grid after one click on Add Column and one on Add Row. *)
Lemma X14_witness : NoDup (gridIds (runGrid [AddColumn; AddRow] initialGrid)).
Proof.
  apply (X14_grid_ids_distinct [AddColumn; AddRow]). simpl. lia.
Defined.

(** X16 at the snapshots after C1 = 5, read after Z99 = "=C1" and an undo. *)
Lemma X16_witness :
  ∃ a a',
    Demo.runApp 3 [Committed (TypeAndBlur "C1" "5")] initialApp = Some a ∧
    Demo.runApp 3 [Committed (TypeAndBlur "Z99" "=C1"); UndoClicked] a = Some a' ∧
    ∀ e, e ∈ snapshots a → ∀ c,
      valueAt (tableOf e (memory a')) c = valueAt (tableOf e (memory a)) c ∧
      formulaAt (tableOf e (memory a')) c = formulaAt (tableOf e (memory a)) c ∧
      depsOf (tableOf e (memory a)) c `prefix_of` depsOf (tableOf e (memory a')) c.
Proof.
  eexists _, _. split; [vm_compute; reflexivity|]. split; [vm_compute; reflexivity|].
  intros e He.
  eapply (X16_snapshots_gain_dependents_only 0%Z Demo.falsy Demo.numToString Demo.evaluate
            3 [Committed (TypeAndBlur "C1" "5")]
            [Committed (TypeAndBlur "Z99" "=C1"); UndoClicked]);
    [vm_compute; reflexivity|vm_compute; reflexivity|exact He].
Defined.

Lemma sheet1_settled : settled 0%Z Demo.falsy Demo.numToString Demo.evaluate Demo.sheet1.
Proof.
  eapply runEdits_settled; [exact run_sheet1|apply acyclic_empty|apply settled_empty].
Qed.

Lemma sheet1_noCircularParent : noCircularParent Demo.sheet1.
Proof.
  intros c p Hp.
  assert (p = "A1") as ->; [|done].
  unfold formulaAt, cellOr, Demo.sheet1 in Hp.
  destruct (decide (c = "A1")) as [->|H1].
  { vm_compute in Hp. by apply elem_of_nil in Hp. }
  rewrite lookup_insert_ne in Hp by done.
  destruct (decide (c = "B1")) as [->|H2].
  - vm_compute in Hp. by apply list_elem_of_singleton in Hp.
  - rewrite lookup_singleton_ne in Hp by done. vm_compute in Hp.
    by apply elem_of_nil in Hp.
Qed.

(** X17 at the formulas "=a1+1" and "=A1+1" on the table of scenario 1. *)
Lemma X17_witness :
  parentsOf "=a1+1" = parentsOf "=A1+1" ∧
  formulaPlan 0%Z Demo.falsy Demo.numToString "=a1+1" Demo.sheet1
    = formulaPlan 0%Z Demo.falsy Demo.numToString "=A1+1" Demo.sheet1 ∧
  calculateFormula 0%Z Demo.falsy Demo.numToString Demo.evaluate "=a1+1" Demo.sheet1
    = calculateFormula 0%Z Demo.falsy Demo.numToString Demo.evaluate "=A1+1" Demo.sheet1.
Proof.
  apply (X17_formula_reads 0%Z Demo.falsy Demo.numToString Demo.evaluate
           "=A1+1" "=a1+1" Demo.sheet1 Demo.sheet1).
  - reflexivity.
  - reflexivity.
  - reflexivity.
  - reflexivity.
  - intros p _. reflexivity.
Defined.

(** X18 at the table of scenario 1 and its cell B1. *)
Lemma X18_witness :
  ∃ n, ∀ m, n ≤ m →
    applyEdit 0%Z Demo.falsy Demo.numToString Demo.evaluate m (FocusAndBlur "B1") Demo.sheet1
      = Some Demo.sheet1.
Proof.
  apply (X18_blur_without_typing 0%Z Demo.falsy Demo.numToString Demo.evaluate
           Demo.sheet1 "B1").
  - apply sheet1_wellFormed.
  - apply sheet1_settled.
  - apply sheet1_noCircularParent.
  - by eexists.
Defined.

(** X19 at the table of scenario 1: A1 = "=B1" is rejected, and B1 keeps the
    value 6 while its formula now evaluates to #ERROR. *)
Lemma X19_witness :
  valueAt (circularSnapshot "A1" "=B1" Demo.sheet1) "B1" = valueAt Demo.sheet1 "B1" ∧
  formulaAt (circularSnapshot "A1" "=B1" Demo.sheet1) "B1" = formulaAt Demo.sheet1 "B1" ∧
  calculateFormula 0%Z Demo.falsy Demo.numToString Demo.evaluate
    (formulaAt (circularSnapshot "A1" "=B1" Demo.sheet1) "B1")
    (circularSnapshot "A1" "=B1" Demo.sheet1) = VStr "#ERROR".
Proof.
  apply (X19_rejected_edit_leaves_dependents 0%Z Demo.falsy Demo.numToString Demo.evaluate
           3 "A1" "=B1" Demo.sheet1 (circularSnapshot "A1" "=B1" Demo.sheet1) "B1" "B1").
  - vm_compute. reflexivity.
  - compute_done.
  - apply rtc_once, sheet1_edge.
  - done.
  - compute_done.
Defined.

(** X20 at the cell A1 of the table of scenario 3, which holds #ERROR. *)
Lemma X20_witness :
  (textColor (Demo.sheet2 !! "A1") = red ↔
     isErrorTag (valueOrZero 0%Z Demo.falsy Demo.sheet2 "A1") = true) ∧
  (textColor (Demo.sheet2 !! "A1") = red → ∀ f, "A1" ∈ parentsOf f →
     calculateFormula 0%Z Demo.falsy Demo.numToString Demo.evaluate f Demo.sheet2
       = VStr "#ERROR") ∧
  (displayValue Demo.falsy false (Demo.sheet2 !! "A1") = VStr "" ↔
     valueOrZero 0%Z Demo.falsy Demo.sheet2 "A1" = VNum 0%Z).
Proof.
  apply (X20_display_matches_engine 0%Z Demo.falsy Demo.numToString Demo.evaluate
           Demo.sheet2 "A1").
  reflexivity.
Defined.

(** X21 at the formula "=A1+B1" on the table of scenario 1: the evaluator is
    given 5+6. *)
Lemma X21_witness :
  formulaPlan 0%Z Demo.falsy Demo.numToString "=A1+B1" Demo.sheet1 =
    Evaluate (replaceRefs
                (λ m, valueToString Demo.numToString (valueOrZero 0%Z Demo.falsy Demo.sheet1 m))
                (toUpperCase (substring1 "=A1+B1"))).
Proof.
  apply (X21_references_replaced_in_place 0%Z Demo.falsy Demo.numToString "=A1+B1" Demo.sheet1).
  - reflexivity.
  - reflexivity.
  - intros m Hm. change (matchRefs (toUpperCase (substring1 "=A1+B1"))) with ["A1"; "B1"] in Hm.
    apply elem_of_cons in Hm as [->|Hm]; [by vm_compute|].
    apply list_elem_of_singleton in Hm as ->. by vm_compute.
  - vm_compute. reflexivity.
Defined.

(** X22 at the edit A1 = 5 on the table after A1 = "=B1": B1 stays, and
    keeps its dependent A1. *)
Lemma X22_witness :
  (is_Some (Demo.sheet5 !! "B1") → is_Some (Demo.sheet6 !! "B1")) ∧
  depsOf Demo.sheet5 "B1" `prefix_of` depsOf Demo.sheet6 "B1".
Proof.
  apply (X22_nothing_is_removed 0%Z Demo.falsy Demo.numToString Demo.evaluate
           3 [TypeAndBlur "A1" "5"] Demo.sheet5 Demo.sheet6 "B1").
  exact run_sheet6.
Defined.

(** X23 at the commit of the text 5 into A1 on the empty table. *)
Lemma X23_witness :
  ∃ s', Demo.update 2 "A1" "5" ∅ = Some s' ∧
    valueAt s' "A1" = VStr "5" ∧ formulaAt s' "A1" = "5" ∧ parentsOf "5" = [].
Proof.
  eexists. split; [vm_compute; reflexivity|].
  apply (X23_literal_commit 0%Z Demo.falsy Demo.numToString Demo.evaluate 2 "A1" "5" ∅).
  - reflexivity.
  - vm_compute. reflexivity.
Defined.

(** X24 at the table of scenario 1 and the edit A1 = "=B1". *)
Lemma X24_witness :
  ∃ r, (∀ n, length (universe "A1" "" Demo.sheet1) ≤ n →
          anyM (λ parent, hasCircularDependency n "A1" parent Demo.sheet1) (parentsOf "=B1")
            = Some r) ∧
       (r = true ↔
        ¬ acyclic (linkParents 0%Z Demo.falsy Demo.numToString Demo.evaluate
                     "A1" "=B1" Demo.sheet1)).
Proof.
  apply (X24_cycle_check_exact 0%Z Demo.falsy Demo.numToString Demo.evaluate
           "A1" "=B1" Demo.sheet1).
  apply sheet1_wellFormed.
Defined.

Lemma sheet7_values c : valueAt Demo.sheet7 c ≠ VStr "#CIRCULAR".
Proof.
  unfold valueAt, cellOr, Demo.sheet7.
  destruct (decide (c = "A1")) as [->|H1]; [by vm_compute|].
  rewrite lookup_insert_ne by done.
  destruct (decide (c = "B1")) as [->|H2]; [by vm_compute|].
  rewrite lookup_insert_ne by done.
  destruct (decide (c = "C1")) as [->|H3]; [by vm_compute|].
  rewrite lookup_singleton_ne by done. by vm_compute.
Qed.

Lemma sheet8_values c : valueAt Demo.sheet8 c ≠ VStr "#CIRCULAR".
Proof.
  unfold valueAt, cellOr, Demo.sheet8.
  destruct (decide (c = "A1")) as [->|H1]; [by vm_compute|].
  rewrite lookup_insert_ne by done.
  destruct (decide (c = "B1")) as [->|H2]; [by vm_compute|].
  rewrite lookup_insert_ne by done.
  destruct (decide (c = "C1")) as [->|H3]; [by vm_compute|].
  rewrite lookup_singleton_ne by done. by vm_compute.
Qed.

(** X25 at A1 = 5, B1 = "=A1+1", C1 = "=A1+2" and the same edits with the
    last two in the other order: the tables differ in the dependents of A1
    and agree on every value. *)
Lemma X25_witness :
  depsOf Demo.sheet7 "A1" ≠ depsOf Demo.sheet8 "A1" ∧
  ∀ c, valueAt Demo.sheet7 c = valueAt Demo.sheet8 c.
Proof.
  split; [by vm_compute|].
  apply (X25_values_follow_formulas 0%Z Demo.falsy Demo.numToString Demo.evaluate 3
           [TypeAndBlur "A1" "5"; TypeAndBlur "B1" "=A1+1"; TypeAndBlur "C1" "=A1+2"]
           [TypeAndBlur "A1" "5"; TypeAndBlur "C1" "=A1+2"; TypeAndBlur "B1" "=A1+1"]).
  - vm_compute. reflexivity.
  - vm_compute. reflexivity.
  - intros c. unfold lastTyped. simpl. repeat case_decide; simplify_eq; done.
  - apply sheet7_values.
  - apply sheet8_values.
Defined.

End Examples.
